(** * mongoose-couch: a shallow embedding of the model layer

    The development follows the JavaScript sources:

    - [JsString]      the string primitives the sources rely on
                      ([String.prototype.replace] with a string pattern,
                      [charAt], [slice], [toUpperCase]);
    - [Collection]    lib/collection.js: the per-collection command queue
                      ([maybeQueueCall], [callOrDeferUntilOpen], [doQueue],
                      [onOpen], [onClose]);
    - [Lifecycle]     lib/model.js: [Model.prototype.save], [handleSave] and
                      [Model.prototype.remove];
    - [Indexes]       lib/model.js: [Model.ensureIndexes];
    - [Discriminator] lib/model.js: [Model.discriminator];
    - [Registration], [Fixtures]  the schemas of example-discriminator.js
                      and variations of them;
    - [Gates]         lib/collection.js: what a call meets at the gates;
    - [Driver]        lib/drivers/*/collection.js over lib/collection.js:
                      driver methods, which pass [maybeQueueCall] again when
                      the queue applies them;
    - [JsObject]      the properties every object inherits, and the names
                      on which the string model is exact;
    - [Find]          lib/model.js: [Model.find], [response_to_input_refs]
                      and [response_to_input_full];
    - [FlatFile]      lib/drivers/flat-file/collection.js: [all],
                      [findOneWithView] and [bulkRemove];
    - [Mongoose]      lib/index.js: [Mongoose.prototype.model].

    Asynchronous calls are split where the source splits them: the part that
    runs when the call is made, and the callback that runs when the store
    answers.  Calls that leave this layer (driver calls, completions handed in
    by the caller, emitted events) are recorded in traces carried by the
    state. *)

From Stdlib Require Import ZArith Ascii String List Bool Lia DecimalString.
From stdpp Require Import gmap strings list fin_maps.
Import ListNotations.

Local Open Scope string_scope.
Local Open Scope list_scope.

(* ===================================================================== *)
(** ** JavaScript string primitives *)
(* ===================================================================== *)

Module JsString.

(** [s.startsWith(p)], returning what follows the prefix. *)
Fixpoint strip_prefix (p s : string) : option string :=
  match p with
  | EmptyString => Some s
  | String a p' =>
      match s with
      | EmptyString => None
      | String b s' => if Ascii.eqb a b then strip_prefix p' s' else None
      end
  end.

(** The first occurrence of [pat] in [s]: the text before it and the text
    after it. *)
Fixpoint find_first (pat s : string) : option (string * string) :=
  match strip_prefix pat s with
  | Some rest => Some (EmptyString, rest)
  | None =>
      match s with
      | EmptyString => None
      | String c s' =>
          match find_first pat s' with
          | Some (before, after) => Some (String c before, after)
          | None => None
          end
      end
  end.

Definition includes (pat s : string) : bool :=
  match find_first pat s with Some _ => true | None => false end.

(** ECMAScript GetSubstitution for a string pattern (no captures): in the
    replacement text [$$] stands for a dollar sign, [$&] for the matched
    text, [$`] for the text before the match and [$'] for the text after
    it; any other text is copied. *)
Fixpoint substitute (matched before after repl : string) : string :=
  match repl with
  | EmptyString => EmptyString
  | String c tl =>
      if Ascii.eqb c "$" then
        match tl with
        | String d tl' =>
            if Ascii.eqb d "$" then String "$" (substitute matched before after tl')
            else if Ascii.eqb d "&" then matched +:+ substitute matched before after tl'
            else if Ascii.eqb d "`" then before +:+ substitute matched before after tl'
            else if Ascii.eqb d "'" then after +:+ substitute matched before after tl'
            else String c (substitute matched before after tl)
        | EmptyString => String c EmptyString
        end
      else String c (substitute matched before after tl)
  end.

(** [s.replace(pat, repl)] with a string pattern: only the first occurrence
    is replaced; without an occurrence [s] is returned as it is. *)
Definition replace (pat repl s : string) : string :=
  match find_first pat s with
  | Some (before, after) =>
      before +:+ substitute pat before after repl +:+ after
  | None => s
  end.

(** [c.toUpperCase()] on the ASCII range. *)
Definition toUpperCase_ascii (c : ascii) : ascii :=
  let n := nat_of_ascii c in
  if (97 <=? n)%nat && (n <=? 122)%nat then ascii_of_nat (n - 32) else c.

(** [name.charAt(0).toUpperCase() + name.slice(1)], for a name that
    begins with an ASCII character (or is empty): outside ASCII
    [toUpperCase] follows the Unicode case tables, which are not modelled
    here. *)
Definition capitalize (name : string) : string :=
  match name with
  | EmptyString => EmptyString
  | String c rest => String (toUpperCase_ascii c) rest
  end.

Definition is_space (c : ascii) : bool :=
  let n := nat_of_ascii c in
  (n =? 32)%nat || ((9 <=? n)%nat && (n <=? 13)%nat).

(** [s.replace(/^\s+/g, '')]: without the [m] flag [^] only matches at the
    start of the text, so this drops the leading white space. *)
Fixpoint strip_leading_space (s : string) : string :=
  match s with
  | EmptyString => EmptyString
  | String c s' => if is_space c then strip_leading_space s' else s
  end.

Definition nl : string := String (ascii_of_nat 10) EmptyString.

(** No [$$], [$&], [$`] or [$'] in a replacement text. *)
Fixpoint plain (repl : string) : bool :=
  match repl with
  | EmptyString => true
  | String c tl =>
      if Ascii.eqb c "$" then
        match tl with
        | String d _ =>
            negb (Ascii.eqb d "$" || Ascii.eqb d "&" || Ascii.eqb d "`"
                  || Ascii.eqb d "'") && plain tl
        | EmptyString => true
        end
      else plain tl
  end.

End JsString.

(* ===================================================================== *)
(** ** lib/collection.js: the command queue *)
(* ===================================================================== *)

Module Collection.

(** A queued call [[fn, waitForIndexes, args]].  [fn] names the function
    (a method name is resolved with [this[fn]] when the call is queued, so
    the queue holds the function either way). *)
Record entry := Entry {
  fn : string;
  waitForIndexes : bool;
  args : list string
}.

(** Calls that leave the queueing layer. *)
Inductive effect :=
| Applied (e : entry)       (* e[0].apply(this, e[2]) *)
| Called (fn : string)      (* fn.call(this, true) *)
| EnsureDb.                 (* this.ensureDb(this.onOpen.bind(this)) *)

Record t := Mk {
  bufferCommands : bool;     (* opts.bufferCommands *)
  queue : list entry;
  buffer : bool;
  ensuringDb : bool;
  ensuringIndexes : Z;
  effects : list effect
}.

(** [new Collection(name, conn, opts)] *)
Definition create (bufferCommands : bool) : t :=
  {| bufferCommands := bufferCommands; queue := []; buffer := bufferCommands;
     ensuringDb := false; ensuringIndexes := 0; effects := [] |}.

Definition set_queue (q : list entry) (c : t) : t :=
  {| bufferCommands := bufferCommands c; queue := q; buffer := buffer c;
     ensuringDb := ensuringDb c; ensuringIndexes := ensuringIndexes c;
     effects := effects c |}.

Definition set_buffer (b : bool) (c : t) : t :=
  {| bufferCommands := bufferCommands c; queue := queue c; buffer := b;
     ensuringDb := ensuringDb c; ensuringIndexes := ensuringIndexes c;
     effects := effects c |}.

Definition set_ensuringDb (b : bool) (c : t) : t :=
  {| bufferCommands := bufferCommands c; queue := queue c; buffer := buffer c;
     ensuringDb := b; ensuringIndexes := ensuringIndexes c;
     effects := effects c |}.

Definition set_ensuringIndexes (n : Z) (c : t) : t :=
  {| bufferCommands := bufferCommands c; queue := queue c; buffer := buffer c;
     ensuringDb := ensuringDb c; ensuringIndexes := n;
     effects := effects c |}.

Definition emit (x : effect) (c : t) : t :=
  {| bufferCommands := bufferCommands c; queue := queue c; buffer := buffer c;
     ensuringDb := ensuringDb c; ensuringIndexes := ensuringIndexes c;
     effects := effects c ++ [x] |}.

(** [this.queue.push(e)] *)
Definition push (e : entry) (c : t) : t := set_queue (queue c ++ [e]) c.

(** [!!this.ensuringIndexes] *)
Definition indexing (c : t) : bool := negb (ensuringIndexes c =? 0)%Z.

(** [Collection.prototype.maybeQueueCall]: [true] when the call was
    deferred. *)
Definition maybeQueueCall (f : string) (wait : bool) (a : list string)
    (c : t) : bool * t :=
  if buffer c || (wait && indexing c) then
    let c1 := push (Entry f wait a) c in
    let c2 := if negb (ensuringDb c1)
              then emit EnsureDb (set_ensuringDb true c1)
              else c1 in
    (true, c2)
  else (false, c).

(** [Collection.prototype.callOrDeferUntilOpen] *)
Definition callOrDeferUntilOpen (f : string) (dontWaitForIndexes : bool)
    (c : t) : t :=
  let '(deferred, c1) := maybeQueueCall f (negb dontWaitForIndexes) [] c in
  if deferred then c1 else emit (Called f) c1.

(** One turn of the loop of [doQueue].  [Applied e] records the call
    [e[0].apply(this, e[2])] itself; what the function applied does then
    is its own business (for the methods of the drivers, which meet
    [maybeQueueCall] again, see [Driver]). *)
Definition doQueue_step (idx : bool) (c : t) (e : entry) : t :=
  if waitForIndexes e && idx then push e c else emit (Applied e) c.

(** [Collection.prototype.doQueue] *)
Definition doQueue (c : t) : t :=
  let idx := indexing c in
  let old := queue c in
  fold_left (doQueue_step idx) old (set_queue [] c).

(** [Collection.prototype.onOpen] *)
Definition onOpen (c : t) : t :=
  doQueue (set_ensuringDb false (set_buffer false c)).

(** [Collection.prototype.onClose] *)
Definition onClose (c : t) : t :=
  if bufferCommands c then set_ensuringDb false (set_buffer true c) else c.

(** The entries a flush hands to [apply], in the order of the calls. *)
Fixpoint applied (xs : list effect) : list entry :=
  match xs with
  | [] => []
  | Applied e :: xs' => e :: applied xs'
  | _ :: xs' => applied xs'
  end.

(** Queueing a sequence of calls, one [maybeQueueCall] each. *)
Definition submit (c : t) (e : entry) : t :=
  snd (maybeQueueCall (fn e) (waitForIndexes e) (args e) c).

Definition submit_all (es : list entry) (c : t) : t := fold_left submit es c.

(** An entry is held back by a flush when it waits for indexes and index
    synthesis is in progress. *)
Definition held (idx : bool) (e : entry) : bool := waitForIndexes e && idx.

End Collection.

(* ===================================================================== *)
(** ** lib/promise.js *)
(* ===================================================================== *)

Module Promise.

(** How an operation ends: [promise.error(err)] or [promise.complete(..)]. *)
Inductive outcome :=
| Rejected (err : string)
| Fulfilled.

(** Modelled from the spec: lib/promise.js is not among the sources.  A
    promise holds the completions attached to an operation in flight and
    notifies all of them, with the one outcome, when the operation
    resolves.  A completion is named by a number; a call made without a
    callback attaches none.  A completion attached after the operation
    has resolved is notified at once with the recorded outcome. *)
Record t := Mk {
  listeners : list nat;
  emitted : option outcome
}.

(** A notification: completion [fst] is called with outcome [snd]. *)
Definition notification : Type := nat * outcome.

(** Modelled from the spec: [new Promise(fn)] attaches [fn] when it is
    given. *)
Definition create (fn : option nat) : t :=
  {| listeners := match fn with Some f => [f] | None => [] end;
     emitted := None |}.

(** Modelled from the spec: [promise.addBack(fn)] attaches one more
    completion. *)
Definition addBack (fn : option nat) (p : t) : t * list notification :=
  match fn with
  | None => (p, [])
  | Some f =>
      match emitted p with
      | Some o => (p, [(f, o)])
      | None => ({| listeners := listeners p ++ [f]; emitted := None |}, [])
      end
  end.

(** Modelled from the spec: [promise.error(err)] and
    [promise.complete(..)] resolve the operation; only the first of them
    counts. *)
Definition resolve (o : outcome) (p : t) : t * list notification :=
  match emitted p with
  | Some _ => (p, [])
  | None =>
      ({| listeners := listeners p; emitted := Some o |},
       List.map (fun f => (f, o)) (listeners p))
  end.

End Promise.

(* ===================================================================== *)
(** ** lib/model.js: save and remove of a document instance *)
(* ===================================================================== *)

Module Lifecycle.

(** A document instance.  [inserting] and [removing] are the fields of
    [this.$__]; an [inserting] that was never set reads as false. *)
Record doc := MkDoc {
  _id : string;
  _rev : option string;
  data : string;
  isNew : bool;
  inserting : bool;
  removing : option nat
}.

(** [this.toObject({ depopulate: 1 })] *)
Record object := MkObject {
  obj_id : string;
  obj_rev : option string;
  obj_data : string
}.

Definition toObject (d : doc) : object :=
  {| obj_id := _id d; obj_rev := _rev d; obj_data := data d |}.

(** Calls to the collection.  The number names the promise whose
    completion ([handleSave], or the callback of [remove]) the store will
    call. *)
Inductive request :=
| Insert (obj : object) (p : nat)                     (* collection.insert(obj, options, complete) *)
| Remove (id : string) (rev : option string) (p : nat). (* collection.remove(_id, _rev, cb) *)

Inductive event :=
| EmitIsNew (b : bool)
| EmitSave
| EmitRemove.

Record world := MkWorld {
  inst : doc;
  promises : list Promise.t;
  requests : list request;
  events : list event;
  notified : list Promise.notification
}.

Definition set_isNew (b : bool) (d : doc) : doc :=
  {| _id := _id d; _rev := _rev d; data := data d; isNew := b;
     inserting := inserting d; removing := removing d |}.

Definition set_inserting (b : bool) (d : doc) : doc :=
  {| _id := _id d; _rev := _rev d; data := data d; isNew := isNew d;
     inserting := b; removing := removing d |}.

Definition set_removing (r : option nat) (d : doc) : doc :=
  {| _id := _id d; _rev := _rev d; data := data d; isNew := isNew d;
     inserting := inserting d; removing := r |}.

Definition set_id_rev (id rev : string) (d : doc) : doc :=
  {| _id := id; _rev := Some rev; data := data d; isNew := isNew d;
     inserting := inserting d; removing := removing d |}.

Definition with_inst (f : doc -> doc) (w : world) : world :=
  {| inst := f (inst w); promises := promises w; requests := requests w;
     events := events w; notified := notified w |}.

Definition send (r : request) (w : world) : world :=
  {| inst := inst w; promises := promises w; requests := requests w ++ [r];
     events := events w; notified := notified w |}.

Definition emit (e : event) (w : world) : world :=
  {| inst := inst w; promises := promises w; requests := requests w;
     events := events w ++ [e]; notified := notified w |}.

(** [new Promise(fn)]: the new promise and the world that holds it. *)
Definition new_promise (fn : option nat) (w : world) : nat * world :=
  (length (promises w),
   {| inst := inst w; promises := promises w ++ [Promise.create fn];
      requests := requests w; events := events w; notified := notified w |}).

(** Run a promise operation on promise [p] and record whom it notifies. *)
Definition on_promise (p : nat)
    (op : Promise.t -> Promise.t * list Promise.notification)
    (w : world) : world :=
  match promises w !! p with
  | Some pr =>
      let '(pr', ns) := op pr in
      {| inst := inst w; promises := <[p := pr']> (promises w);
         requests := requests w; events := events w;
         notified := notified w ++ ns |}
  | None => w
  end.

(** [Model.prototype.save].  The store answers after [save] has returned
    (both drivers answer from an I/O callback), so the call only sends the
    request.  [this._reset()] clears the modification tracking of Document,
    which is not part of this state, and the [safe] option travels with the
    request unchanged. *)
Definition save (fn : option nat) (w : world) : world :=
  let '(p, w) := new_promise fn w in
  if isNew (inst w) then
    let obj := toObject (inst w) in
    let w := send (Insert obj p) w in
    let w := with_inst (set_isNew false) w in
    let w := emit (EmitIsNew false) w in
    with_inst (set_inserting true) w
  else
    let w := with_inst (set_inserting false) w in
    let obj := toObject (inst w) in
    let w := send (Insert obj p) w in
    emit (EmitIsNew false) w.

(** What the store answers to an insert: an error, or [result.id] and
    [result.rev]. *)
Inductive save_result :=
| SaveErr (err : string)
| SaveOk (id rev : string).

(** The callback built by [handleSave(promise, self)], for promise [p].
    ([tick] only defers an exception of the callback to the next tick.) *)
Definition handleSave (p : nat) (r : save_result) (w : world) : world :=
  match r with
  | SaveErr err =>
      let w := if inserting (inst w)
               then emit (EmitIsNew true) (with_inst (set_isNew true) w)
               else w in
      on_promise p (Promise.resolve (Promise.Rejected err)) w
  | SaveOk id rev =>
      let w := with_inst (set_id_rev id rev) w in
      let w := emit EmitSave w in
      on_promise p (Promise.resolve Promise.Fulfilled) w
  end.

(** [Model.prototype.remove] *)
Definition remove (fn : option nat) (w : world) : world :=
  match removing (inst w) with
  | Some p => on_promise p (Promise.addBack fn) w
  | None =>
      let '(p, w) := new_promise fn w in
      let w := with_inst (set_removing (Some p)) w in
      send (Remove (_id (inst w)) (_rev (inst w)) p) w
  end.

(** The callback [remove] hands to [collection.remove], for promise [p]. *)
Definition removeDone (p : nat) (err : option string) (w : world) : world :=
  match err with
  | Some e =>
      let w := on_promise p (Promise.resolve (Promise.Rejected e)) w in
      with_inst (set_removing None) w
  | None =>
      let w := emit EmitRemove w in
      on_promise p (Promise.resolve Promise.Fulfilled) w
  end.


(** A fresh instance, as [new Model(doc)] leaves it. *)
Definition fresh (id data : string) : world :=
  {| inst := {| _id := id; _rev := None; data := data; isNew := true;
                inserting := false; removing := None |};
     promises := []; requests := []; events := []; notified := [] |}.

(** The completions a list of calls attaches: a call without a callback
    attaches none. *)
Definition attached (fns : list (option nat)) : list nat := omap id fns.

(** Whom the promise of a call made with [fn] notifies of outcome [o]. *)
Definition notifications (fn : option nat) (o : Promise.outcome)
    : list Promise.notification :=
  match fn with Some f => [(f, o)] | None => [] end.

(** The outcome the callback of [remove] reports for what the store
    answered. *)
Definition removal_outcome (err : option string) : Promise.outcome :=
  match err with Some e => Promise.Rejected e | None => Promise.Fulfilled end.

End Lifecycle.

(* ===================================================================== *)
(** ** lib/model.js: Model.ensureIndexes *)
(* ===================================================================== *)

Module Indexes.

Import JsString.

(** [schema.discriminatorMapping]: [value] is [null] for a root schema. *)
Record mapping := MkMapping {
  key : string;
  value : option string;
  isRoot : bool
}.

(** An entry of [schema.options.views].  [map] and [reduce] hold the source
    text of the function ([toString()] of a function, the text itself when
    the view was given as text). *)
Record viewSpec := MkView {
  map : option string;
  reduce : option string;
  asDefaultIndex : bool
}.

(** What [ensureIndexes] reads of a Schema.  [indexes] is the result of
    [schema.indexes()]: for each index the keys of its field object
    [indexes[i][0]].  [tree] gives, for a declared path [name], the
    [index] attribute of [schema.tree[name]] when it is a string (the key
    modifier). *)
Record schema := MkSchema {
  indexes : list (list string);
  tree : gmap string (option string);
  views : option (list (string * viewSpec));
  updates : option (gmap string string);
  lists : option (gmap string string);
  forcePlainDiscriminatorIndex : bool;
  discriminatorMapping : option mapping
}.

(** A design document: view definitions ([map], [reduce] by name), update
    and list functions, all as source text. *)
Record design := MkDesign {
  d_views : option (gmap string (gmap string string));
  d_updates : option (gmap string string);
  d_lists : option (gmap string string)
}.

Inductive exn :=
| Error (msg : string)      (* throw new Error(msg) *)
| TypeError.                (* a property read on undefined *)

Inductive effect :=
| FindById (id : string)                 (* collection.findById(id, callback) *)
| InsertDesign (id : string) (d : design) (* collection.insert(design, null, done) *)
| EmitIndex (err : option string)        (* self.emit('index', err) *)
| Callback (err : option string)         (* cb(err) *)
| NextTickCallback.                      (* process.nextTick(cb) *)

Record model := MkModel {
  modelName : string;
  schema_of : schema;
  defaultView : option string;
  collection : Collection.t;
  trace : list effect
}.

Definition log (e : effect) (m : model) : model :=
  {| modelName := modelName m; schema_of := schema_of m;
     defaultView := defaultView m; collection := collection m;
     trace := trace m ++ [e] |}.

Definition set_defaultView (v : option string) (m : model) : model :=
  {| modelName := modelName m; schema_of := schema_of m;
     defaultView := v; collection := collection m; trace := trace m |}.

Definition set_collection (c : Collection.t) (m : model) : model :=
  {| modelName := modelName m; schema_of := schema_of m;
     defaultView := defaultView m; collection := c; trace := trace m |}.

Definition set_lists (l : option (gmap string string)) (s : schema) : schema :=
  {| indexes := indexes s; tree := tree s; views := views s;
     updates := updates s; lists := l;
     forcePlainDiscriminatorIndex := forcePlainDiscriminatorIndex s;
     discriminatorMapping := discriminatorMapping s |}.

Definition set_schema (s : schema) (m : model) : model :=
  {| modelName := modelName m; schema_of := s;
     defaultView := defaultView m; collection := collection m;
     trace := trace m |}.

(** Truth value of a text that may be undefined. *)
Definition truthy (s : option string) : bool :=
  match s with
  | Some s => negb (String.eqb s "")
  | None => false
  end.

(** [String(v)] of a text or [null]. *)
Definition js_text (v : option string) : string :=
  match v with Some s => s | None => "null" end.

(** The writes of design documents in a trace. *)
Fixpoint writes (t : list effect) : list (string * design) :=
  match t with
  | [] => []
  | InsertDesign id d :: t' => (id, d) :: writes t'
  | _ :: t' => writes t'
  end.

Fixpoint reads (t : list effect) : list string :=
  match t with
  | [] => []
  | FindById id :: t' => id :: reads t'
  | _ :: t' => reads t'
  end.

(** [hasEquivalentFunctions(a, b)] *)
Definition hasEquivalentFunctions (a b : option (gmap string string)) : bool :=
  match a, b with
  | None, None => true
  | None, Some _ => false
  | Some _, None => false
  | Some a, Some b =>
      forallb (fun ev => bool_decide (b !! fst ev = Some (snd ev)))
              (map_to_list a)
  end.

(** The guard line of a non-root discriminator schema. *)
Definition earlyOut_of (dm : mapping) : string :=
  "if (doc['" +:+ key dm +:+ "'] !== '" +:+ js_text (value dm) +:+ "') return;".

(** The text of [listDiscriminatorHandler]. *)
Definition listDiscriminatorHandler (dm : mapping) : string :=
  replace nl " "
    (strip_leading_space
       (nl +:+
        "          var getDiscriminatedRow = function() {" +:+ nl +:+
        "            var row; while ((row = getRow())) {" +:+ nl +:+
        "              if (row.value." +:+ key dm +:+ " === '"
                        +:+ js_text (value dm) +:+ "')" +:+ nl +:+
        "                break;" +:+ nl +:+
        "            }" +:+ nl +:+
        "            return row;" +:+ nl +:+
        "          };")).

(** The rewrite of one list function. *)
Definition rewriteList (handler src : string) : string :=
  replace "{" ("{" +:+ handler) (replace "getRow" "getDiscriminatedRow" src).

(** The guard spliced into the map of a custom view. *)
Definition guardMap (earlyOut src : string) : string :=
  replace "{" ("{" +:+ earlyOut) src.

(** The map of the view synthesized for an indexed field. *)
Definition fieldMap (earlyOut name keyModifier : string) : string :=
  "function(doc){" +:+ earlyOut +:+ "emit(doc." +:+ name +:+ keyModifier
    +:+ ",doc);}".

(** The local variables of the callback that [maybeUpdateIndex] updates. *)
Record acc := MkAcc {
  a_views : gmap string (gmap string string);
  a_modified : bool;
  customViewNames : list string;
  indexViewNames : list string
}.

(** The [def] that [maybeUpdateIndex] builds; [None] when
    [self.schema.tree[name]] is undefined. *)
Definition definition (earlyOut : string) (tr : gmap string (option string))
    (name : string) (spec : option viewSpec) : option (gmap string string) :=
  match spec with
  | Some spec =>
      let def : gmap string string := ∅ in
      let def :=
        match map spec with
        | Some src =>
            if truthy (Some src) then
              <["map" := if truthy (Some earlyOut)
                         then guardMap earlyOut src else src]> def
            else def
        | None => def
        end in
      let def :=
        match reduce spec with
        | Some src => if truthy (Some src) then <["reduce" := src]> def else def
        | None => def
        end in
      Some def
  | None =>
      match tr !! name with
      | Some index =>
          let keyModifier := match index with Some s => s | None => "" end in
          Some {["map" := fieldMap earlyOut name keyModifier]}
      | None => None
      end
  end.

(** [maybeUpdateIndex(name, spec)].  [views[viewName]] is read as the view
    stored under that name, or undefined: the names of views are taken not
    to be those of properties every object inherits ([constructor],
    [toString], ...), under which [views[viewName]] is never undefined. *)
Definition maybeUpdateIndex (earlyOut : string)
    (tr : gmap string (option string)) (a : acc)
    (call : string * option viewSpec) : option acc :=
  let '(name, spec) := call in
  let viewName :=
    match spec with
    | Some _ => name
    | None => "by" +:+ capitalize name
    end in
  let a :=
    match spec with
    | Some _ =>
        {| a_views := a_views a; a_modified := a_modified a;
           customViewNames := customViewNames a ++ [viewName];
           indexViewNames := indexViewNames a |}
    | None =>
        {| a_views := a_views a; a_modified := a_modified a;
           customViewNames := customViewNames a;
           indexViewNames := indexViewNames a ++ [viewName] |}
    end in
  match definition earlyOut tr name spec with
  | Some def =>
      if negb (hasEquivalentFunctions (a_views a !! viewName) (Some def)) then
        Some {| a_views := <[viewName := def]> (a_views a);
                a_modified := true;
                customViewNames := customViewNames a;
                indexViewNames := indexViewNames a |}
      else Some a
  | None => None
  end.

(** A loop whose body may throw. *)
Fixpoint foldM {A B : Type} (f : B -> A -> option B) (l : list A) (b : B)
    : option B :=
  match l with
  | [] => Some b
  | x :: l' =>
      match f b x with
      | Some b' => foldM f l' b'
      | None => None
      end
  end.

(** The calls of [maybeUpdateIndex], in order: one for each key of each
    index, then one for each custom view. *)
Definition updateCalls (idx : list (list string))
    (customViews : option (list (string * viewSpec)))
    : list (string * option viewSpec) :=
  List.map (fun name => (name, None)) (concat idx)
  ++ List.map (fun kv => (fst kv, Some (snd kv)))
       (match customViews with Some cv => cv | None => [] end).

(** The name of the view a call of [maybeUpdateIndex] is about. *)
Definition viewNameOf (call : string * option viewSpec) : string :=
  match snd call with
  | Some _ => fst call
  | None => "by" +:+ capitalize (fst call)
  end.

(** The names a list of calls adds to [customViewNames] and to
    [indexViewNames]. *)
Definition customNamesOf (calls : list (string * option viewSpec))
    : list string :=
  flat_map (fun c => match snd c with Some _ => [viewNameOf c] | None => [] end)
           calls.

Definition indexNamesOf (calls : list (string * option viewSpec))
    : list string :=
  flat_map (fun c => match snd c with Some _ => [] | None => [viewNameOf c] end)
           calls.

(** The block that brings [design.updates] (or [design.lists]) in line with
    the schema: the flag [modified] and the functions kept in the design
    document. *)
Definition syncFunctions (modified : bool)
    (stored custom : option (gmap string string))
    : bool * option (gmap string string) :=
  if negb (hasEquivalentFunctions stored custom)
  then (true, custom)
  else (modified, stored).

(** [customLists] after the block that rewrites the list functions of a
    discriminated schema; [None] when reading the mapping throws. *)
Definition rewrittenLists (earlyOut : string) (s : schema)
    : option (option (gmap string string)) :=
  match lists s with
  | Some cl =>
      if negb (Nat.eqb (String.length earlyOut) 0) then
        match discriminatorMapping s with
        | Some dm =>
            Some (Some (rewriteList (listDiscriminatorHandler dm) <$> cl))
        | None => None
        end
      else Some (Some cl)
  | None => Some None
  end.

(** The views of the design document once every call of [maybeUpdateIndex]
    is made and the views nobody asked for are deleted; [None] when a call
    throws. *)
Definition syncViews (earlyOut : string) (tr : gmap string (option string))
    (calls : list (string * option viewSpec))
    (views0 : gmap string (gmap string string)) (modified : bool)
    : option (bool * option (gmap string (gmap string string))) :=
  match foldM (maybeUpdateIndex earlyOut tr) calls
          {| a_views := views0; a_modified := modified;
             customViewNames := []; indexViewNames := [] |} with
  | None => None
  | Some a =>
      let names := customViewNames a ++ indexViewNames a in
      if Nat.eqb (length (customViewNames a)) 0
         && Nat.eqb (length (indexViewNames a)) 0
      then Some (true, None)
      else
        let kept := filter (fun kv => fst kv ∈ names) (a_views a) in
        Some (a_modified a || negb (bool_decide (kept = a_views a)),
              Some kept)
  end.

(** What the callback of [findById] computes: the schema (its list
    functions are rewritten in place) and, unless the callback throws,
    whether the design document was modified and the design document. *)
Definition reconcile (earlyOut : string) (idx : list (list string))
    (s : schema) (found : option design) : schema * option (bool * design) :=
  (* design = design || {}; if (!design.views) design.views = {} *)
  let design :=
    match found with
    | Some d => d
    | None => {| d_views := None; d_updates := None; d_lists := None |}
    end in
  let views0 : gmap string (gmap string string) :=
    match d_views design with Some v => v | None => ∅ end in
  let modified := false in
  let '(modified, design_updates) :=
    syncFunctions modified (d_updates design) (updates s) in
  match rewrittenLists earlyOut s with
  | None => (s, None)
  | Some customLists =>
      let s := set_lists customLists s in
      let '(modified, design_lists) :=
        syncFunctions modified (d_lists design) customLists in
      match syncViews earlyOut (tree s) (updateCalls idx (views s))
              views0 modified with
      | None => (s, None)
      | Some (modified, design_views) =>
          (s, Some (modified,
                    {| d_views := design_views; d_updates := design_updates;
                       d_lists := design_lists |}))
      end
  end.

Section WithUtils.

(** [utils.toCollectionName] lives in lib/utils.js, which is not among
    the sources; it is applied to [discriminatorMapping.value], a model
    name or [null]. *)
Variable toCollectionName : option string -> string.

(** The loop over [customViews] that picks the explicit default view. *)
Fixpoint explicitDefault (name : string) (dm : option mapping)
    (customViews : list (string * viewSpec)) (defaultView : option string)
    : exn + option string :=
  match customViews with
  | [] => inr defaultView
  | (k, v) :: rest =>
      if asDefaultIndex v then
        if truthy defaultView then
          inl (Error (name +:+ ": More than one custom index defined as default."))
        else
          explicitDefault name dm rest
            (Some (match dm with
                   | Some d => toCollectionName (value d) +:+ "/" +:+ k
                   | None => "$root/" +:+ k
                   end))
      else explicitDefault name dm rest defaultView
  end.

(** The loop over the keys of [indexes[0][0]]. *)
Definition impliedDefault (designDoc : string) (fields : list string)
    (defaultView : option string) : option string :=
  fold_left
    (fun _ fieldName => Some (designDoc +:+ "/by" +:+ capitalize fieldName))
    fields defaultView.

(** How the part of [ensureIndexes] that runs at the call ends. *)
Inductive started :=
| Threw (e : exn) (m : model)
| Returned (m : model)
| Reading (designDoc earlyOut : string) (idx : list (list string))
          (m : model).

(** The first part of [ensureIndexes]: the local variables [designDoc],
    [discriminatorEarlyOut], [indexes] and [defaultView] as they stand before
    the test for an early return, or the exception thrown on the way. *)
Definition ensureIndexes_locals (name : string) (s : schema)
    : exn + (string * string * list (list string) * option string) :=
  let idx := indexes s in
  let explicit :=
    match views s with
    | Some cv => explicitDefault name (discriminatorMapping s) cv None
    | None => inr None
    end in
  match explicit with
  | inl e => inl e
  | inr defaultView =>
      match discriminatorMapping s with
      | Some dm =>
          if negb (isRoot dm) then
            let designDoc := toCollectionName (value dm) in
            let earlyOut := earlyOut_of dm in
            if (Nat.eqb (length idx) 0 && negb (truthy defaultView))
               || forcePlainDiscriminatorIndex s
            then inr (designDoc, earlyOut, idx ++ [["_id"]],
                      Some (designDoc +:+ "/by_id"))
            else
              match idx with
              | [] => inl TypeError
              | fields :: _ =>
                  inr (designDoc, earlyOut, idx,
                       impliedDefault designDoc fields defaultView)
              end
          else inr ("$root", "", idx, defaultView)
      | None => inr ("$root", "", idx, defaultView)
      end
  end.

(** [!indexes.length && !customViews && !customUpdates && !customLists] *)
Definition nothingToDo (idx : list (list string)) (s : schema) : bool :=
  Nat.eqb (length idx) 0
  && negb (bool_decide (is_Some (views s)))
  && negb (bool_decide (is_Some (updates s)))
  && negb (bool_decide (is_Some (lists s))).

(** [Model.ensureIndexes], up to the call of [collection.findById]. *)
Definition ensureIndexes (cb : bool) (m : model) : started :=
  let s := schema_of m in
  match ensureIndexes_locals (modelName m) s with
  | inl e => Threw e m
  | inr (designDoc, earlyOut, idx, defaultView) =>
      if nothingToDo idx s
      then Returned (if cb then log NextTickCallback m else m)
      else
        let c := collection m in
        let m := set_collection
                   (Collection.set_ensuringIndexes
                      (Collection.ensuringIndexes c + 1) c) m in
        let m := set_defaultView defaultView m in
        Reading designDoc earlyOut idx
                (log (FindById ("_design/" +:+ designDoc)) m)
  end.

(** [done(err)] *)
Definition done (cb : bool) (err : option string) (m : model) : model :=
  let m := log (EmitIndex err) m in
  let c := collection m in
  let n := (Collection.ensuringIndexes c - 1)%Z in
  let c := Collection.set_ensuringIndexes n c in
  let c := if (n =? 0)%Z then Collection.doQueue c else c in
  let m := set_collection c m in
  if cb then log (Callback err) m else m.

(** How the callback of [findById] ends. *)
Inductive answered :=
| Crashed (m : model)
| Writing (id : string) (d : design) (m : model)
| Unmodified (m : model).

(** The callback [ensureIndexes] hands to [collection.findById]; [found]
    is the design document the store returns, if any. *)
Definition withDesign (designDoc earlyOut : string) (idx : list (list string))
    (found : option design) (m : model) : answered :=
  match reconcile earlyOut idx (schema_of m) found with
  | (s, None) => Crashed (set_schema s m)
  | (s, Some (modified, d)) =>
      let m := set_schema s m in
      if modified then
        let id := "_design/" +:+ designDoc in
        Writing id d (log (InsertDesign id d) m)
      else Unmodified m
  end.

(** A whole run against a store that answers every call and keeps what
    is written: design documents by id, handed out by value (the flat-file
    driver parses the file it wrote, CouchDB answers with the JSON it
    stored). *)
Inductive ran :=
| Failed (e : exn) (m : model) (store : gmap string design)
| Completed (m : model) (store : gmap string design).

Definition run (cb : bool) (m : model) (store : gmap string design) : ran :=
  match ensureIndexes cb m with
  | Threw e m => Failed e m store
  | Returned m => Completed m store
  | Reading designDoc earlyOut idx m =>
      match withDesign designDoc earlyOut idx
              (store !! ("_design/" +:+ designDoc)) m with
      | Crashed m => Failed TypeError m store
      | Writing id d m => Completed (done cb None m) (<[id := d]> store)
      | Unmodified m => Completed (done cb None m) store
      end
  end.

(** Two runs in succession. *)
Definition run_twice (cb : bool) (m : model) (store : gmap string design)
    : ran :=
  match run cb m store with
  | Completed m1 store1 => run cb m1 store1
  | failed => failed
  end.

End WithUtils.

Definition model_of (r : ran) : model :=
  match r with Failed _ m _ => m | Completed m _ => m end.

(** A model as [Model.compile] leaves it, on a collection that is open. *)
Definition compile (name : string) (s : schema) : model :=
  {| modelName := name; schema_of := s; defaultView := None;
     collection := Collection.set_buffer false (Collection.create true);
     trace := [] |}.

End Indexes.

(* ===================================================================== *)
(** ** lib/model.js: Model.discriminator *)
(* ===================================================================== *)

Module Discriminator.

(** The value of a schema option.  Objects and functions are compared as
    wholes. *)
Inductive value :=
| VNull
| VBool (b : bool)
| VNum (n : Z)
| VStr (s : string)
| VObj (repr : string).

#[global] Instance value_eq_dec : EqDecision value.
Proof. solve_decision. Defined.

Definition truthy (v : option value) : bool :=
  match v with
  | None => false
  | Some VNull => false
  | Some (VBool b) => b
  | Some (VNum n) => negb (n =? 0)%Z
  | Some (VStr s) => negb (String.eqb s "")
  | Some (VObj _) => true
  end.

(** What [discriminator] reads and writes of a Schema: the declared paths
    with their descriptors, the options, the discriminator mapping, the
    queue of hooks and the cache of [requiredPaths()]. *)
Record schema := MkSchema {
  paths : gmap string string;
  options : gmap string value;
  discriminatorMapping : option Indexes.mapping;
  callQueue : list string;
  requiredpaths : option (list string)
}.

(** [this.db.model(name, schema, this.collection.name)] *)
Record derived := MkDerived {
  derivedName : string;
  derivedSchema : schema;
  derivedCollection : string
}.

Record model := MkModel {
  modelName : string;
  schema_of : schema;
  collectionName : string;
  discriminators : option (gmap string derived)
}.

Definition set_options (o : gmap string value) (s : schema) : schema :=
  {| paths := paths s; options := o;
     discriminatorMapping := discriminatorMapping s;
     callQueue := callQueue s; requiredpaths := requiredpaths s |}.

Definition ignored : list string := ["collection"; "autoIndex"; "disableCache"].

Definition customizable : list string :=
  ["toJSON"; "toObject"; "views"; "updates"; "lists";
   "forcePlainDiscriminatorIndex"].

(** Modelled from the spec: [utils.merge(to, from, keepExisting)] lives in
    lib/utils.js, which is not among the sources.  It adds to [to] what
    [from] has and [to] lacks; what [to] has is kept. *)
Definition merge {V : Type} (to from : gmap string V) : gmap string V :=
  to ∪ from.

(** Modelled from the spec: [utils.deepEqual(a, b)] lives in lib/utils.js,
    which is not among the sources.  Two option objects are equal when
    they are option-for-option equal. *)
Definition deepEqual (a b : gmap string value) : bool := bool_decide (a = b).

(** The first loop of [mergeSchemas]: options the derived schema takes
    from the base whatever it says itself. *)
Definition copyIgnored (child base : gmap string value) : gmap string value :=
  fold_left
    (fun o opt =>
       match base !! opt with
       | Some v => <[opt := v]> o
       | None => o
       end)
    ignored child.

(** The loop of [validateOptions] over the customizable options. *)
Definition alignCustomizable (a b : gmap string value) : gmap string value :=
  fold_left
    (fun a opt =>
       if truthy (b !! opt)
       then match b !! opt with Some v => <[opt := v]> a | None => a end
       else delete opt a)
    customizable a.

(** [validateOptions(a, b)]: [true] when it returns, [false] when it
    throws. *)
Definition validateOptions (a b : gmap string value) : bool :=
  let a := merge a b in
  let a := alignCustomizable a b in
  deepEqual a b.

(** Put back an option of the derived schema after the merge. *)
Definition restore (opt : string) (v : option value)
    (o : gmap string value) : gmap string value :=
  if truthy v
  then match v with Some x => <[opt := x]> o | None => o end
  else delete opt o.

Definition dq : string := String (ascii_of_nat 34) EmptyString.

(** The name of the discriminator key; the option is a text when set. *)
Definition keyOf (o : gmap string value) : string :=
  match o !! "discriminatorKey" with
  | Some (VStr k) => k
  | _ => "undefined"
  end.

(** The descriptor [{ type: String, default: name }]. *)
Definition keyField (name : string) : string :=
  "{ type: String, default: " +:+ name +:+ " }".

(** [mergeSchemas(schema, baseSchema)] after its options are validated. *)
Definition mergeValidated (name key : string) (child base : schema) : schema :=
  let o := options child in
  let views := o !! "views" in
  let updates := o !! "updates" in
  let lists := o !! "lists" in
  let force := o !! "forcePlainDiscriminatorIndex" in
  let o := delete "forcePlainDiscriminatorIndex"
             (delete "lists" (delete "updates" (delete "views" o))) in
  (* utils.merge(schema, baseSchema, true) *)
  let o := merge o (options base) in
  let p := merge (paths child) (paths base) in
  let o := restore "views" views o in
  let o := restore "updates" updates o in
  let o := restore "lists" lists o in
  let o := restore "forcePlainDiscriminatorIndex" force o in
  {| paths := <[key := keyField name]> p;
     options := o;
     discriminatorMapping :=
       Some {| Indexes.key := key; Indexes.value := Some name;
               Indexes.isRoot := false |};
     callQueue := callQueue base ++ callQueue child;
     requiredpaths := None |}.

Inductive result :=
| Threw (msg : string) (this : model) (arg : option schema)
| Registered (this : model) (d : derived).

(** [Model.discriminator(name, schema)]; [arg] is [None] when the argument
    is not a Schema.  A throw carries the model and the argument as they
    are when it happens. *)
Definition discriminator (name : string) (arg : option schema) (this : model)
    : result :=
  match arg with
  | None => Threw "You must pass a valid discriminator Schema" this None
  | Some child =>
      let base := schema_of this in
      if match discriminatorMapping base with
         | Some dm => negb (Indexes.isRoot dm)
         | None => false
         end
      then Threw ("Discriminator " +:+ dq +:+ name +:+ dq
                  +:+ " can only be a discriminator of the root model")
                 this arg
      else
        let key := keyOf (options base) in
        if bool_decide (is_Some (paths child !! key))
        then Threw ("Discriminator " +:+ dq +:+ name +:+ dq
                    +:+ " cannot have field with name " +:+ dq +:+ key +:+ dq)
                   this arg
        else
          let child := set_options (copyIgnored (options child) (options base))
                         child in
          if negb (validateOptions (options child) (options base))
          then Threw "Only toJSON, toObject, views, updates, lists and forcePlainDiscriminatorIndex are customizable on discriminator schemas"
                     this (Some child)
          else
            let merged := mergeValidated name key child base in
            let registry :=
              match discriminators this with
              | Some r => r
              | None => ∅
              end in
            let base :=
              match discriminatorMapping base with
              | Some _ => base
              | None =>
                  {| paths := paths base; options := options base;
                     discriminatorMapping :=
                       Some {| Indexes.key := key; Indexes.value := None;
                               Indexes.isRoot := true |};
                     callQueue := callQueue base;
                     requiredpaths := requiredpaths base |}
              end in
            let this :=
              {| modelName := modelName this; schema_of := base;
                 collectionName := collectionName this;
                 discriminators := Some registry |} in
            match registry !! name with
            | Some _ =>
                Threw ("Discriminator with name " +:+ dq +:+ name +:+ dq
                       +:+ " already exists")
                      this (Some merged)
            | None =>
                let d := {| derivedName := name; derivedSchema := merged;
                            derivedCollection := collectionName this |} in
                Registered
                  {| modelName := modelName this; schema_of := base;
                     collectionName := collectionName this;
                     discriminators := Some (<[name := d]> registry) |}
                  d
            end
  end.

(** The derived models registered on a model. *)
Definition registry (m : model) : gmap string derived :=
  match discriminators m with Some r => r | None => ∅ end.

(** The schema is that of a derived model. *)
Definition nonRoot (s : schema) : bool :=
  match discriminatorMapping s with
  | Some dm => negb (Indexes.isRoot dm)
  | None => false
  end.

(** The options of the derived schema differ from those of the root in
    something outside the customizable subset. *)
Definition differsOutsideCustomizable (child base : gmap string value) : Prop :=
  exists k, (k ∉ customizable) /\ (child !! k <> base !! k).

(** The derived schema sets an option outside the customizable subset to a
    value that is not the root's, and the option is not one of [collection],
    [autoIndex], [disableCache] set on the root. *)
Definition setsOtherOption (child base : gmap string value) : Prop :=
  exists k v,
    (k ∉ customizable) /\
    (child !! k = Some v) /\
    (base !! k <> Some v) /\
    (k ∈ ignored -> base !! k = None).

End Discriminator.

(* ===================================================================== *)
(** ** Models and schemas for discriminator registration *)
(* ===================================================================== *)

Module Registration.

Import Discriminator.

Definition defaults : gmap string value :=
  {[ "discriminatorKey" := VStr "$kind"; "strict" := VBool true;
     "autoIndex" := VBool true ]}.

(** The model of [NamedEntitySchema], with [autoIndex] switched off. *)
Definition namedEntity : model :=
  {| modelName := "NamedEntity";
     schema_of :=
       {| paths := {[ "name" := "String"; "displayName" := "String" ]};
          options := <["autoIndex" := VBool false]>
                       (<["views" := VObj "{names, displayNames}"]> defaults);
          discriminatorMapping := None;
          callQueue := ["pre save"];
          requiredpaths := None |};
     collectionName := "namedentities";
     discriminators := None |}.

(** [UserSchema]: created with the default options, so [autoIndex] is on. *)
Definition user : schema :=
  {| paths := {[ "name" := "String"; "displayName" := "String";
                 "age" := "Number" ]};
     options := defaults;
     discriminatorMapping := None;
     callQueue := [];
     requiredpaths := None |}.

(** The model of a root schema that also sets [safe], an option that
    [save] reads. *)
Definition safeEntity : model :=
  {| modelName := "NamedEntity";
     schema_of :=
       {| paths := {[ "name" := "String"; "displayName" := "String" ]};
          options := <["safe" := VBool true]>
                       (<["autoIndex" := VBool false]> defaults);
          discriminatorMapping := None;
          callQueue := ["pre save"];
          requiredpaths := None |};
     collectionName := "namedentities";
     discriminators := None |}.

(** A derived schema with [autoIndex] off, as the roots here have it, and
    without [safe]. *)
Definition plainUser : schema :=
  {| paths := {[ "name" := "String"; "age" := "Number" ]};
     options := <["autoIndex" := VBool false]> defaults;
     discriminatorMapping := None;
     callQueue := [];
     requiredpaths := None |}.

(** A derived schema that switches [strict] off. *)
Definition lenient : schema :=
  {| paths := {[ "name" := "String" ]};
     options := <["strict" := VBool false]> defaults;
     discriminatorMapping := None;
     callQueue := [];
     requiredpaths := None |}.

End Registration.

(* ===================================================================== *)
(** ** Schemas of example-discriminator.js and variations *)
(* ===================================================================== *)

Module Fixtures.

Import Indexes.

Definition kindOf (name : string) : mapping :=
  {| key := "$kind"; value := Some name; isRoot := false |}.

Definition rootMapping : mapping :=
  {| key := "$kind"; value := None; isRoot := true |}.

Definition namesMap : string :=
  "function (doc) { if ('name' in doc) emit(doc.name.toLowerCase(), doc); }".

Definition displayNamesMap : string :=
  "function (doc) { emit(doc.displayName.toLowerCase(), doc); }".

Definition fields : gmap string (option string) :=
  {[ "_id" := None; "name" := None; "displayName" := None; "$kind" := None ]}.

(** [NamedEntitySchema]: no indexed field, two custom views, [names] as the
    default index. *)
Definition namedEntity : schema :=
  {| indexes := [];
     tree := fields;
     views := Some [("names", MkView (Some namesMap) None true);
                    ("displayNames", MkView (Some displayNamesMap) None false)];
     updates := None;
     lists := None;
     forcePlainDiscriminatorIndex := false;
     discriminatorMapping := None |}.

(** [NamedEntitySchema] once a discriminator has been registered on its
    model. *)
Definition namedEntityRegistered : schema :=
  {| indexes := [];
     tree := fields;
     views := views namedEntity;
     updates := None;
     lists := None;
     forcePlainDiscriminatorIndex := false;
     discriminatorMapping := Some rootMapping |}.

(** [NamedEntitySchema] with both custom views marked as the default. *)
Definition twoDefaults : schema :=
  {| indexes := [];
     tree := fields;
     views := Some [("names", MkView (Some namesMap) None true);
                    ("displayNames", MkView (Some displayNamesMap) None true)];
     updates := None;
     lists := None;
     forcePlainDiscriminatorIndex := false;
     discriminatorMapping := None |}.

(** [UserSchema] as merged by [discriminator]: [name] is indexed; with a
    custom view marked as the default. *)
Definition userWithDefault : schema :=
  {| indexes := [["name"]];
     tree := fields;
     views := Some [("names", MkView (Some namesMap) None true)];
     updates := None;
     lists := None;
     forcePlainDiscriminatorIndex := false;
     discriminatorMapping := Some (kindOf "User") |}.

(** A derived schema with a default custom view and no indexed field. *)
Definition userDefaultOnly : schema :=
  {| indexes := [];
     tree := fields;
     views := Some [("names", MkView (Some namesMap) None true)];
     updates := None;
     lists := None;
     forcePlainDiscriminatorIndex := false;
     discriminatorMapping := Some (kindOf "User") |}.

Definition allNames : string :=
  "function (head, req) { var row; while ((row = getRow())) send(row.value.name); }".

(** [UserSchema] with a custom list function. *)
Definition userWithLists : schema :=
  {| indexes := [["name"]];
     tree := fields;
     views := None;
     updates := None;
     lists := Some {[ "allNames" := allNames ]};
     forcePlainDiscriminatorIndex := false;
     discriminatorMapping := Some (kindOf "User") |}.

(** A root schema with an update handler and neither index nor view. *)
Definition updatesOnly : schema :=
  {| indexes := [];
     tree := fields;
     views := None;
     updates := Some {[ "touch" := "function (doc, req) { doc.touched = true; return [doc, 'ok']; }" ]};
     lists := None;
     forcePlainDiscriminatorIndex := false;
     discriminatorMapping := None |}.

Definition arrowMap : string := "doc => emit(doc.displayName, doc)".

(** [GroupSchema] with its custom view written as an arrow function. *)
Definition groupArrow : schema :=
  {| indexes := [["name"]];
     tree := fields;
     views := Some [("displayNames", MkView (Some arrowMap) None false)];
     updates := None;
     lists := None;
     forcePlainDiscriminatorIndex := true;
     discriminatorMapping := Some (kindOf "Group") |}.

(** [GroupSchema] as in the example. *)
Definition group : schema :=
  {| indexes := [["name"]];
     tree := fields;
     views := Some [("displayNames", MkView (Some displayNamesMap) None false)];
     updates := None;
     lists := None;
     forcePlainDiscriminatorIndex := true;
     discriminatorMapping := Some (kindOf "Group") |}.

(** The list function of [userWithLists] after one rewrite and after two. *)
Definition allNamesOnce : string :=
  rewriteList (listDiscriminatorHandler (kindOf "User")) allNames.

Definition allNamesTwice : string :=
  rewriteList (listDiscriminatorHandler (kindOf "User")) allNamesOnce.

End Fixtures.

(* ===================================================================== *)
(** ** More of lib/collection.js: what a call meets at the gates *)
(* ===================================================================== *)

Module Gates.

Import Collection.

(** The test of [maybeQueueCall]: the call is deferred. *)
Definition deferred (c : t) (e : entry) : bool :=
  buffer c || (waitForIndexes e && indexing c).

(** The calls of [ensureDb] in a trace. *)
Fixpoint bootstraps (xs : list effect) : nat :=
  match xs with
  | [] => 0
  | EnsureDb :: xs' => S (bootstraps xs')
  | _ :: xs' => bootstraps xs'
  end.

(** The functions called at once by [callOrDeferUntilOpen]. *)
Fixpoint called (xs : list effect) : list string :=
  match xs with
  | [] => []
  | Called f :: xs' => f :: called xs'
  | _ :: xs' => called xs'
  end.

End Gates.

(* ===================================================================== *)
(** ** The methods of the drivers at the queue *)
(* ===================================================================== *)

Module Driver.

Import Collection.

(** A collection with the methods of its driver.  Every method that
    lib/drivers/couchdb-cradle/collection.js and
    lib/drivers/flat-file/collection.js define for a store operation
    ([insert], [remove], [findById], [all], [findWithView], ...) is written

      if (this.maybeQueueCall(name, flag, arguments)) return;
      ... the call of the store ...

    with its own name and a fixed flag.  An entry of the queue that such a
    method made is [[this[name], flag, arguments]]: applying it calls the
    method again with the same arguments, and the method meets the gates
    again.  [executed] lists the calls whose method went past
    [maybeQueueCall], to the store, in that order. *)
Record t := Mk {
  collection : Collection.t;
  executed : list entry
}.

(** A call of a driver method, named by the entry it would queue. *)
Definition call (e : entry) (d : t) : t :=
  let '(deferred, c) :=
    maybeQueueCall (fn e) (waitForIndexes e) (args e) (collection d) in
  {| collection := c;
     executed := if deferred then executed d else executed d ++ [e] |}.


(** One turn of the loop of [doQueue], with the method that
    [e[0].apply(this, e[2])] calls. *)
Definition doQueue_step (idx : bool) (d : t) (e : entry) : t :=
  if waitForIndexes e && idx
  then {| collection := push e (collection d); executed := executed d |}
  else call e {| collection := emit (Applied e) (collection d);
                 executed := executed d |}.

(** [Collection.prototype.doQueue] on a queue of driver calls. *)
Definition doQueue (d : t) : t :=
  let c := collection d in
  fold_left (doQueue_step (indexing c)) (queue c)
    {| collection := set_queue [] c; executed := executed d |}.

(** [Collection.prototype.onOpen] on a queue of driver calls. *)
Definition onOpen (d : t) : t :=
  doQueue {| collection := set_ensuringDb false (set_buffer false (collection d));
             executed := executed d |}.

End Driver.

(* ===================================================================== *)
(** ** Properties every JavaScript object inherits *)
(* ===================================================================== *)

Module JsObject.

(** The names that [Object.prototype] defines: [o[name]] and [name in o]
    find them on every plain object, whether or not [o] has a property of
    that name itself. *)
Definition inherited : list string :=
  ["constructor"; "__defineGetter__"; "__defineSetter__"; "hasOwnProperty";
   "__lookupGetter__"; "__lookupSetter__"; "isPrototypeOf";
   "propertyIsEnumerable"; "toString"; "valueOf"; "__proto__";
   "toLocaleString"].

(** The text holds ASCII characters only: there [toUpperCase] and
    [toLowerCase] change the letters [a-z] and [A-Z] and nothing else. *)
Fixpoint ascii_only (s : string) : bool :=
  match s with
  | EmptyString => true
  | String c s' => (nat_of_ascii c <? 128)%nat && ascii_only s'
  end.



End JsObject.

(* ===================================================================== *)
(** ** lib/model.js: Model.find and the rows of the store *)
(* ===================================================================== *)

Module Find.

(** A field of a stored document, as [JSON.parse] yields it.  Numbers are
    integers here.  An object or an array is kept as its text: it is a new
    object at every parse. *)
Inductive field :=
| FNull
| FBool (b : bool)
| FNum (n : Z)
| FStr (s : string)
| FNested (text : string).

#[global] Instance field_eq_dec : EqDecision field.
Proof. solve_decision. Defined.

Definition document : Type := gmap string field.

(** A row of what the store answers to [all]: [{id, key, value: {rev}}],
    with [doc] under [include_docs].  [value] is [None] when the row has
    no [value] (the flat-file driver with [include_docs]); the revision is
    [null] in the rows of the flat-file driver. *)
Record row := MkRow {
  id : string;
  key : option string;
  value : option (option string);
  doc : option document
}.

(** What the array holds while it is rewritten in place. *)
Inductive item :=
| Row (r : row)
| Ref (_id : string) (_rev : option string) (doc : option document)
                       (* a row after [response_to_input_refs] *)
| Doc (d : option document).   (* [a[i].doc] *)

(** [id[0] === '_'] *)
Definition isInternal (id : string) : bool :=
  match id with
  | String c _ => Ascii.eqb c "_"
  | EmptyString => false
  end.

(** The loop of [response_to_input_refs], [n] iterations from [i], and the
    final [a.length = j].  The object at [a[i]] is rewritten in place and
    then also stored at [a[j]].  [None]: a TypeError ([o.value] is
    undefined, or [a[i]] is not a row and has no [id]). *)
Fixpoint refs_loop (n i j : nat) (a : list item) : option (list item) :=
  match n with
  | 0 => Some (take j a)
  | S n' =>
      match a !! i with
      | Some (Row r) =>
          if isInternal (id r) then refs_loop n' (S i) j a
          else
            match value r with
            | Some rev =>
                let o := Ref (id r) rev (doc r) in
                refs_loop n' (S i) (S j) (<[j := o]> (<[i := o]> a))
            | None => None
            end
      | _ => None
      end
  end.

Definition response_to_input_refs (a : list item) : option (list item) :=
  refs_loop (length a) 0 0 a.

(** The loop of [response_to_input_full]. *)
Fixpoint full_loop (n i j : nat) (a : list item) : option (list item) :=
  match n with
  | 0 => Some (take j a)
  | S n' =>
      match a !! i with
      | Some (Row r) =>
          if isInternal (id r) then full_loop n' (S i) j a
          else full_loop n' (S i) (S j) (<[j := Doc (doc r)]> a)
      | _ => None
      end
  end.

Definition response_to_input_full (a : list item) : option (list item) :=
  full_loop (length a) 0 0 a.

(** An argument of [find]: [undefined], a function, or a plain object
    with its enumerable properties. *)
Inductive arg :=
| Undefined
| Function (f : nat)
| Object (props : list (string * string)).

(** [is_empty(o)]: a function has no enumerable property. *)
Definition is_empty (o : arg) : bool :=
  match o with
  | Object (_ :: _) => false
  | _ => true
  end.

Definition defined (a : arg) : bool :=
  match a with Undefined => false | _ => true end.

(** The [options] handed to the store. *)
Inductive sent :=
| SUndefined
| SOwn (a : arg) (include_docs : bool)   (* the value the caller passed *)
| SBody (a : arg) (include_docs : bool)  (* [{body: options}] *)
| SFresh (include_docs : bool).          (* the [{}] made by [find] *)

(** [options.include_docs = true] *)
Definition include_docs (s : sent) : sent :=
  match s with
  | SUndefined => SFresh true
  | SOwn a _ => SOwn a true
  | SBody a _ => SBody a true
  | SFresh _ => SFresh true
  end.

Inductive transform :=
| Identity
| Full
| Refs.

(** The call [find] makes: [findWithView(defaultView, options, ..)] when
    [view] is set, [all(options, ..)] otherwise; what it does to the
    answer; whether it returns the promise or the wrapper. *)
Record query := MkQuery {
  view : option string;
  options : sent;
  post : transform;
  returnsPromise : bool
}.

(** The [switch] on [arguments.length]: [options] and [callback];
    [None] when it throws. *)
Definition normalise (args : list arg) : option (arg * arg) :=
  match args with
  | [] => Some (Undefined, Undefined)
  | [o] =>
      match o with
      | Function _ => Some (Undefined, o)
      | _ => Some (o, Undefined)
      end
  | [o; manipulator] => Some (o, manipulator)
  | [o; _; callback] => Some (o, callback)
  | _ => None
  end.

(** [Model.find], up to the call of the store. *)
Definition find (defaultView : option string) (args : list arg)
    : option query :=
  match normalise args with
  | None => None
  | Some (o, callback) =>
      let options :=
        match o with
        | Undefined => SUndefined
        | _ => if is_empty o then SOwn o false else SBody o false
        end in
      let viaView := Indexes.truthy defaultView in
      let options := if defined callback then include_docs options
                     else options in
      let post :=
        if defined callback
        then (if viaView then Identity else Full)
        else (if viaView then Identity else Refs) in
      Some {| view := if viaView then defaultView else None;
              options := options;
              post := post;
              returnsPromise := defined callback |}
  end.

Definition apply (t : transform) (objs : list item) : option (list item) :=
  match t with
  | Identity => Some objs
  | Full => response_to_input_full objs
  | Refs => response_to_input_refs objs
  end.

(** What the callback [find] hands to the store does with the answer. *)
Inductive resolution :=
| Reject (err : string)        (* search.reject(err) *)
| Fulfill (objs : list item)   (* search.fulfill(objs) *)
| Throws.                      (* the transformation throws *)

Definition answered (q : query) (answer : string + list item) : resolution :=
  match answer with
  | inl err => Reject err
  | inr objs =>
      match apply (post q) objs with
      | Some objs' => Fulfill objs'
      | None => Throws
      end
  end.

(** The rows a caller is meant to see: not those of internal documents. *)
Definition visible (rs : list row) : list row :=
  List.filter (fun r => negb (isInternal (id r))) rs.

(** Every row a caller is meant to see has a [value]. *)
Definition rewritable (rs : list row) : bool :=
  forallb (fun r => bool_decide (is_Some (value r))) (visible rs).

(** [{_id: id, _rev: value.rev}], beside what else the row holds. *)
Definition refOf (r : row) : item :=
  Ref (id r) (default None (value r)) (doc r).

End Find.

(* ===================================================================== *)
(** ** lib/drivers/flat-file/collection.js *)
(* ===================================================================== *)

Module FlatFile.

Import JsString.

(** An entry of the directory of the collection.  [content] is what
    [JSON.parse(fs.readFileSync(..))] gives for it: the exception it
    throws, or the object the file holds ([insert] writes objects). *)
Record entry := MkEntry {
  name : string;
  isFile : bool;
  content : string + Find.document
}.

(** [files.map(file => ({id: file.name, doc: JSON.parse(..)}))]: the
    first file that cannot be read or parsed ends it. *)
Fixpoint readAll (files : list entry) : string + list Find.row :=
  match files with
  | [] => inr []
  | f :: fs =>
      match content f with
      | inl e => inl e
      | inr d =>
          match readAll fs with
          | inl e => inl e
          | inr rs =>
              inr ({| Find.id := name f; Find.key := None;
                      Find.value := None; Find.doc := Some d |} :: rs)
          end
      end
  end.

(** [{id: file.name, value: {rev: null}}] *)
Definition refRow (f : entry) : Find.row :=
  {| Find.id := name f; Find.key := None; Find.value := Some None;
     Find.doc := None |}.

(** [all(options, callback)] once it is applied: the calls of [callback],
    given what [readdir] answers.  When [readdir] fails the promise is
    rejected and nothing handles it.  The callback itself is taken not to
    throw. *)
Definition all (include_docs : bool) (dir : string + list entry)
    : list (string + list Find.row) :=
  match dir with
  | inl _ => []
  | inr entries =>
      let files := List.filter isFile entries in
      if include_docs then [readAll files]
      else [inr (List.map refRow files)]
  end.

(** [c.toLowerCase()] on the ASCII range. *)
Definition toLowerCase_ascii (c : ascii) : ascii :=
  let n := nat_of_ascii c in
  if (65 <=? n)%nat && (n <=? 90)%nat then ascii_of_nat (n + 32) else c.

(** [s.toLowerCase()] of an ASCII text ([JsObject.ascii_only]). *)
Fixpoint toLowerCase (s : string) : string :=
  match s with
  | EmptyString => EmptyString
  | String c s' => String (toLowerCase_ascii c) (toLowerCase s')
  end.

(** [s.substr(n)] *)
Fixpoint substr (n : nat) (s : string) : string :=
  match n, s with
  | 0, _ => s
  | S n', String _ s' => substr n' s'
  | S _, EmptyString => EmptyString
  end.

(** [view.substr(8).toLowerCase()] *)
Definition fieldOf (view : string) : string := toLowerCase (substr 8 view).

Definition supported (view : string) : bool :=
  match strip_prefix "$root/by" view with Some _ => true | None => false end.

Definition dq : string := String (ascii_of_nat 34) EmptyString.

Definition unsupported : string :=
  "Only $root/byField views are supported to search via the key " +:+ dq
    +:+ "field" +:+ dq +:+ " having value opts.key".

(** [a === b] for a field of a parsed document and the key of the caller:
    [None] is [undefined]; an object is never the caller's. *)
Definition strictEq (a b : option Find.field) : bool :=
  match a, b with
  | None, None => true
  | Some (Find.FNested _), _ => false
  | Some x, Some y => bool_decide (x = y)
  | _, _ => false
  end.

(** [doc[field]]: the field of the document itself, else what every
    object inherits under that name (a function, or the prototype for
    [__proto__]: an object that is not the caller's key), else
    undefined. *)
Definition get (d : Find.document) (field : string) : option Find.field :=
  match d !! field with
  | Some v => Some v
  | None =>
      if bool_decide (field ∈ JsObject.inherited)
      then Some (Find.FNested "[inherited]")
      else None
  end.

(** [e.doc[field] === opts.key]; the rows of [all] with [include_docs]
    all carry a document. *)
Definition matches (field : string) (key : option Find.field)
    (r : Find.row) : bool :=
  match Find.doc r with
  | Some d => strictEq (get d field) key
  | None => false
  end.

Inductive reply :=
| Failure (err : string)                  (* callback(err) *)
| Result (d : option Find.document).      (* callback(null, e && e.doc) *)

(** [findOneWithView(view, opts, callback)] once it is applied: the calls
    of [callback], in order. *)
Definition findOneWithView (view : string) (key : option Find.field)
    (dir : string + list entry) : list reply :=
  (if supported view then [] else [Failure unsupported])
  ++ match all true dir with
     | [] => []
     | inl err :: _ => [Failure err]
     | inr res :: _ =>
         [Result match List.filter (matches (fieldOf view) key) res with
                 | e :: _ => Find.doc e
                 | [] => None
                 end]
     end.

(** The counters of [bulkRemove]. *)
Record tally := MkTally {
  remaining : Z;
  n : Z
}.

Inductive removal :=
| RemoveFailed (msg : string)   (* callback(new Error(..)) *)
| RemoveDone.                   (* callback() *)

Definition failedToRemove (k : Z) : string :=
  "Failed to remove " +:+ NilZero.string_of_int (Z.to_int k) +:+ " doc(s)".

(** [handler(err)], for [docs.length = total]: the counters after it and
    the calls of [callback] it makes. *)
Definition handler (total : Z) (err : option string) (t : tally)
    : tally * list removal :=
  let remaining := match err with Some _ => remaining t
                                | None => (remaining t - 1)%Z end in
  let n := (n t + 1)%Z in
  ({| remaining := remaining; n := n |},
   if (n =? total)%Z
   then [if negb (remaining =? 0)%Z then RemoveFailed (failedToRemove remaining)
         else RemoveDone]
   else []).

(** The handler run on the answers of the store, in the order they come. *)
Fixpoint answers (total : Z) (errs : list (option string)) (t : tally)
    : list removal :=
  match errs with
  | [] => []
  | e :: es =>
      let '(t', out) := handler total e t in
      out ++ answers total es t'
  end.

(** What [bulkRemove] does at the call. *)
Inductive started :=
| NextTickDone                 (* process.nextTick(() => callback(null, docs)) *)
| Unlinking (ids : list string) (t : tally).   (* this.remove(doc._id, null, handler) for each *)

Definition bulkRemove (ids : list string) : started :=
  let total := Z.of_nat (length ids) in
  if (total =? 0)%Z then NextTickDone
  else Unlinking ids {| remaining := total; n := 0 |}.

(** The calls of [callback] that the handler of [bulkRemove] makes once
    the store has answered [errs] to the removals. *)
Definition reported (ids : list string) (errs : list (option string))
    : list removal :=
  match bulkRemove ids with
  | NextTickDone => []
  | Unlinking _ t => answers (Z.of_nat (length ids)) errs t
  end.

(** [options && options.include_docs] *)
Definition wantsDocs (s : Find.sent) : bool :=
  match s with
  | Find.SUndefined => false
  | Find.SOwn _ b | Find.SBody _ b | Find.SFresh b => b
  end.

(** [Model.find] on a model without default view over this driver: what
    becomes of the promise [search], once [all] is applied. *)
Definition findAll (args : list Find.arg) (dir : string + list entry)
    : list Find.resolution :=
  match Find.find None args with
  | None => []
  | Some q =>
      List.map
        (fun answer =>
           Find.answered q
             match answer with
             | inl err => inl err
             | inr rows => inr (List.map Find.Row rows)
             end)
        (all (wantsDocs (Find.options q)) dir)
  end.

(** The removals that failed. *)
Definition failures (errs : list (option string)) : nat :=
  length (List.filter (fun e => match e with Some _ => true | None => false end)
            errs).

End FlatFile.


(* ===================================================================== *)
(** ** lib/index.js: Mongoose.prototype.model *)
(* ===================================================================== *)

Module Mongoose.

(** A Schema object, by identity: one the caller made, or one that [model]
    made from a plain object (numbered in the order they are made). *)
Inductive schemaRef :=
| Given (n : nat)
| Made (n : nat).

#[global] Instance schemaRef_eq_dec : EqDecision schemaRef.
Proof. solve_decision. Defined.

(** The [schema] argument. *)
Inductive schemaArg :=
| NoSchema                    (* undefined or false *)
| AsCollection (c : string)   (* a string *)
| ASchema (s : schemaRef)     (* a Schema *)
| Plain.                      (* a plain object *)

(** The [collection] argument. *)
Inductive collectionArg :=
| NoCollection                (* undefined or null *)
| Named (c : string)
| Flag (b : bool).            (* a boolean *)

(** The [skipInit] argument: a boolean, or the options that
    [connection.model()] passes. *)
Inductive initArg :=
| NoInit                      (* undefined *)
| Skip (b : bool)
| Options (cache : option bool) (connection : option nat).

(** A compiled model: the function object [modelId], and what
    [Model.compile] or [__subclass] gave it. *)
Record compiled := MkCompiled {
  modelId : nat;
  modelName : string;
  schema : schemaRef;
  collection : string;
  connection : nat;
  base : option nat      (* for a subclass: the model it subclasses *)
}.

#[global] Instance compiled_eq_dec : EqDecision compiled.
Proof. solve_decision. Defined.

Inductive effect :=
| ApplyPlugins (s : schemaRef)   (* this._applyPlugins(schema) *)
| Compile (m : compiled)         (* Model.compile(..) *)
| Subclass (m : compiled)        (* model.__subclass(..), which runs init *)
| Init (id : nat).               (* model.init() *)

Inductive exn :=
| MissingSchemaError (name : string)
| OverwriteModelError (name : string)
| InitFailed (e : Indexes.exn).   (* what [ensureIndexes] throws in [init] *)

(** What [model] reads and writes of a Mongoose instance. *)
Record t := Mk {
  modelSchemas : gmap string schemaRef;
  models : gmap string compiled;
  made : nat;                (* Schemas made by [model] so far *)
  compiledCount : nat;       (* models compiled or subclassed so far *)
  defaultConnection : nat;   (* this.connection *)
  log : list effect
}.

Definition set_modelSchemas (s : gmap string schemaRef) (st : t) : t :=
  {| modelSchemas := s; models := models st; made := made st;
     compiledCount := compiledCount st;
     defaultConnection := defaultConnection st; log := log st |}.

Definition set_models (ms : gmap string compiled) (st : t) : t :=
  {| modelSchemas := modelSchemas st; models := ms; made := made st;
     compiledCount := compiledCount st;
     defaultConnection := defaultConnection st; log := log st |}.

Definition newSchema (st : t) : schemaRef * t :=
  (Made (made st),
   {| modelSchemas := modelSchemas st; models := models st;
      made := S (made st); compiledCount := compiledCount st;
      defaultConnection := defaultConnection st; log := log st |}).

(** A new function object for a model. *)
Definition newModel (st : t) : nat * t :=
  (compiledCount st,
   {| modelSchemas := modelSchemas st; models := models st;
      made := made st; compiledCount := S (compiledCount st);
      defaultConnection := defaultConnection st; log := log st |}).

Definition record (e : effect) (st : t) : t :=
  {| modelSchemas := modelSchemas st; models := models st; made := made st;
     compiledCount := compiledCount st;
     defaultConnection := defaultConnection st; log := log st ++ [e] |}.

(** [Model.init] (lib/model.js 358-364): with [autoIndex] it runs
    [ensureIndexes], which throws before it reaches the store for some
    schemas (more than one default view, or a default view without an
    indexed field on a derived schema).  [None] when [init] returns. *)
Definition init (toCollectionName : option string -> string)
    (autoIndex : bool) (name : string) (s : Indexes.schema)
    : option Indexes.exn :=
  if autoIndex then
    match Indexes.ensureIndexes_locals toCollectionName name s with
    | inl e => Some e
    | inr _ => None
    end
  else None.

Section WithSchema.

(** lib/schema.js, lib/utils.js and lib/schemadefault.js are not among the
    sources: [schema.get('collection')], [utils.toCollectionName]
    ([format] on a model name), the table [SchemaDefaults], and of a Schema
    its [autoIndex] option and what [ensureIndexes] reads of it, are
    parameters. *)
Variable collectionOf : schemaRef -> option string.
Variable format : string -> string.
Variable schemaDefaults : string -> option schemaRef.
Variable toCollectionName : option string -> string.
Variable autoIndexOf : schemaRef -> bool.
Variable indexedOf : schemaRef -> Indexes.schema.

(** [model.init()] for a model named [name] over the Schema [s]. *)
Definition initOf (name : string) (s : schemaRef) : option Indexes.exn :=
  init toCollectionName (autoIndexOf s) name (indexedOf s).

(** [Mongoose.prototype.model(name, schema, collection, skipInit)]: what
    it returns or throws, and the instance as it is then.  [name] is taken
    not to be the name of a property every object inherits
    ([JsObject.inherited]) unless the instance has entries of its own for
    it: for such a name [this.models[name]] is never undefined. *)
Definition model (name : string) (schema : schemaArg)
    (collection : collectionArg) (skipInit : initArg) (st : t)
    : (exn + compiled) * t :=
  (* a string in the place of the schema is the collection *)
  let collection :=
    match schema with AsCollection c => Named c | _ => collection end in
  (* a plain object becomes a Schema *)
  let '(schema, st) :=
    match schema with
    | NoSchema | AsCollection _ => (None, st)
    | ASchema s => (Some s, st)
    | Plain => let '(s, st) := newSchema st in (Some s, st)
    end in
  (* a boolean in the place of the collection is skipInit *)
  let '(collection, skipInit) :=
    match collection with
    | Flag b => (None, Skip b)
    | Named c => (Some c, skipInit)
    | NoCollection => (None, skipInit)
    end in
  (* internal options from connection.model() *)
  let '(cache, conn, skipInit) :=
    match skipInit with
    | Options cache conn => (cache, conn, true)
    | Skip b => (None, None, b)
    | NoInit => (None, None, false)
    end in
  (* the schema of the name is cached once *)
  let looked :=
    match modelSchemas st !! name with
    | Some _ => inr (schema, st)
    | None =>
        let schema :=
          match schema with
          | Some s => Some s
          | None => schemaDefaults name
          end in
        match schema with
        | Some s =>
            inr (Some s,
                 record (ApplyPlugins s)
                   (set_modelSchemas (<[name := s]> (modelSchemas st)) st))
        | None => inl (MissingSchemaError name)
        end
    end in
  match looked with
  | inl e => (inl e, st)
  | inr (schema, st) =>
      let fromCache :=
        match models st !! name with
        | Some m => if bool_decide (cache = Some false) then None else Some m
        | None => None
        end in
      match fromCache with
      | Some m =>
          if match schema with
             | Some s => bool_decide (s <> Mongoose.schema m)
             | None => false
             end
          then (inl (OverwriteModelError name), st)
          else
            if Indexes.truthy collection
            then
              (* subclass the cached model with the other collection;
                 __subclass runs init on the subclass *)
              let '(id, st) := newModel st in
              let sub :=
                {| modelId := id; modelName := modelName m;
                   schema := Mongoose.schema m;
                   collection := default "" collection;
                   connection := defaultConnection st;
                   base := Some (modelId m) |} in
              let st := record (Subclass sub) st in
              match initOf (modelName m) (Mongoose.schema m) with
              | Some e => (inl (InitFailed e), st)
              | None => (inr sub, st)
              end
            else (inr m, st)
      | None =>
          let schema :=
            match schema with
            | Some s => Some s
            | None => modelSchemas st !! name
            end in
          match schema with
          | None => (inl (MissingSchemaError name), st)
          | Some s =>
              let collection :=
                if Indexes.truthy collection then default "" collection
                else if Indexes.truthy (collectionOf s)
                     then default "" (collectionOf s)
                     else format name in
              let connection := default (defaultConnection st) conn in
              let '(id, st) := newModel st in
              let m :=
                {| modelId := id; modelName := name; schema := s;
                   collection := collection; connection := connection;
                   base := None |} in
              let st := record (Compile m) st in
              let failed :=
                if skipInit then None else initOf name s in
              let st := if skipInit then st else record (Init id) st in
              match failed with
              | Some e => (inl (InitFailed e), st)
              | None =>
                  if bool_decide (cache = Some false) then (inr m, st)
                  else (inr m, set_models (<[name := m]> (models st)) st)
              end
          end
      end
  end.

End WithSchema.

(** The schemas to which plugins were applied. *)
Fixpoint plugged (es : list effect) : list schemaRef :=
  match es with
  | [] => []
  | ApplyPlugins s :: es' => s :: plugged es'
  | _ :: es' => plugged es'
  end.

(** The options switch the cache off: [false === options.cache]. *)
Definition uncached (init : initArg) : bool :=
  match init with
  | Options (Some false) _ => true
  | _ => false
  end.

(** A fresh instance, with its default connection. *)
Definition fresh : t :=
  {| modelSchemas := ∅; models := ∅; made := 0; compiledCount := 0;
     defaultConnection := 0; log := [] |}.

End Mongoose.


(* ===================================================================== *)
(** * Properties *)
(* ===================================================================== *)

(** ** The command queue *)

Section QueueFacts.

Import Collection.

(** A deferred call lands at the tail of the queue and leaves the gates as
    they are. *)
Lemma maybeQueueCall_deferred f wait a c :
  buffer c || (wait && indexing c) = true ->
  let c' := snd (maybeQueueCall f wait a c) in
  fst (maybeQueueCall f wait a c) = true /\
  queue c' = queue c ++ [Entry f wait a] /\
  buffer c' = buffer c /\
  ensuringIndexes c' = ensuringIndexes c /\
  applied (effects c') = applied (effects c) /\
  ensuringDb c' = true.
Proof.
  intros Hd. unfold maybeQueueCall. rewrite Hd. cbn.
  destruct (ensuringDb c) eqn:He; cbn; rewrite ?He; repeat split; try done.
  induction (effects c) as [|x xs IH]; [done|].
  destruct x; cbn; by rewrite ?IH.
Qed.

(** A call is executed by its caller when neither gate holds it. *)
Lemma maybeQueueCall_immediate f wait a c :
  buffer c || (wait && indexing c) = false ->
  maybeQueueCall f wait a c = (false, c).
Proof. intros Hd. unfold maybeQueueCall. by rewrite Hd. Qed.

Lemma submit_all_deferred es : forall c,
  Forall (fun e => buffer c || (waitForIndexes e && indexing c) = true) es ->
  let c' := submit_all es c in
  queue c' = queue c ++ es /\
  buffer c' = buffer c /\
  ensuringIndexes c' = ensuringIndexes c /\
  applied (effects c') = applied (effects c).
Proof.
  induction es as [|e es IH]; intros c Hall; cbn.
  - by rewrite app_nil_r.
  - inversion Hall as [|? ? He Hes]; subst.
    destruct (maybeQueueCall_deferred (fn e) (waitForIndexes e) (args e) c He)
      as (_ & Hq & Hb & Hi & Ha & _).
    destruct e as [f wt a]; cbn in *.
    set (c1 := submit c (Entry f wt a)).
    assert (Hc1 : c1 = snd (maybeQueueCall f wt a c)) by done.
    rewrite <- Hc1 in Hq, Hb, Hi, Ha.
    destruct (IH c1) as (Hq' & Hb' & Hi' & Ha').
    { unfold indexing in *. rewrite Hb, Hi. exact Hes. }
    unfold submit_all in *. rewrite Hq', Hb', Hi', Ha', Hq, Hb, Hi, Ha.
    by rewrite <- app_assoc.
Qed.

Lemma applied_app xs ys : applied (xs ++ ys) = applied xs ++ applied ys.
Proof.
  induction xs as [|x xs IH]; [done|].
  destruct x; cbn; by rewrite IH.
Qed.

(** The loop of [doQueue]: held entries go back to the queue, the others are
    applied, both in the order of the old queue. *)
Lemma doQueue_loop idx es : forall c,
  let c' := fold_left (doQueue_step idx) es c in
  queue c' = queue c ++ List.filter (held idx) es /\
  applied (effects c') =
    applied (effects c) ++ List.filter (fun e => negb (held idx e)) es /\
  buffer c' = buffer c /\
  ensuringDb c' = ensuringDb c /\
  ensuringIndexes c' = ensuringIndexes c.
Proof.
  induction es as [|e es IH]; intros c; cbn.
  - by rewrite !app_nil_r.
  - destruct (IH (doQueue_step idx c e)) as (Hq & Ha & Hb & Hd & Hi).
    rewrite Hq, Ha, Hb, Hd, Hi. unfold doQueue_step, held.
    destruct (waitForIndexes e && idx); cbn.
    + by rewrite <- app_assoc.
    + rewrite applied_app. cbn. by rewrite <- app_assoc.
Qed.

(** Without index synthesis in progress a flush holds nothing back. *)
Lemma held_none (l : list entry) : List.filter (held false) l = [].
Proof.
  induction l as [|e l IH]; [done|].
  cbn. unfold held at 1. by rewrite andb_false_r.
Qed.

Lemma not_held_all (l : list entry) :
  List.filter (fun e => negb (held false e)) l = l.
Proof.
  induction l as [|e l IH]; [done|].
  cbn. unfold held at 1. rewrite andb_false_r. cbn. by rewrite IH.
Qed.

End QueueFacts.

(** ** The methods of the drivers at the queue *)

Section DriverFacts.

Import Collection.

Lemma entry_eta (e : entry) : Entry (fn e) (waitForIndexes e) (args e) = e.
Proof. by destruct e. Qed.

(** A method that meets no closed gate goes on to the store. *)
Lemma call_open e d :
  buffer (Driver.collection d) = false ->
  waitForIndexes e && indexing (Driver.collection d) = false ->
  Driver.call e d
  = {| Driver.collection := Driver.collection d;
       Driver.executed := Driver.executed d ++ [e] |}.
Proof.
  intros Hb Hw. unfold Driver.call, maybeQueueCall. by rewrite Hb, Hw.
Qed.

(** A method that meets a closed gate queues its call. *)
Lemma call_deferred e d :
  buffer (Driver.collection d)
  || (waitForIndexes e && indexing (Driver.collection d)) = true ->
  let d' := Driver.call e d in
  queue (Driver.collection d') = queue (Driver.collection d) ++ [e] /\
  Driver.executed d' = Driver.executed d /\
  buffer (Driver.collection d') = buffer (Driver.collection d) /\
  ensuringIndexes (Driver.collection d')
  = ensuringIndexes (Driver.collection d) /\
  applied (effects (Driver.collection d'))
  = applied (effects (Driver.collection d)).
Proof.
  intros Hd.
  destruct (maybeQueueCall_deferred (fn e) (waitForIndexes e) (args e)
              (Driver.collection d) Hd) as (Hfst & Hq & Hb & Hi & Ha & _).
  unfold Driver.call.
  destruct (maybeQueueCall _ _ _ _) as [deferred c] eqn:Hm.
  cbn in *. subst deferred. rewrite entry_eta in Hq. done.
Qed.


(** The loop of [doQueue] on a collection that does not buffer: the
    collection ends as the loop of [Collection.doQueue] leaves it, and the
    methods applied go on to the store. *)
Lemma doQueue_loop_open idx es : forall d,
  buffer (Driver.collection d) = false ->
  indexing (Driver.collection d) = idx ->
  let d' := fold_left (Driver.doQueue_step idx) es d in
  Driver.collection d'
  = fold_left (Collection.doQueue_step idx) es (Driver.collection d) /\
  Driver.executed d'
  = Driver.executed d ++ List.filter (fun e => negb (held idx e)) es.
Proof.
  induction es as [|e es IH]; intros d Hb Hi; cbn [fold_left List.filter].
  - by rewrite app_nil_r.
  - assert (Hstep :
      Driver.doQueue_step idx d e
      = {| Driver.collection := Collection.doQueue_step idx (Driver.collection d) e;
           Driver.executed :=
             Driver.executed d ++ (if held idx e then [] else [e]) |}).
    { unfold Driver.doQueue_step, Collection.doQueue_step, held.
      destruct (waitForIndexes e && idx) eqn:Hh.
      - by rewrite app_nil_r.
      - rewrite call_open; [done|done|]. subst idx. exact Hh. }
    rewrite Hstep.
    destruct (IH {| Driver.collection := Collection.doQueue_step idx (Driver.collection d) e;
                    Driver.executed :=
                      Driver.executed d ++ (if held idx e then [] else [e]) |})
      as (Hc & Hx).
    { cbn. unfold Collection.doQueue_step.
      by destruct (waitForIndexes e && idx). }
    { cbn. unfold Collection.doQueue_step, indexing in *.
      by destruct (waitForIndexes e && idx). }
    cbn [Driver.collection Driver.executed] in Hc, Hx. rewrite Hc, Hx.
    split; [done|]. destruct (held idx e); cbn [negb].
    + by rewrite app_nil_r.
    + by rewrite <- app_assoc.
Qed.

(** The loop of [doQueue] on a collection that buffers: every method
    applied queues its call again, so the queue is rebuilt in its order and
    nothing goes on to the store. *)
Lemma doQueue_loop_buffering idx es : forall d,
  buffer (Driver.collection d) = true ->
  let d' := fold_left (Driver.doQueue_step idx) es d in
  queue (Driver.collection d') = queue (Driver.collection d) ++ es /\
  Driver.executed d' = Driver.executed d /\
  buffer (Driver.collection d') = true /\
  ensuringIndexes (Driver.collection d')
  = ensuringIndexes (Driver.collection d).
Proof.
  induction es as [|e es IH]; intros d Hb; cbn [fold_left].
  - by rewrite app_nil_r.
  - assert (Hstep :
      queue (Driver.collection (Driver.doQueue_step idx d e))
      = queue (Driver.collection d) ++ [e] /\
      Driver.executed (Driver.doQueue_step idx d e) = Driver.executed d /\
      buffer (Driver.collection (Driver.doQueue_step idx d e)) = true /\
      ensuringIndexes (Driver.collection (Driver.doQueue_step idx d e))
      = ensuringIndexes (Driver.collection d)).
    { unfold Driver.doQueue_step.
      destruct (waitForIndexes e && idx) eqn:Hh; [done|].
      set (d0 := {| Driver.collection := emit (Applied e) (Driver.collection d);
                    Driver.executed := Driver.executed d |}).
      destruct (call_deferred e d0) as (Hq0 & Hx0 & Hb0 & Hi0 & _).
      { cbn. by rewrite Hb. }
      rewrite Hq0, Hx0, Hb0, Hi0. done. }
    destruct Hstep as (Hq0 & Hx0 & Hb0 & Hi0).
    destruct (IH (Driver.doQueue_step idx d e) Hb0) as (Hq & Hx & Hb' & Hi).
    rewrite Hq, Hx, Hb', Hi, Hq0, Hx0, Hi0. by rewrite <- app_assoc.
Qed.

(** [doQueue] on a collection that does not buffer. *)
Lemma doQueue_open d :
  buffer (Driver.collection d) = false ->
  Driver.collection (Driver.doQueue d)
  = Collection.doQueue (Driver.collection d) /\
  Driver.executed (Driver.doQueue d)
  = Driver.executed d
    ++ List.filter
         (fun e => negb (held (indexing (Driver.collection d)) e))
         (queue (Driver.collection d)).
Proof.
  intros Hb. unfold Driver.doQueue, Collection.doQueue.
  apply (doQueue_loop_open _ _
           {| Driver.collection := set_queue [] (Driver.collection d);
              Driver.executed := Driver.executed d |}); done.
Qed.

(** [doQueue] on a collection that buffers. *)
Lemma doQueue_buffering d :
  buffer (Driver.collection d) = true ->
  queue (Driver.collection (Driver.doQueue d)) = queue (Driver.collection d) /\
  Driver.executed (Driver.doQueue d) = Driver.executed d /\
  buffer (Driver.collection (Driver.doQueue d)) = true /\
  ensuringIndexes (Driver.collection (Driver.doQueue d))
  = ensuringIndexes (Driver.collection d).
Proof.
  intros Hb. unfold Driver.doQueue.
  apply (doQueue_loop_buffering _ _
           {| Driver.collection := set_queue [] (Driver.collection d);
              Driver.executed := Driver.executed d |}). done.
Qed.

End DriverFacts.



(** Queue ordering of the spec: calls made while buffering run in the order
    they were made once the connection opens. *)
Example onOpen_runs_in_submission_order :
  let op1 := Collection.Entry "insert" false ["doc1"] in
  let op2 := Collection.Entry "findWithView" true ["$root/byName"] in
  let op3 := Collection.Entry "remove" false ["doc1"] in
  let c := Collection.submit_all [op1; op2; op3] (Collection.create true) in
  Collection.effects c = [Collection.EnsureDb] /\
  Collection.applied (Collection.effects (Collection.onOpen c)) = [op1; op2; op3] /\
  Collection.queue (Collection.onOpen c) = [].
Proof. by vm_compute. Qed.

(** ** Save and remove of a document instance *)

Section LifecycleFacts.

Import Lifecycle.

Lemma on_promise_frame p op w :
  inst (on_promise p op w) = inst w /\
  requests (on_promise p op w) = requests w /\
  events (on_promise p op w) = events w /\
  length (promises (on_promise p op w)) = length (promises w).
Proof.
  unfold on_promise. destruct (promises w !! p) as [pr|]; [|done].
  destruct (op pr) as [pr' ns]. cbn. by rewrite length_insert.
Qed.

Lemma on_promise_at p op w pr :
  promises w !! p = Some pr ->
  promises (on_promise p op w) !! p = Some (fst (op pr)) /\
  notified (on_promise p op w) = notified w ++ snd (op pr).
Proof.
  intros Hp. unfold on_promise. rewrite Hp.
  destruct (op pr) as [pr' ns]. cbn. split; [|done].
  apply list_lookup_insert_eq. by eapply lookup_lt_Some.
Qed.

Lemma new_promise_at fn w :
  promises (snd (new_promise fn w)) !! length (promises w)
  = Some (Promise.create fn).
Proof. cbn. by apply list_lookup_middle. Qed.

Lemma resolve_create fn o :
  snd (Promise.resolve o (Promise.create fn)) = notifications fn o.
Proof. by destruct fn. Qed.

(** [save] on a new instance, step by step. *)
Lemma save_new_state fn w :
  isNew (inst w) = true ->
  save fn w =
    {| inst := set_inserting true (set_isNew false (inst w));
       promises := promises w ++ [Promise.create fn];
       requests := requests w ++ [Insert (toObject (inst w)) (length (promises w))];
       events := events w ++ [EmitIsNew false];
       notified := notified w |}.
Proof. intros Hn. unfold save. cbn. by rewrite Hn. Qed.

(** [save] on an instance that is not new, step by step. *)
Lemma save_existing_state fn w :
  isNew (inst w) = false ->
  save fn w =
    {| inst := set_inserting false (inst w);
       promises := promises w ++ [Promise.create fn];
       requests := requests w ++ [Insert (toObject (inst w)) (length (promises w))];
       events := events w ++ [EmitIsNew false];
       notified := notified w |}.
Proof. intros Hn. unfold save. cbn. by rewrite Hn. Qed.

(** While a removal is in flight, further calls of [remove] only attach
    their completions. *)
Lemma remove_in_flight fns : forall w p ls,
  removing (inst w) = Some p ->
  promises w !! p = Some {| Promise.listeners := ls; Promise.emitted := None |} ->
  let w' := fold_left (fun w f => remove f w) fns w in
  inst w' = inst w /\
  requests w' = requests w /\
  notified w' = notified w /\
  length (promises w') = length (promises w) /\
  promises w' !! p =
    Some {| Promise.listeners := ls ++ attached fns; Promise.emitted := None |}.
Proof.
  induction fns as [|f fns IH]; intros w p ls Hr Hp; cbn.
  - by rewrite app_nil_r.
  - set (w1 := remove f w).
    assert (Hw1 : w1 = on_promise p (Promise.addBack f) w).
    { unfold w1, remove. by rewrite Hr. }
    destruct (on_promise_frame p (Promise.addBack f) w) as (Hi & Hq & He & Hl).
    destruct (on_promise_at p (Promise.addBack f) w _ Hp) as (Hp1 & Hn).
    rewrite <- Hw1 in Hi, Hq, He, Hl, Hp1, Hn.
    destruct f as [f|]; cbn in Hp1, Hn.
    + destruct (IH w1 p (ls ++ [f])) as (Hi' & Hq' & Hn' & Hl' & Hp').
      { by rewrite Hi. } { exact Hp1. }
      rewrite Hi', Hq', Hn', Hl', Hp', Hi, Hq, Hn, Hl.
      rewrite app_nil_r. unfold attached. cbn. by rewrite <- app_assoc.
    + destruct (IH w1 p ls) as (Hi' & Hq' & Hn' & Hl' & Hp').
      { by rewrite Hi. } { exact Hp1. }
      rewrite Hi', Hq', Hn', Hl', Hp', Hi, Hq, Hn, Hl.
      by rewrite app_nil_r.
Qed.



(** The first [remove] on an instance with no removal in flight. *)
Lemma remove_first_state fn w :
  removing (inst w) = None ->
  remove fn w =
    {| inst := set_removing (Some (length (promises w))) (inst w);
       promises := promises w ++ [Promise.create fn];
       requests := requests w
                   ++ [Remove (_id (inst w)) (_rev (inst w)) (length (promises w))];
       events := events w;
       notified := notified w |}.
Proof. intros Hr. unfold remove. by rewrite Hr. Qed.

End LifecycleFacts.

(** C4, as the code has it: [save] on a new instance sends an insert of
    the whole document, and before the store answers the instance reads
    [isNew = false] with [inserting] set.  When the store then answers with
    an error while [inserting] is still set (any [save] made in the
    meantime clears it), [isNew] is true again, the identifier is untouched
    (so that a second [save] inserts under it), and the caller's completion
    gets the error.  When the store answers with a result, the instance
    takes the identifier and revision of the result and the caller's
    completion is called once, with success. *)
Theorem save_new_document (w : Lifecycle.world) (fn : option nat) :
  Lifecycle.isNew (Lifecycle.inst w) = true ->
  let p := length (Lifecycle.promises w) in
  let w1 := Lifecycle.save fn w in
  Lifecycle.requests w1 =
    Lifecycle.requests w
    ++ [Lifecycle.Insert (Lifecycle.toObject (Lifecycle.inst w)) p] /\
  Lifecycle.isNew (Lifecycle.inst w1) = false /\
  Lifecycle.inserting (Lifecycle.inst w1) = true /\
  Lifecycle._id (Lifecycle.inst w1) = Lifecycle._id (Lifecycle.inst w) /\
  Lifecycle.notified w1 = Lifecycle.notified w /\
  Lifecycle.promises w1 !! p = Some (Promise.create fn) /\
  (forall w' err,
     Lifecycle.inserting (Lifecycle.inst w') = true ->
     Lifecycle.promises w' !! p = Some (Promise.create fn) ->
     let w2 := Lifecycle.handleSave p (Lifecycle.SaveErr err) w' in
     Lifecycle.isNew (Lifecycle.inst w2) = true /\
     Lifecycle._id (Lifecycle.inst w2) = Lifecycle._id (Lifecycle.inst w') /\
     Lifecycle.notified w2 =
       Lifecycle.notified w'
       ++ Lifecycle.notifications fn (Promise.Rejected err) /\
     (forall fn',
        exists obj,
          Lifecycle.requests (Lifecycle.save fn' w2) =
            Lifecycle.requests w'
            ++ [Lifecycle.Insert obj (length (Lifecycle.promises w'))] /\
          Lifecycle.obj_id obj = Lifecycle._id (Lifecycle.inst w'))) /\
  (forall w' id rev,
     Lifecycle.promises w' !! p = Some (Promise.create fn) ->
     let w2 := Lifecycle.handleSave p (Lifecycle.SaveOk id rev) w' in
     Lifecycle._id (Lifecycle.inst w2) = id /\
     Lifecycle._rev (Lifecycle.inst w2) = Some rev /\
     Lifecycle.isNew (Lifecycle.inst w2) = Lifecycle.isNew (Lifecycle.inst w') /\
     Lifecycle.notified w2 =
       Lifecycle.notified w' ++ Lifecycle.notifications fn Promise.Fulfilled).
Proof.
  intros Hn p w1. subst w1. rewrite (save_new_state fn w Hn). fold p.
  set (w1 := Lifecycle.MkWorld _ _ _ _ _).
  assert (Hp : Lifecycle.promises w1 !! p = Some (Promise.create fn)).
  { cbn. by apply list_lookup_middle. }
  do 6 (split; [done|]).
  clear w1 Hp. split.
  - intros w' err Hins Hp. unfold Lifecycle.handleSave. rewrite Hins.
    set (w1' := Lifecycle.emit (Lifecycle.EmitIsNew true)
                  (Lifecycle.with_inst (Lifecycle.set_isNew true) w')).
    assert (Hp' : Lifecycle.promises w1' !! p = Some (Promise.create fn)) by done.
    destruct (on_promise_frame p (Promise.resolve (Promise.Rejected err)) w1')
      as (Hi & Hq & _ & Hl).
    destruct (on_promise_at p (Promise.resolve (Promise.Rejected err)) w1' _ Hp')
      as (_ & Hno).
    rewrite resolve_create in Hno.
    set (w2 := Lifecycle.on_promise p _ w1') in *. clearbody w2.
    split; [by rewrite Hi|]. split; [by rewrite Hi|].
    split; [by rewrite Hno|].
    intros fn'. eexists. split.
    + rewrite (save_new_state fn' w2) by (by rewrite Hi).
      cbn. by rewrite Hq, Hl.
    + cbn. by rewrite Hi.
  - intros w' id rev Hp. unfold Lifecycle.handleSave.
    set (w1' := Lifecycle.emit Lifecycle.EmitSave
                  (Lifecycle.with_inst (Lifecycle.set_id_rev id rev) w')).
    assert (Hp' : Lifecycle.promises w1' !! p = Some (Promise.create fn)) by done.
    destruct (on_promise_frame p (Promise.resolve Promise.Fulfilled) w1')
      as (Hi & _).
    destruct (on_promise_at p (Promise.resolve Promise.Fulfilled) w1' _ Hp')
      as (_ & Hno).
    rewrite resolve_create in Hno.
    by rewrite Hi, Hno.
Qed.

(** A new document whose first insert fails and whose second insert
    succeeds. *)
Lemma save_new_document_witness :
  let w := Lifecycle.fresh "100" "{displayName: 'Just a display name'}" in
  let w1 := Lifecycle.save (Some 7) w in
  let failed := Lifecycle.handleSave 0 (Lifecycle.SaveErr "conflict") w1 in
  let again := Lifecycle.save (Some 8) failed in
  let saved := Lifecycle.handleSave 1 (Lifecycle.SaveOk "100" "1-a") again in
  Lifecycle.isNew (Lifecycle.inst w1) = false /\
  Lifecycle.inserting (Lifecycle.inst w1) = true /\
  Lifecycle.isNew (Lifecycle.inst failed) = true /\
  Lifecycle.notified failed = [(7, Promise.Rejected "conflict")] /\
  Lifecycle._rev (Lifecycle.inst saved) = Some "1-a" /\
  Lifecycle.notified saved
  = [(7, Promise.Rejected "conflict"); (8, Promise.Fulfilled)].
Proof.
  intros w w1 failed again saved.
  destruct (save_new_document w (Some 7) eq_refl)
    as (_ & Hnew & Hins & _ & _ & Hp & Herr & _).
  destruct (Herr w1 "conflict" Hins Hp) as (Hback & _ & Hno & _).
  destruct (save_new_document failed (Some 8) Hback)
    as (_ & _ & _ & _ & Hsame & Hp' & _ & Hok).
  destruct (Hok again "100" "1-a" Hp') as (_ & Hrev & _ & Hno').
  split; [exact Hnew|]. split; [exact Hins|]. split; [exact Hback|].
  split; [exact Hno|]. split; [exact Hrev|].
  etransitivity; [exact Hno'|].
  etransitivity; [exact (f_equal (fun l => l ++ _) Hsame)|].
  exact (f_equal (fun l => l ++ _) Hno).
Defined.

(** C4 as stated fails: a second [save] made before the store answers the
    first takes the branch of an existing document and clears
    [inserting]; the failure of the first insert then leaves
    [isNew = false]. *)
Lemma save_retry_lost_to_second_save :
  let w := Lifecycle.fresh "100" "{displayName: 'Just a display name'}" in
  let w2 := Lifecycle.save (Some 8) (Lifecycle.save (Some 7) w) in
  let failed := Lifecycle.handleSave 0 (Lifecycle.SaveErr "conflict") w2 in
  Lifecycle.isNew (Lifecycle.inst w) = true /\
  Lifecycle.isNew (Lifecycle.inst failed) = false /\
  Lifecycle.notified failed = [(7, Promise.Rejected "conflict")].
Proof. cbn. repeat split. Qed.

(** C8, as the code has it: [save] on an instance that is not new sends the
    insert the new-document path would send for it and leaves [isNew] false;
    it sets [inserting] to false, so that when the store answers this write
    with an error the instance is left as it is, not new, and the caller's
    completion gets the error. *)
Theorem save_existing_document (w : Lifecycle.world) (fn : option nat) :
  Lifecycle.isNew (Lifecycle.inst w) = false ->
  let p := length (Lifecycle.promises w) in
  let w1 := Lifecycle.save fn w in
  Lifecycle.requests w1 =
    Lifecycle.requests w
    ++ [Lifecycle.Insert (Lifecycle.toObject (Lifecycle.inst w)) p] /\
  Lifecycle.requests w1 =
    Lifecycle.requests
      (Lifecycle.save fn (Lifecycle.with_inst (Lifecycle.set_isNew true) w)) /\
  Lifecycle.isNew (Lifecycle.inst w1) = false /\
  Lifecycle.inserting (Lifecycle.inst w1) = false /\
  Lifecycle.promises w1 !! p = Some (Promise.create fn) /\
  (forall err,
     let w2 := Lifecycle.handleSave p (Lifecycle.SaveErr err) w1 in
     Lifecycle.isNew (Lifecycle.inst w2) = false /\
     Lifecycle.inst w2 = Lifecycle.inst w1 /\
     Lifecycle.events w2 = Lifecycle.events w1 /\
     Lifecycle.notified w2 =
       Lifecycle.notified w
       ++ Lifecycle.notifications fn (Promise.Rejected err)) /\
  (forall w' err,
     Lifecycle.inserting (Lifecycle.inst w') = false ->
     Lifecycle.promises w' !! p = Some (Promise.create fn) ->
     let w2 := Lifecycle.handleSave p (Lifecycle.SaveErr err) w' in
     Lifecycle.inst w2 = Lifecycle.inst w' /\
     Lifecycle.events w2 = Lifecycle.events w' /\
     Lifecycle.notified w2 =
       Lifecycle.notified w'
       ++ Lifecycle.notifications fn (Promise.Rejected err)).
Proof.
  intros Hn p w1.
  assert (Hlate : forall w' err,
     Lifecycle.inserting (Lifecycle.inst w') = false ->
     Lifecycle.promises w' !! p = Some (Promise.create fn) ->
     let w2 := Lifecycle.handleSave p (Lifecycle.SaveErr err) w' in
     Lifecycle.inst w2 = Lifecycle.inst w' /\
     Lifecycle.events w2 = Lifecycle.events w' /\
     Lifecycle.notified w2 =
       Lifecycle.notified w'
       ++ Lifecycle.notifications fn (Promise.Rejected err)).
  { intros w' err Hins Hp. unfold Lifecycle.handleSave. rewrite Hins.
    destruct (on_promise_frame p (Promise.resolve (Promise.Rejected err)) w')
      as (Hi & _ & He & _).
    destruct (on_promise_at p (Promise.resolve (Promise.Rejected err)) w' _ Hp)
      as (_ & Hno).
    rewrite resolve_create in Hno. done. }
  subst w1. rewrite (save_existing_state fn w Hn). fold p.
  rewrite (save_new_state fn (Lifecycle.with_inst (Lifecycle.set_isNew true) w))
    by done.
  set (w1 := Lifecycle.MkWorld _ _ _ _ _).
  assert (Hp : Lifecycle.promises w1 !! p = Some (Promise.create fn)).
  { cbn. by apply list_lookup_middle. }
  assert (Hnew1 : Lifecycle.isNew (Lifecycle.inst w1) = false) by exact Hn.
  split; [done|]. split; [done|]. split; [exact Hnew1|].
  split; [done|]. split; [exact Hp|]. split; [|exact Hlate].
  intros err. destruct (Hlate w1 err eq_refl Hp) as (Hi & He & Hno).
  split; [by rewrite Hi|]. done.
Qed.

(** A document saved once with success, then saved again; the store
    refuses the second write. *)
Lemma save_existing_document_witness :
  let w := Lifecycle.handleSave 0 (Lifecycle.SaveOk "100" "1-967a00dff5e02add41819138abb3284d")
             (Lifecycle.save (Some 7) (Lifecycle.fresh "100" "{name: 'bob'}")) in
  let w1 := Lifecycle.save (Some 8) w in
  let failed := Lifecycle.handleSave 1 (Lifecycle.SaveErr "conflict") w1 in
  Lifecycle.requests w1 =
    Lifecycle.requests w
    ++ [Lifecycle.Insert (Lifecycle.toObject (Lifecycle.inst w)) 1] /\
  Lifecycle.isNew (Lifecycle.inst w1) = false /\
  Lifecycle.inserting (Lifecycle.inst w1) = false /\
  Lifecycle.isNew (Lifecycle.inst failed) = false.
Proof.
  intros w w1 failed.
  destruct (save_existing_document w (Some 8) eq_refl)
    as (Hr & _ & Hn & Hi & _ & Herr & _).
  split; [exact Hr|]. split; [exact Hn|]. split; [exact Hi|].
  exact (proj1 (Herr "conflict")).
Defined.

(** C8 as stated fails: after a first save that succeeded the instance has
    [isNew = false] and [inserting = true]; the next [save] alters
    [inserting]. *)
Lemma save_existing_alters_inserting :
  let w := Lifecycle.handleSave 0 (Lifecycle.SaveOk "100" "1-967a00dff5e02add41819138abb3284d")
             (Lifecycle.save (Some 7) (Lifecycle.fresh "100" "{name: 'bob'}")) in
  Lifecycle.isNew (Lifecycle.inst w) = false /\
  Lifecycle.inserting (Lifecycle.inst w) = true /\
  Lifecycle.inserting (Lifecycle.inst (Lifecycle.save (Some 8) w))
    <> Lifecycle.inserting (Lifecycle.inst w).
Proof. cbn. repeat split; discriminate. Qed.

(** C6: calls of [remove] made while a removal is in flight send nothing to
    the store: one delete is sent, by the first call.  When the store
    answers, every completion attached by these calls is notified, each with
    the outcome of that one delete. *)
Theorem remove_coalesces (w : Lifecycle.world) (fn : option nat)
    (fns : list (option nat)) (err : option string) :
  Lifecycle.removing (Lifecycle.inst w) = None ->
  let p := length (Lifecycle.promises w) in
  let w1 := Lifecycle.remove fn w in
  let wn := fold_left (fun w f => Lifecycle.remove f w) fns w1 in
  Lifecycle.requests w1 =
    Lifecycle.requests w
    ++ [Lifecycle.Remove (Lifecycle._id (Lifecycle.inst w))
          (Lifecycle._rev (Lifecycle.inst w)) p] /\
  Lifecycle.requests wn = Lifecycle.requests w1 /\
  Lifecycle.notified wn = Lifecycle.notified w /\
  Lifecycle.notified (Lifecycle.removeDone p err wn) =
    Lifecycle.notified w
    ++ List.map (fun f => (f, Lifecycle.removal_outcome err))
         (Lifecycle.attached (fn :: fns)).
Proof.
  intros Hr p w1 wn. subst wn w1. rewrite (remove_first_state fn w Hr). fold p.
  set (w1 := Lifecycle.MkWorld _ _ _ _ _).
  destruct (remove_in_flight fns w1 p (Lifecycle.attached [fn]))
    as (Hi & Hq & Hn & Hl & Hp).
  { done. }
  { cbn. rewrite list_lookup_middle by done. by destruct fn. }
  set (wn := fold_left _ fns w1) in *. clearbody wn.
  split; [done|]. split; [done|]. split; [by rewrite Hn|].
  assert (Hls : Lifecycle.attached [fn] ++ Lifecycle.attached fns
                = Lifecycle.attached (fn :: fns)) by (by destruct fn).
  rewrite Hls in Hp.
  destruct err as [e|]; cbn.
  - destruct (on_promise_at p (Promise.resolve (Promise.Rejected e)) wn _ Hp)
      as (_ & Hno).
    rewrite Hno, Hn. done.
  - set (wn' := Lifecycle.emit Lifecycle.EmitRemove wn).
    assert (Hp' : Lifecycle.promises wn' !! p = Lifecycle.promises wn !! p) by done.
    rewrite Hp in Hp'.
    destruct (on_promise_at p (Promise.resolve Promise.Fulfilled) wn' _ Hp')
      as (_ & Hno).
    rewrite Hno. subst wn'. cbn. by rewrite Hn.
Qed.

(** Two concurrent [remove] calls on one instance. *)
Lemma remove_coalesces_witness :
  let w := Lifecycle.fresh "102" "{name: 'group1'}" in
  let w2 := Lifecycle.remove (Some 2) (Lifecycle.remove (Some 1) w) in
  Lifecycle.requests w2 = [Lifecycle.Remove "102" None 0] /\
  Lifecycle.notified (Lifecycle.removeDone 0 (Some "conflict") w2) =
    [(1, Promise.Rejected "conflict"); (2, Promise.Rejected "conflict")].
Proof.
  intros w w2.
  destruct (remove_coalesces w (Some 1) [Some 2] (Some "conflict") eq_refl)
    as (Hq1 & Hq & _ & Hno).
  split; [exact (eq_trans Hq Hq1) | exact Hno].
Defined.



(** ** Index synthesis *)

Section IndexFacts.

Import JsString Indexes.

Variable toCollectionName : option string -> string.

Lemma append_nonempty (a b : string) (c : ascii) :
  String.eqb (a +:+ String c b) "" = false.
Proof. by destruct a. Qed.

Lemma append_cancel_l (x a b : string) : x +:+ a = x +:+ b -> a = b.
Proof.
  induction x as [|c x IH]; cbn; [done|].
  intros H. injection H as H. by apply IH.
Qed.

(** Once a default view is chosen, one more view marked as the default makes
    the loop throw. *)
Lemma explicitDefault_again name dm cv : forall dv,
  truthy dv = true ->
  1 <= length (List.filter asDefaultIndex (List.map snd cv)) ->
  explicitDefault toCollectionName name dm cv dv
  = inl (Error (name +:+ ": More than one custom index defined as default.")).
Proof.
  induction cv as [|[k v] cv IH]; intros dv Hdv Hn; cbn in *; [lia|].
  destruct (asDefaultIndex v); cbn in *.
  - by rewrite Hdv.
  - by apply IH.
Qed.

Lemma explicitDefault_twice name dm cv :
  2 <= length (List.filter asDefaultIndex (List.map snd cv)) ->
  explicitDefault toCollectionName name dm cv None
  = inl (Error (name +:+ ": More than one custom index defined as default.")).
Proof.
  induction cv as [|[k v] cv IH]; intros Hn; cbn in *; [lia|].
  destruct (asDefaultIndex v); cbn in *.
  - apply explicitDefault_again; [|lia].
    destruct dm as [d|]; cbn; [|done].
    change ("/" +:+ k) with (String "/"%char k). by rewrite append_nonempty.
  - by apply IH.
Qed.

(** With one view marked as the default, the loop picks it, under the
    collection name of the mapping's value when the schema has a mapping and
    under [$root] when it has none. *)
Lemma explicitDefault_single name dm pre k v post :
  asDefaultIndex v = true ->
  List.filter asDefaultIndex (List.map snd pre) = [] ->
  List.filter asDefaultIndex (List.map snd post) = [] ->
  explicitDefault toCollectionName name dm (pre ++ (k, v) :: post) None
  = inr (Some (match dm with
               | Some d => toCollectionName (value d) +:+ "/" +:+ k
               | None => "$root/" +:+ k
               end)).
Proof.
  intros Hv Hpre Hpost.
  assert (Hskip : forall l dv,
            List.filter asDefaultIndex (List.map snd l) = [] ->
            forall rest,
              explicitDefault toCollectionName name dm (l ++ rest) dv
              = explicitDefault toCollectionName name dm rest dv).
  { induction l as [|[k' v'] l IH]; intros dv Hl rest; [done|].
    cbn in *. destruct (asDefaultIndex v'); [done|]. by apply IH. }
  rewrite Hskip by done. cbn. rewrite Hv. cbn.
  rewrite <- (app_nil_r post). rewrite Hskip by done. done.
Qed.

(** A root schema without a discriminator mapping and with one view marked
    as the default: the default view is that view under [$root]. *)
Lemma ensureIndexes_default_root_unmapped cb m pre k v post :
  discriminatorMapping (schema_of m) = None ->
  views (schema_of m) = Some (pre ++ (k, v) :: post) ->
  asDefaultIndex v = true ->
  List.filter asDefaultIndex (List.map snd pre) = [] ->
  List.filter asDefaultIndex (List.map snd post) = [] ->
  exists m',
    ensureIndexes toCollectionName cb m
    = Reading "$root" "" (indexes (schema_of m)) m' /\
    defaultView m' = Some ("$root/" +:+ k) /\
    reads (trace m') = reads (trace m) ++ ["_design/$root"].
Proof.
  intros Hdm Hviews Hv Hpre Hpost.
  unfold ensureIndexes, ensureIndexes_locals. rewrite Hviews, Hdm.
  rewrite explicitDefault_single by done.
  unfold nothingToDo. rewrite Hviews. cbn.
  rewrite andb_false_r. cbn. eexists. split; [reflexivity|].
  split; [done|]. cbn.
  induction (trace m) as [|e t IH]; [done|].
  destruct e; cbn; by rewrite ?IH.
Qed.

End IndexFacts.

(** C5: when the views of a schema mark more than one view as the default
    index, [ensureIndexes] throws the error "More than one custom index
    defined as default" and the model is as it was before the call: nothing
    was read from or written to the store, and the counter
    [ensuringIndexes] of the collection was not incremented. *)
Theorem ensureIndexes_duplicate_default
    (toCollectionName : option string -> string) (cb : bool)
    (m : Indexes.model) (cv : list (string * Indexes.viewSpec)) :
  Indexes.views (Indexes.schema_of m) = Some cv ->
  2 <= length (List.filter Indexes.asDefaultIndex (List.map snd cv)) ->
  Indexes.ensureIndexes toCollectionName cb m =
    Indexes.Threw
      (Indexes.Error
         (Indexes.modelName m
          +:+ ": More than one custom index defined as default."))
      m.
Proof.
  intros Hv Hn. unfold Indexes.ensureIndexes, Indexes.ensureIndexes_locals.
  rewrite Hv. by rewrite explicitDefault_twice.
Qed.

(** A schema with two views marked as the default. *)
Lemma ensureIndexes_duplicate_default_witness :
  let m := Indexes.compile "NamedEntity" Fixtures.twoDefaults in
  Indexes.ensureIndexes (fun _ => "namedentities") true m =
    Indexes.Threw
      (Indexes.Error "NamedEntity: More than one custom index defined as default.")
      m /\
  Indexes.reads (Indexes.trace m) = [] /\
  Indexes.writes (Indexes.trace m) = [] /\
  Collection.ensuringIndexes (Indexes.collection m) = 0%Z.
Proof.
  split; [|done].
  apply (ensureIndexes_duplicate_default (fun _ => "namedentities") true
           (Indexes.compile "NamedEntity" Fixtures.twoDefaults) _ eq_refl).
  cbn. lia.
Defined.

(** A root schema without discriminators: the default view is the marked
    view under the design document [$root]. *)
Example ensureIndexes_default_view_root
    (toCollectionName : option string -> string) :
  exists m',
    Indexes.ensureIndexes toCollectionName false
      (Indexes.compile "NamedEntity" Fixtures.namedEntity)
    = Indexes.Reading "$root" "" [] m' /\
    Indexes.defaultView m' = Some "$root/names".
Proof. eexists. split; reflexivity. Qed.

(** C7, evaluated on the code.  For a root schema that carries a
    discriminator mapping (discriminators have been registered on its model)
    the views are kept in the design document [$root], and the default view
    is set to the collection name of the mapping's [null] value followed by
    the view name.  For a derived schema with an indexed field the default
    view is set to the view of that field and not to the view marked as the
    default; for a derived schema without an indexed field the call throws a
    TypeError before it sets a default view. *)
Theorem ensureIndexes_default_view_scope
    (toCollectionName : option string -> string) :
  (exists m',
     Indexes.ensureIndexes toCollectionName false
       (Indexes.compile "NamedEntity" Fixtures.namedEntityRegistered)
     = Indexes.Reading "$root" "" [] m' /\
     Indexes.defaultView m' = Some (toCollectionName None +:+ "/names")) /\
  (exists earlyOut m',
     Indexes.ensureIndexes toCollectionName false
       (Indexes.compile "User" Fixtures.userWithDefault)
     = Indexes.Reading (toCollectionName (Some "User")) earlyOut [["name"]] m' /\
     Indexes.defaultView m'
     = Some (toCollectionName (Some "User") +:+ "/byName") /\
     Indexes.defaultView m'
     <> Some (toCollectionName (Some "User") +:+ "/names")) /\
  Indexes.ensureIndexes toCollectionName false
    (Indexes.compile "User" Fixtures.userDefaultOnly)
  = Indexes.Threw Indexes.TypeError
      (Indexes.compile "User" Fixtures.userDefaultOnly).
Proof.
  split; [|split].
  - eexists. split; reflexivity.
  - do 2 eexists. split; [reflexivity|]. split; [reflexivity|].
    cbn. intros H. injection H as H.
    apply append_cancel_l in H. discriminate.
  - unfold Indexes.ensureIndexes, Indexes.ensureIndexes_locals. cbn.
    change ("/" +:+ "names") with (String "/"%char "names").
    by rewrite append_nonempty.
Qed.

Section RunFacts.

Import JsString Indexes.

Variable toCollectionName : option string -> string.

Lemma writes_app t t' : writes (t ++ t') = writes t ++ writes t'.
Proof.
  induction t as [|e t IH]; [done|].
  destruct e; cbn; by rewrite IH.
Qed.

(** A run that reaches the store: what it writes is what [reconcile] finds
    modified. *)
Lemma run_completes cb m store designDoc earlyOut idx dv s modified d :
  ensureIndexes_locals toCollectionName (modelName m) (schema_of m)
  = inr (designDoc, earlyOut, idx, dv) ->
  nothingToDo idx (schema_of m) = false ->
  reconcile earlyOut idx (schema_of m) (store !! ("_design/" +:+ designDoc))
  = (s, Some (modified, d)) ->
  exists m1,
    run toCollectionName cb m store =
      Completed m1 (if modified
                    then <["_design/" +:+ designDoc := d]> store
                    else store) /\
    modelName m1 = modelName m /\
    schema_of m1 = s /\
    defaultView m1 = dv /\
    writes (trace m1) =
      writes (trace m)
      ++ (if modified then [("_design/" +:+ designDoc, d)] else []).
Proof.
  intros Hl Hn Hr. unfold run, ensureIndexes. rewrite Hl, Hn.
  unfold withDesign. cbn. rewrite Hr.
  destruct modified; eexists; (split; [reflexivity|]);
    destruct cb; cbn; rewrite ?writes_app; cbn; by rewrite ?app_nil_r.
Qed.

(** Rewriting the list functions leaves the first part of [ensureIndexes]
    as it is. *)
Lemma ensureIndexes_locals_lists name s l :
  ensureIndexes_locals toCollectionName name (set_lists l s)
  = ensureIndexes_locals toCollectionName name s.
Proof. done. Qed.

End RunFacts.

(** ** Index synthesis: when a second run writes nothing *)

Section IdempotenceFacts.

Import JsString Indexes.

Lemma hasEquivalentFunctions_refl x : hasEquivalentFunctions x x = true.
Proof.
  destruct x as [a|]; [|done]. cbn.
  apply forallb_forall. intros [k v] Hin. apply bool_decide_eq_true.
  cbn. apply elem_of_map_to_list. by apply list_elem_of_In.
Qed.

(** What [syncFunctions] leaves in the design document is in line with the
    schema. *)
Lemma syncFunctions_stable m0 m stored custom :
  syncFunctions m0 (snd (syncFunctions m stored custom)) custom
  = (m0, snd (syncFunctions m stored custom)).
Proof.
  unfold syncFunctions.
  destruct (hasEquivalentFunctions stored custom) eqn:H; cbn.
  - by rewrite H.
  - by rewrite hasEquivalentFunctions_refl.
Qed.

(** One call of [maybeUpdateIndex]. *)
Lemma maybeUpdateIndex_step earlyOut tr a call a' :
  maybeUpdateIndex earlyOut tr a call = Some a' ->
  exists def,
    definition earlyOut tr (fst call) (snd call) = Some def /\
    customViewNames a' = customViewNames a ++ customNamesOf [call] /\
    indexViewNames a' = indexViewNames a ++ indexNamesOf [call] /\
    hasEquivalentFunctions (a_views a' !! viewNameOf call) (Some def) = true /\
    (forall k, k <> viewNameOf call -> a_views a' !! k = a_views a !! k).
Proof.
  destruct call as [name spec]. unfold maybeUpdateIndex.
  destruct (definition earlyOut tr name spec) as [def|] eqn:Hdef; [|done].
  intros H. exists def. split; [done|].
  destruct spec as [spec|]; cbn in H |- *;
    match type of H with
    | (if negb ?c then _ else _) = _ => destruct c eqn:Heq
    end; cbn in H; injection H as <-; cbn;
    rewrite ?app_nil_r; (repeat split; try done);
    try (by rewrite lookup_insert_eq; apply hasEquivalentFunctions_refl);
    try (by intros k Hk; rewrite lookup_insert_ne).
Qed.

(** A call that finds its view in line with the schema only records the
    name. *)
Lemma maybeUpdateIndex_same earlyOut tr a call def :
  definition earlyOut tr (fst call) (snd call) = Some def ->
  hasEquivalentFunctions (a_views a !! viewNameOf call) (Some def) = true ->
  maybeUpdateIndex earlyOut tr a call =
    Some {| a_views := a_views a; a_modified := a_modified a;
            customViewNames := customViewNames a ++ customNamesOf [call];
            indexViewNames := indexViewNames a ++ indexNamesOf [call] |}.
Proof.
  destruct call as [name spec]. cbn [fst snd]. intros Hdef Heq.
  unfold maybeUpdateIndex. rewrite Hdef.
  destruct spec as [spec|]; cbn in Heq |- *; rewrite Heq; cbn;
    by rewrite ?app_nil_r.
Qed.

Lemma customNamesOf_cons c calls :
  customNamesOf (c :: calls) = customNamesOf [c] ++ customNamesOf calls.
Proof. unfold customNamesOf. cbn. by rewrite app_nil_r. Qed.

Lemma indexNamesOf_cons c calls :
  indexNamesOf (c :: calls) = indexNamesOf [c] ++ indexNamesOf calls.
Proof. unfold indexNamesOf. cbn. by rewrite app_nil_r. Qed.

(** The loop over the calls, the first time. *)
Lemma updateLoop_first earlyOut tr calls : forall a a',
  foldM (maybeUpdateIndex earlyOut tr) calls a = Some a' ->
  NoDup (List.map viewNameOf calls) ->
  customViewNames a' = customViewNames a ++ customNamesOf calls /\
  indexViewNames a' = indexViewNames a ++ indexNamesOf calls /\
  (forall k, k ∉ List.map viewNameOf calls -> a_views a' !! k = a_views a !! k) /\
  Forall (fun c => exists def,
            definition earlyOut tr (fst c) (snd c) = Some def /\
            hasEquivalentFunctions (a_views a' !! viewNameOf c) (Some def) = true)
         calls.
Proof.
  induction calls as [|c calls IH]; intros a a' Hf Hnd.
  - injection Hf as <-. cbn. by rewrite !app_nil_r.
  - cbn in Hf.
    destruct (maybeUpdateIndex earlyOut tr a c) as [a1|] eqn:Hstep; [|done].
    cbn in Hnd. apply NoDup_cons in Hnd as [Hc Hnd].
    destruct (maybeUpdateIndex_step _ _ _ _ _ Hstep)
      as (def & Hdef & Hcn & Hin & Heq & Hother).
    destruct (IH a1 a' Hf Hnd) as (Hcn' & Hin' & Hother' & Hall).
    rewrite customNamesOf_cons, indexNamesOf_cons.
    split; [by rewrite Hcn', Hcn, <- app_assoc|].
    split; [by rewrite Hin', Hin, <- app_assoc|].
    split.
    + intros k Hk. cbn in Hk. apply not_elem_of_cons in Hk as [Hk1 Hk2].
      by rewrite Hother', Hother.
    + constructor; [|done]. exists def. split; [done|].
      by rewrite Hother'.
Qed.

(** The loop over the calls when every view is in line with the schema. *)
Lemma updateLoop_same earlyOut tr calls : forall b,
  Forall (fun c => exists def,
            definition earlyOut tr (fst c) (snd c) = Some def /\
            hasEquivalentFunctions (a_views b !! viewNameOf c) (Some def) = true)
         calls ->
  foldM (maybeUpdateIndex earlyOut tr) calls b =
    Some {| a_views := a_views b; a_modified := a_modified b;
            customViewNames := customViewNames b ++ customNamesOf calls;
            indexViewNames := indexViewNames b ++ indexNamesOf calls |}.
Proof.
  induction calls as [|c calls IH]; intros b Hall.
  - cbn. rewrite !app_nil_r. by destruct b.
  - inversion Hall as [|? ? (def & Hdef & Heq) Hall']; subst.
    rewrite customNamesOf_cons, indexNamesOf_cons.
    cbn [foldM]. rewrite (maybeUpdateIndex_same _ _ _ _ _ Hdef Heq).
    rewrite IH by done.
    cbn [a_views a_modified customViewNames indexViewNames].
    by rewrite <- !app_assoc.
Qed.

Lemma viewNameOf_recorded c calls :
  c ∈ calls -> viewNameOf c ∈ customNamesOf calls ++ indexNamesOf calls.
Proof.
  induction calls as [|c' calls IH]; intros Hin; [by apply elem_of_nil in Hin|].
  rewrite customNamesOf_cons, indexNamesOf_cons.
  rewrite !elem_of_app.
  apply elem_of_cons in Hin as [->|Hin].
  - destruct c' as [name [spec|]]; cbn.
    + left. left. by constructor.
    + right. left. by constructor.
  - apply IH, elem_of_app in Hin as [Hin|Hin]; [left|right]; by right.
Qed.

Lemma names_recorded calls :
  calls <> [] ->
  Nat.eqb (length (customNamesOf calls)) 0
  && Nat.eqb (length (indexNamesOf calls)) 0 = false.
Proof.
  destruct calls as [|[name [spec|]] calls]; [done| |]; intros _.
  - by rewrite customNamesOf_cons.
  - rewrite indexNamesOf_cons. cbn. by rewrite andb_false_r.
Qed.

(** The views [syncViews] leaves in the design document are in line with the
    schema: a second pass over them modifies nothing. *)
Lemma syncViews_stable earlyOut tr calls views0 m m' out :
  calls <> [] ->
  NoDup (List.map viewNameOf calls) ->
  syncViews earlyOut tr calls views0 m = Some (m', out) ->
  exists kept,
    out = Some kept /\
    forall m0, syncViews earlyOut tr calls kept m0 = Some (m0, Some kept).
Proof.
  intros Hne Hnd. unfold syncViews.
  destruct (foldM _ calls _) as [a|] eqn:Hf; [|done].
  destruct (updateLoop_first _ _ _ _ _ Hf Hnd) as (Hcn & Hin & _ & Hall).
  cbn in Hcn, Hin. rewrite Hcn, Hin, (names_recorded calls Hne).
  intros [= <- <-]. eexists. split; [reflexivity|]. intros m0.
  set (names := customNamesOf calls ++ indexNamesOf calls).
  set (kept := filter (fun kv => fst kv ∈ names) (a_views a)).
  rewrite updateLoop_same.
  - cbn. rewrite (names_recorded calls Hne). fold names.
    rewrite (map_filter_id _ kept).
    + by rewrite bool_decide_eq_true_2, orb_false_r.
    + intros i x Hix. by apply map_lookup_filter_Some_1_2 in Hix.
  - cbn. apply Forall_forall. intros c Hc.
    rewrite Forall_forall in Hall. destruct (Hall c Hc) as (def & Hdef & Heq).
    exists def. split; [done|].
    assert (Hkept : kept !! viewNameOf c = a_views a !! viewNameOf c).
    { unfold kept. destruct (a_views a !! viewNameOf c) as [x|] eqn:Hx.
      - apply map_lookup_filter_Some_2; [done|]. cbn.
        by apply viewNameOf_recorded.
      - apply map_lookup_filter_None_2. by left. }
    by rewrite Hkept.
Qed.

Lemma set_lists_same s : set_lists (lists s) s = s.
Proof. by destruct s. Qed.

(** When the list functions are not rewritten, some view is asked for and
    no two calls are about the same view, the design document that the
    callback computes is one it would not modify. *)
Lemma reconcile_stable earlyOut idx s found s' modified d :
  rewrittenLists earlyOut s = Some (lists s) ->
  updateCalls idx (views s) <> [] ->
  NoDup (List.map viewNameOf (updateCalls idx (views s))) ->
  reconcile earlyOut idx s found = (s', Some (modified, d)) ->
  s' = s /\ reconcile earlyOut idx s (Some d) = (s, Some (false, d)).
Proof.
  intros Hlists Hne Hnd. unfold reconcile. rewrite Hlists.
  rewrite set_lists_same.
  set (design := match found with Some d0 => d0 | None => _ end).
  destruct (syncFunctions false (d_updates design) (updates s))
    as [mu du] eqn:Hu.
  destruct (syncFunctions mu (d_lists design) (lists s)) as [ml dl] eqn:Hl.
  destruct (syncViews _ _ _ _ ml) as [[mv dv]|] eqn:Hv; [|done].
  intros [= <- <- <-]. split; [done|]. cbn.
  destruct (syncViews_stable _ _ _ _ _ _ _ Hne Hnd Hv) as (kept & -> & Hkept).
  pose proof (syncFunctions_stable false false (d_updates design) (updates s))
    as Hu'.
  rewrite Hu in Hu'. cbn in Hu'. rewrite Hu'.
  pose proof (syncFunctions_stable false mu (d_lists design) (lists s)) as Hl'.
  rewrite Hl in Hl'. cbn in Hl'. rewrite Hl'.
  by rewrite Hkept.
Qed.

End IdempotenceFacts.

Section QuietRuns.

Import JsString Indexes.

Variable toCollectionName : option string -> string.

Lemma something_to_do idx s :
  updateCalls idx (views s) <> [] -> nothingToDo idx s = false.
Proof.
  unfold updateCalls, nothingToDo. intros Hne.
  destruct idx as [|fields idx]; [|done].
  destruct (views s) as [cv|]; [done|].
  by destruct Hne.
Qed.

(** Idempotence where it holds: for a schema whose list functions are not
    rewritten (it is not a derived schema, or it declares no list function),
    that asks for some view and for no view twice, a run that follows a
    completed run writes nothing. *)
Theorem ensureIndexes_second_run_quiet cb m store designDoc earlyOut idx dv
    s' modified d :
  ensureIndexes_locals toCollectionName (modelName m) (schema_of m)
  = inr (designDoc, earlyOut, idx, dv) ->
  rewrittenLists earlyOut (schema_of m) = Some (lists (schema_of m)) ->
  updateCalls idx (views (schema_of m)) <> [] ->
  NoDup (List.map viewNameOf (updateCalls idx (views (schema_of m)))) ->
  reconcile earlyOut idx (schema_of m) (store !! ("_design/" +:+ designDoc))
  = (s', Some (modified, d)) ->
  exists m1 store1 m2,
    run toCollectionName cb m store = Completed m1 store1 /\
    run toCollectionName cb m1 store1 = Completed m2 store1 /\
    writes (trace m2) = writes (trace m1).
Proof.
  intros Hl Hlists Hne Hnd Hr.
  destruct (reconcile_stable _ _ _ _ _ _ _ Hlists Hne Hnd Hr) as (-> & Hr2).
  pose proof (something_to_do _ _ Hne) as Hn.
  destruct (run_completes toCollectionName cb m store _ _ _ _ _ _ _ Hl Hn Hr)
    as (m1 & Hrun1 & Hname1 & Hs1 & _ & _).
  set (id := "_design/" +:+ designDoc) in *.
  set (store1 := if modified then <[id := d]> store else store) in *.
  assert (Hr1 : reconcile earlyOut idx (schema_of m1) (store1 !! id)
                = (schema_of m, Some (false, d))).
  { rewrite Hs1. unfold store1. destruct modified.
    - by rewrite lookup_insert_eq.
    - exact Hr. }
  destruct (run_completes toCollectionName cb m1 store1 designDoc earlyOut idx
              dv (schema_of m) false d)
    as (m2 & Hrun2 & _ & _ & _ & Hw2).
  { by rewrite Hname1, Hs1. }
  { by rewrite Hs1. }
  { exact Hr1. }
  exists m1, store1, m2. split; [done|]. split; [done|].
  by rewrite Hw2, app_nil_r.
Qed.

End QuietRuns.

(** C1, evaluated on the code, for two schemas and two runs of
    [ensureIndexes] in succession against a store that is empty at first.

    A non-root discriminator schema with a custom list function, unchanged
    by its user between the runs: the first run writes the design document
    with the list function rewritten once and leaves the rewritten text in
    the schema; the second run rewrites that text again, finds it different
    from the stored one and writes the design document a second time.

    A root schema with an update handler and no view: the schema is the same
    after the first run, and the second run writes the same design document
    again. *)
Theorem ensureIndexes_second_run_writes
    (toCollectionName : option string -> string) :
  (let m := Indexes.compile "User" Fixtures.userWithLists in
   let id := "_design/" +:+ toCollectionName (Some "User") in
   exists m1 store1 m2 store2 d1 d2,
     Indexes.run toCollectionName false m ∅ = Indexes.Completed m1 store1 /\
     Indexes.run toCollectionName false m1 store1 = Indexes.Completed m2 store2 /\
     Indexes.writes (Indexes.trace m1) = [(id, d1)] /\
     Indexes.writes (Indexes.trace m2) = [(id, d1); (id, d2)] /\
     Indexes.d_lists d1 = Some {[ "allNames" := Fixtures.allNamesOnce ]} /\
     Indexes.d_lists d2 = Some {[ "allNames" := Fixtures.allNamesTwice ]} /\
     Fixtures.allNamesOnce <> Fixtures.allNamesTwice) /\
  (let m := Indexes.compile "Account" Fixtures.updatesOnly in
   exists m1 store1 m2 store2 d,
     Indexes.run toCollectionName false m ∅ = Indexes.Completed m1 store1 /\
     Indexes.schema_of m1 = Indexes.schema_of m /\
     Indexes.run toCollectionName false m1 store1 = Indexes.Completed m2 store2 /\
     Indexes.writes (Indexes.trace m1) = [("_design/$root", d)] /\
     Indexes.writes (Indexes.trace m2)
     = [("_design/$root", d); ("_design/$root", d)]).
Proof.
  split; [|do 5 eexists; repeat split; by vm_compute].
  intros m id.
  pose (eo := Indexes.earlyOut_of (Fixtures.kindOf "User")).
  pose (dv := Some (toCollectionName (Some "User") +:+ "/byName")).
  assert (Hl : Indexes.ensureIndexes_locals toCollectionName "User"
                 Fixtures.userWithLists
               = inr (toCollectionName (Some "User"), eo, [["name"]], dv))
    by reflexivity.
  (* first run *)
  let r := eval vm_compute in
    (Indexes.reconcile eo [["name"]] Fixtures.userWithLists None) in
  match r with
  | (?s, Some (?b, ?d)) =>
      pose (s1 := s); pose (d1 := d);
      assert (Hr1 : Indexes.reconcile eo [["name"]] Fixtures.userWithLists None
                    = (s1, Some (true, d1))) by (vm_compute; reflexivity)
  end.
  destruct (run_completes toCollectionName false m ∅ _ _ _ _ s1 true d1 Hl eq_refl)
    as (m1 & Hrun1 & Hname1 & Hs1 & _ & Hw1).
  { by rewrite lookup_empty. }
  (* second run *)
  let r := eval vm_compute in
    (Indexes.reconcile eo [["name"]] s1 (Some d1)) in
  match r with
  | (?s, Some (?b, ?d)) =>
      pose (s2 := s); pose (d2 := d);
      assert (Hr2 : Indexes.reconcile eo [["name"]] s1 (Some d1)
                    = (s2, Some (true, d2))) by (vm_compute; reflexivity)
  end.
  destruct (run_completes toCollectionName false m1 (<[id := d1]> ∅)
              (toCollectionName (Some "User")) eo [["name"]] dv s2 true d2)
    as (m2 & Hrun2 & _ & _ & _ & Hw2).
  { rewrite Hname1, Hs1. exact Hl. }
  { by rewrite Hs1. }
  { rewrite Hs1. fold id. rewrite lookup_insert_eq. exact Hr2. }
  exists m1, (<[id := d1]> ∅), m2, (<[id := d2]> (<[id := d1]> ∅)), d1, d2.
  split; [exact Hrun1|]. split; [exact Hrun2|].
  split; [exact Hw1|]. split; [by rewrite Hw2, Hw1|].
  split; [by vm_compute|]. split; [by vm_compute|].
  by vm_compute.
Qed.

(** A schema with views only: the second run finds nothing to write. *)
Example ensureIndexes_views_only_idempotent
    (toCollectionName : option string -> string) :
  exists m2 store2 d,
    Indexes.run_twice toCollectionName false
      (Indexes.compile "NamedEntity" Fixtures.namedEntity) ∅
    = Indexes.Completed m2 store2 /\
    Indexes.writes (Indexes.trace m2) = [("_design/$root", d)] /\
    Collection.ensuringIndexes (Indexes.collection m2) = 0%Z.
Proof. do 3 eexists. split; [|split]; by vm_compute. Qed.

Section GuardFacts.

Import JsString Indexes.

(** A replacement text without [$]-patterns is inserted as it is. *)
Lemma substitute_plain matched before after repl :
  plain repl = true -> substitute matched before after repl = repl.
Proof.
  induction repl as [|c tl IH]; [done|].
  intros H.
  assert (Htl : plain tl = true).
  { cbn in H. destruct (Ascii.eqb c "$"); [|done].
    destruct tl as [|d tl']; [done|]. by apply andb_prop in H as [_ H]. }
  specialize (IH Htl).
  destruct (Ascii.eqb c "$") eqn:Hc.
  - destruct tl as [|d tl']; [by cbn; rewrite Hc|].
    cbn [plain] in H. rewrite Hc in H.
    apply andb_prop in H as [H _]. apply negb_true_iff in H.
    repeat (apply orb_false_elim in H as [H ?]).
    change (substitute matched before after (String c (String d tl')))
      with (if Ascii.eqb c "$"
            then if Ascii.eqb d "$"
                 then String "$" (substitute matched before after tl')
                 else if Ascii.eqb d "&"
                 then matched +:+ substitute matched before after tl'
                 else if Ascii.eqb d "`"
                 then before +:+ substitute matched before after tl'
                 else if Ascii.eqb d "'"
                 then after +:+ substitute matched before after tl'
                 else String c (substitute matched before after (String d tl'))
            else String c (substitute matched before after (String d tl'))).
    rewrite Hc. repeat match goal with E : _ = false |- _ => rewrite E; clear E end.
    by rewrite IH.
  - change (substitute matched before after (String c tl))
      with (if Ascii.eqb c "$"
            then match tl with
                 | String d tl' =>
                     if Ascii.eqb d "$"
                     then String "$" (substitute matched before after tl')
                     else if Ascii.eqb d "&"
                     then matched +:+ substitute matched before after tl'
                     else if Ascii.eqb d "`"
                     then before +:+ substitute matched before after tl'
                     else if Ascii.eqb d "'"
                     then after +:+ substitute matched before after tl'
                     else String c (substitute matched before after tl)
                 | EmptyString => String c EmptyString
                 end
            else String c (substitute matched before after tl)).
    rewrite Hc. by rewrite IH.
Qed.

(** The guard goes right after the first brace of the map text. *)
Lemma guardMap_spliced earlyOut src before after :
  find_first "{" src = Some (before, after) ->
  plain earlyOut = true ->
  guardMap earlyOut src = before +:+ "{" +:+ earlyOut +:+ after.
Proof.
  intros Hf Hp. unfold guardMap, replace. rewrite Hf.
  change ("{" +:+ earlyOut) with (String "{"%char earlyOut).
  cbn [substitute]. change (Ascii.eqb "{" "$") with false. cbn iota.
  by rewrite substitute_plain.
Qed.

(** A map text without a brace is left as it is. *)
Lemma guardMap_no_brace earlyOut src :
  find_first "{" src = None -> guardMap earlyOut src = src.
Proof. intros Hf. unfold guardMap, replace. by rewrite Hf. Qed.

(** The map synthesized for an indexed field starts with the guard. *)
Lemma definition_field_guarded earlyOut tr name index :
  tr !! name = Some index ->
  definition earlyOut tr name None =
    Some {[ "map" := "function(doc){" +:+ earlyOut +:+ "emit(doc." +:+ name
                     +:+ default "" index +:+ ",doc);}" ]}.
Proof. intros Ht. unfold definition. rewrite Ht. by destruct index. Qed.

End GuardFacts.

(** ** Index synthesis: the maps of the design document *)

Section MapFacts.

Import JsString Indexes.

Lemma hasEquivalentFunctions_lookup (a b : gmap string string) k v :
  hasEquivalentFunctions (Some a) (Some b) = true ->
  a !! k = Some v -> b !! k = Some v.
Proof.
  cbn. rewrite forallb_forall. intros Hall Hk.
  specialize (Hall (k, v)). cbn in Hall.
  eapply bool_decide_unpack, Is_true_true_2, Hall, list_elem_of_In.
  by apply elem_of_map_to_list.
Qed.

(** The map of the [def] built by [maybeUpdateIndex]. *)
Lemma definition_map earlyOut tr name spec def text :
  definition earlyOut tr name spec = Some def ->
  def !! "map" = Some text ->
  match spec with
  | None => exists keyModifier, text = fieldMap earlyOut name keyModifier
  | Some sp =>
      exists src,
        map sp = Some src /\
        text = if truthy (Some earlyOut) then guardMap earlyOut src else src
  end.
Proof.
  unfold definition. destruct spec as [sp|].
  - intros [= <-].
    assert (Hred : forall (base : gmap string string),
              match reduce sp with
              | Some src =>
                  if truthy (Some src) then <["reduce" := src]> base else base
              | None => base
              end !! "map" = base !! "map").
    { intros base. destruct (reduce sp) as [r|]; [|done].
      destruct (truthy (Some r)); [|done]. by rewrite lookup_insert_ne. }
    rewrite Hred.
    destruct (map sp) as [src|]; lazy beta iota; [|by rewrite lookup_empty].
    destruct (negb (String.eqb src "")); [|by rewrite lookup_empty].
    rewrite lookup_insert_eq. intros [= <-]. by exists src.
  - destruct (tr !! name) as [index|]; [|done].
    intros [= <-]. rewrite lookup_singleton_eq. intros [= <-]. by eexists.
Qed.

Lemma name_of_call k calls :
  k ∈ customNamesOf calls ++ indexNamesOf calls ->
  exists c, c ∈ calls /\ k = viewNameOf c.
Proof.
  induction calls as [|c calls IH].
  - cbn. by intros ?%elem_of_nil.
  - rewrite customNamesOf_cons, indexNamesOf_cons, !elem_of_app.
    intros [[Hk|Hk]|[Hk|Hk]].
    + destruct c as [name [sp|]]; cbn in Hk.
      * apply elem_of_cons in Hk as [->|?%elem_of_nil]; [|done].
        eexists. split; [by left|done].
      * by apply elem_of_nil in Hk.
    + destruct IH as (c' & Hc' & ->); [apply elem_of_app; by left|].
      exists c'. split; [by right|done].
    + destruct c as [name [sp|]]; cbn in Hk.
      * by apply elem_of_nil in Hk.
      * apply elem_of_cons in Hk as [->|?%elem_of_nil]; [|done].
        eexists. split; [by left|done].
    + destruct IH as (c' & Hc' & ->); [apply elem_of_app; by right|].
      exists c'. split; [by right|done].
Qed.

(** Every map in the design document the callback computes is the map
    synthesized for an indexed field, guard first, or the text of a custom
    view after the splice of the guard at its first brace. *)
Theorem reconcile_maps earlyOut idx s found s' modified d vs k v text :
  NoDup (List.map viewNameOf (updateCalls idx (views s))) ->
  reconcile earlyOut idx s found = (s', Some (modified, d)) ->
  d_views d = Some vs ->
  vs !! k = Some v ->
  v !! "map" = Some text ->
  (exists name keyModifier,
     k = "by" +:+ capitalize name /\
     text = "function(doc){" +:+ earlyOut +:+ "emit(doc." +:+ name
            +:+ keyModifier +:+ ",doc);}") \/
  (exists sp src,
     (k, sp) ∈ default [] (views s) /\
     map sp = Some src /\
     text = if truthy (Some earlyOut) then guardMap earlyOut src else src).
Proof.
  intros Hnd. unfold reconcile.
  destruct (syncFunctions false _ (updates s)) as [mu du].
  destruct (rewrittenLists earlyOut s) as [customLists|]; [|done].
  destruct (syncFunctions mu _ customLists) as [ml dl].
  change (views (set_lists customLists s)) with (views s).
  change (tree (set_lists customLists s)) with (tree s).
  set (calls := updateCalls idx (views s)) in *.
  destruct (syncViews _ _ calls _ ml) as [[mv dv]|] eqn:Hv; [|done].
  intros [= <- <- <-]. cbn. intros -> Hk Hmap.
  unfold syncViews in Hv.
  destruct (foldM _ calls _) as [a|] eqn:Hf; [|done].
  destruct (updateLoop_first _ _ _ _ _ Hf Hnd) as (Hcn & Hin & _ & Hall).
  cbn in Hcn, Hin. rewrite Hcn, Hin in Hv.
  destruct (_ && _) in Hv; [done|].
  injection Hv as _ <-.
  apply map_lookup_filter_Some in Hk as [Hk Hname]. cbn in Hname.
  destruct (name_of_call _ _ Hname) as (c & Hc & ->).
  rewrite Forall_forall in Hall. destruct (Hall c Hc) as (def & Hdef & Heq).
  rewrite Hk in Heq.
  pose proof (hasEquivalentFunctions_lookup _ _ _ _ Heq Hmap) as Hdmap.
  pose proof (definition_map _ _ _ _ _ _ Hdef Hdmap) as Hshape.
  destruct c as [name [sp|]]; cbn in Hshape.
  - right. destruct Hshape as (src & Hsrc & ->). exists sp, src.
    split; [|done]. unfold calls, updateCalls in Hc.
    apply elem_of_app in Hc as [Hc|Hc].
    + apply list_elem_of_In, in_map_iff in Hc as (x & [=] & _).
    + apply list_elem_of_In, in_map_iff in Hc as ([k' sp'] & [= -> ->] & Hin').
      apply list_elem_of_In. by destruct (views s).
  - left. destruct Hshape as (km & ->). by exists name, km.
Qed.

End MapFacts.

(** The views written for [GroupSchema] of the example: every map carries
    the guard. *)
Example ensureIndexes_group_guarded
    (toCollectionName : option string -> string) :
  let guard := "if (doc['$kind'] !== 'Group') return;" in
  exists s d vs,
    Indexes.reconcile guard [["name"]; ["_id"]] Fixtures.group None
    = (s, Some (true, d)) /\
    Indexes.d_views d = Some vs /\
    vs !! "byName"
    = Some {[ "map" := "function(doc){" +:+ guard +:+ "emit(doc.name,doc);}" ]} /\
    vs !! "by_id"
    = Some {[ "map" := "function(doc){" +:+ guard +:+ "emit(doc._id,doc);}" ]} /\
    vs !! "displayNames"
    = Some {[ "map" := "function (doc) {" +:+ guard
                       +:+ " emit(doc.displayName.toLowerCase(), doc); }" ]}.
Proof. do 3 eexists. repeat split; by vm_compute. Qed.

(** C2, evaluated on the code: a variant whose custom view has its map
    written as an arrow function with an expression body.  The design
    document written for the variant has the guard in the maps synthesized
    for [name] and [_id]; the map of the custom view is the text it was
    given, without the guard. *)
Theorem ensureIndexes_arrow_map_unguarded
    (toCollectionName : option string -> string) :
  let m := Indexes.compile "Group" Fixtures.groupArrow in
  let id := "_design/" +:+ toCollectionName (Some "Group") in
  let guard := "if (doc['$kind'] !== 'Group') return;" in
  exists m1 store1 d vs,
    Indexes.run toCollectionName false m ∅ = Indexes.Completed m1 store1 /\
    Indexes.writes (Indexes.trace m1) = [(id, d)] /\
    store1 !! id = Some d /\
    Indexes.d_views d = Some vs /\
    vs !! "byName"
    = Some {[ "map" := "function(doc){" +:+ guard +:+ "emit(doc.name,doc);}" ]} /\
    vs !! "by_id"
    = Some {[ "map" := "function(doc){" +:+ guard +:+ "emit(doc._id,doc);}" ]} /\
    vs !! "displayNames" = Some {[ "map" := Fixtures.arrowMap ]} /\
    JsString.includes guard Fixtures.arrowMap = false.
Proof.
  intros m id guard.
  assert (Hl : Indexes.ensureIndexes_locals toCollectionName "Group"
                 Fixtures.groupArrow
               = inr (toCollectionName (Some "Group"), guard,
                      [["name"]; ["_id"]],
                      Some (toCollectionName (Some "Group") +:+ "/by_id")))
    by reflexivity.
  let r := eval vm_compute in
    (Indexes.reconcile guard [["name"]; ["_id"]] Fixtures.groupArrow None) in
  match r with
  | (?s, Some (?b, ?d)) =>
      pose (s1 := s); pose (d1 := d);
      assert (Hr1 : Indexes.reconcile guard [["name"]; ["_id"]]
                      Fixtures.groupArrow None
                    = (s1, Some (true, d1))) by (vm_compute; reflexivity)
  end.
  destruct (run_completes toCollectionName false m ∅ _ _ _ _ s1 true d1 Hl eq_refl)
    as (m1 & Hrun1 & _ & _ & _ & Hw1).
  { by rewrite lookup_empty. }
  exists m1, (<[id := d1]> ∅), d1.
  eexists. split; [exact Hrun1|]. split; [exact Hw1|].
  split; [by rewrite lookup_insert_eq|].
  split; [reflexivity|]. repeat split; by vm_compute.
Qed.

(** ** Discriminator registration *)

Section DiscriminatorFacts.

Import Discriminator.

(** Copying the ignored options keeps what the derived schema sets, unless
    the base sets the same ignored option. *)
Lemma copy_keeps (base : gmap string value) k v l : forall o : gmap string value,
  o !! k = Some v ->
  (k ∈ l -> base !! k = None) ->
  fold_left
    (fun (o : gmap string value) opt =>
       match base !! opt with
       | Some v => <[opt := v]> o
       | None => o
       end) l o !! k = Some v.
Proof.
  induction l as [|opt l IH]; intros o Ho Hk; cbn; [done|].
  apply IH.
  - destruct (base !! opt) as [w|] eqn:Hb; [|done].
    destruct (decide (opt = k)) as [->|Hne].
    + rewrite Hk in Hb; [done|]. by left.
    + by rewrite lookup_insert_ne.
  - intros Hin. apply Hk. by right.
Qed.

(** Aligning the customizable options leaves the other options alone. *)
Lemma align_other (b : gmap string value) k l : forall a : gmap string value,
  k ∉ l ->
  fold_left
    (fun (a : gmap string value) opt =>
       if truthy (b !! opt)
       then match b !! opt with Some v => <[opt := v]> a | None => a end
       else delete opt a) l a !! k = a !! k.
Proof.
  induction l as [|opt l IH]; intros a Hk; cbn; [done|].
  apply not_elem_of_cons in Hk as [Hne Hk].
  rewrite IH by done.
  destruct (truthy (b !! opt)).
  - destruct (b !! opt); [|done]. by rewrite lookup_insert_ne.
  - by rewrite lookup_delete_ne.
Qed.

Lemma validateOptions_rejects (child base : gmap string value) :
  setsOtherOption child base ->
  validateOptions (copyIgnored child base) base = false.
Proof.
  intros (k & v & Hc & Hv & Hb & Hi).
  unfold validateOptions, deepEqual. apply bool_decide_eq_false.
  intros Heq. apply Hb. rewrite <- Heq.
  unfold alignCustomizable. rewrite align_other by done.
  unfold merge. apply lookup_union_Some_l.
  unfold copyIgnored. by apply copy_keeps.
Qed.

End DiscriminatorFacts.

(** C9, as the code has it: [discriminator] throws, and registers nothing on
    the model, when the schema of the model is that of a derived model, when
    the discriminator key is a declared path of the schema passed in, or
    when that schema sets an option outside the customizable subset to a
    value that is not the root's, unless the option is [collection],
    [autoIndex] or [disableCache] and is set on the root (the root's value
    then replaces it). *)
Theorem discriminator_rejects (name : string) (child : Discriminator.schema)
    (this : Discriminator.model) :
  Discriminator.nonRoot (Discriminator.schema_of this) = true \/
  is_Some (Discriminator.paths child
           !! Discriminator.keyOf
                (Discriminator.options (Discriminator.schema_of this))) \/
  Discriminator.setsOtherOption (Discriminator.options child)
    (Discriminator.options (Discriminator.schema_of this)) ->
  exists msg arg,
    Discriminator.discriminator name (Some child) this
    = Discriminator.Threw msg this arg.
Proof.
  intros H. unfold Discriminator.discriminator.
  fold (Discriminator.nonRoot (Discriminator.schema_of this)).
  destruct (Discriminator.nonRoot (Discriminator.schema_of this)) eqn:Hroot;
    [by eauto|].
  destruct (bool_decide _) eqn:Hkey; [by eauto|].
  destruct H as [H | [H | H]]; [done | |].
  - apply bool_decide_eq_false in Hkey. done.
  - cbn [Discriminator.options Discriminator.set_options].
    rewrite (validateOptions_rejects _ _ H). cbn. by eauto.
Qed.

(** A derived schema that switches [strict] off. *)
Lemma discriminator_rejects_witness :
  exists msg arg,
    Discriminator.discriminator "User" (Some Registration.lenient)
      Registration.namedEntity
    = Discriminator.Threw msg Registration.namedEntity arg.
Proof.
  apply (discriminator_rejects "User" Registration.lenient
           Registration.namedEntity).
  right. right. exists "strict", (Discriminator.VBool false).
  split; [by apply (bool_decide_unpack _)|].
  split; [by vm_compute|]. split; [by vm_compute|].
  intros Hin. exfalso. revert Hin. by apply (bool_decide_unpack _).
Defined.

(** C9 as stated fails, in two ways.  [UserSchema] has [autoIndex] on and
    the root has it off, an option outside the customizable subset: the
    call does not throw and registers the derived model, with the root's
    [autoIndex].  And a derived schema that does not set [safe], which the
    root sets, differs from the root in that option and in nothing else:
    the call does not throw either, and the derived schema gets the root's
    [safe]. *)
Lemma discriminator_accepts_differing_options :
  (Discriminator.differsOutsideCustomizable
     (Discriminator.options Registration.user)
     (Discriminator.options
        (Discriminator.schema_of Registration.namedEntity)) /\
   exists this d,
     Discriminator.discriminator "User" (Some Registration.user)
       Registration.namedEntity
     = Discriminator.Registered this d /\
     Discriminator.registry this !! "User" = Some d /\
     Discriminator.options (Discriminator.derivedSchema d) !! "autoIndex"
     = Some (Discriminator.VBool false)) /\
  (Discriminator.differsOutsideCustomizable
     (Discriminator.options Registration.plainUser)
     (Discriminator.options
        (Discriminator.schema_of Registration.safeEntity)) /\
   Discriminator.options Registration.plainUser !! "safe" = None /\
   (forall k, k <> "safe" ->
      Discriminator.options Registration.plainUser !! k
      = Discriminator.options
          (Discriminator.schema_of Registration.safeEntity) !! k) /\
   exists this d,
     Discriminator.discriminator "User" (Some Registration.plainUser)
       Registration.safeEntity
     = Discriminator.Registered this d /\
     Discriminator.registry this !! "User" = Some d /\
     Discriminator.options (Discriminator.derivedSchema d) !! "safe"
     = Some (Discriminator.VBool true)).
Proof.
  split.
  - split.
    + exists "autoIndex". split; [by apply (bool_decide_unpack _)|].
      by vm_compute.
    + do 2 eexists. split; [by vm_compute|]. split; by vm_compute.
  - split; [|split; [|split]].
    + exists "safe". split; [by apply (bool_decide_unpack _)|].
      by vm_compute.
    + by vm_compute.
    + intros k Hk. unfold Registration.plainUser, Registration.safeEntity.
      cbn. by rewrite (lookup_insert_ne _ "safe" k).
    + do 2 eexists. split; [by vm_compute|]. split; by vm_compute.
Qed.

(** Registering [UserSchema] twice: the second call throws. *)
Example discriminator_twice :
  exists this d msg arg,
    Discriminator.discriminator "User" (Some Registration.user)
      Registration.namedEntity
    = Discriminator.Registered this d /\
    Discriminator.discriminatorMapping (Discriminator.schema_of this)
    = Some {| Indexes.key := "$kind"; Indexes.value := None;
              Indexes.isRoot := true |} /\
    Discriminator.discriminatorMapping (Discriminator.derivedSchema d)
    = Some {| Indexes.key := "$kind"; Indexes.value := Some "User";
              Indexes.isRoot := false |} /\
    Discriminator.discriminator "User" (Some Registration.user) this
    = Discriminator.Threw msg this arg.
Proof. do 4 eexists. repeat split; by vm_compute. Qed.

(* ===================================================================== *)
(** * Further properties of the code *)
(* ===================================================================== *)

(** ** The gates of the command queue *)

Section GateFacts.

Import Collection Gates.

Lemma bootstraps_app xs ys : bootstraps (xs ++ ys) = bootstraps xs + bootstraps ys.
Proof.
  induction xs as [|x xs IH]; [done|].
  destruct x; cbn; by rewrite ?IH.
Qed.

Lemma called_app xs ys : called (xs ++ ys) = called xs ++ called ys.
Proof.
  induction xs as [|x xs IH]; [done|].
  destruct x; cbn; by rewrite ?IH.
Qed.

(** One call at the gates. *)
Lemma submit_step c e :
  let c' := submit c e in
  buffer c' = buffer c /\
  ensuringIndexes c' = ensuringIndexes c /\
  bufferCommands c' = bufferCommands c /\
  queue c' = queue c ++ (if deferred c e then [e] else []) /\
  ensuringDb c' = ensuringDb c || deferred c e /\
  effects c' =
    effects c ++ (if deferred c e && negb (ensuringDb c) then [EnsureDb] else []).
Proof.
  unfold submit, maybeQueueCall, deferred. destruct e as [f w a]. cbn.
  destruct (buffer c || w && indexing c); cbn.
  - destruct (ensuringDb c) eqn:He; cbn; rewrite ?He, ?app_nil_r; done.
  - by rewrite !app_nil_r, orb_false_r.
Qed.

Lemma existsb_same {A} (f g : A -> bool) (l : list A) :
  (forall x, f x = g x) -> existsb f l = existsb g l.
Proof. intros H. induction l as [|x l IH]; [done|]. cbn. by rewrite H, IH. Qed.

End GateFacts.

(** The queue, the effects and the bootstrap flag after a sequence of
    calls. *)
Lemma submit_all_state (es : list Collection.entry)
    (c : Collection.t) :
  let c' := Collection.submit_all es c in
  Collection.queue c' =
    Collection.queue c ++ List.filter (Gates.deferred c) es /\
  Collection.effects c' =
    Collection.effects c
    ++ (if existsb (Gates.deferred c) es && negb (Collection.ensuringDb c)
        then [Collection.EnsureDb] else []) /\
  Collection.ensuringDb c' =
    Collection.ensuringDb c || existsb (Gates.deferred c) es.
Proof.
  revert c. induction es as [|e es IH]; intros c; cbn.
  - by rewrite !app_nil_r, orb_false_r.
  - destruct (submit_step c e) as (Hb & Hi & _ & Hq & Hd & He).
    set (c1 := Collection.submit c e) in *.
    assert (Hdef : forall x, Gates.deferred c1 x = Gates.deferred c x).
    { intros x. unfold Gates.deferred, Collection.indexing. by rewrite Hb, Hi. }
    destruct (IH c1) as (Hq' & He' & Hd').
    unfold Collection.submit_all in *. rewrite Hq', He', Hd', Hq, He, Hd.
    rewrite (List.filter_ext _ _ Hdef), (existsb_same _ _ _ Hdef).
    destruct (Gates.deferred c e), (Collection.ensuringDb c),
      (existsb (Gates.deferred c) es); cbn;
      by rewrite <- ?app_assoc, ?app_nil_r.
Qed.

(** X1: whatever calls arrive at a collection, those that meet a closed gate
    are queued in the order of their arrival, the others are left to their
    callers, and [ensureDb] is started by the first deferred call when no
    bootstrap is in flight, and by no other call. *)
Theorem submit_all_single_bootstrap (es : list Collection.entry)
    (c : Collection.t) :
  let c' := Collection.submit_all es c in
  Collection.queue c' =
    Collection.queue c ++ List.filter (Gates.deferred c) es /\
  Collection.effects c' =
    Collection.effects c
    ++ (if existsb (Gates.deferred c) es && negb (Collection.ensuringDb c)
        then [Collection.EnsureDb] else []) /\
  Collection.ensuringDb c' =
    Collection.ensuringDb c || existsb (Gates.deferred c) es.
Proof.
  revert c. induction es as [|e es IH]; intros c; cbn.
  - by rewrite !app_nil_r, orb_false_r.
  - destruct (submit_step c e) as (Hb & Hi & _ & Hq & Hd & He).
    set (c1 := Collection.submit c e) in *.
    assert (Hdef : forall x, Gates.deferred c1 x = Gates.deferred c x).
    { intros x. unfold Gates.deferred, Collection.indexing. by rewrite Hb, Hi. }
    destruct (IH c1) as (Hq' & He' & Hd').
    unfold Collection.submit_all in *. rewrite Hq', He', Hd', Hq, He, Hd.
    rewrite (List.filter_ext _ _ Hdef), (existsb_same _ _ _ Hdef).
    destruct (Gates.deferred c e), (Collection.ensuringDb c),
      (existsb (Gates.deferred c) es); cbn;
      by rewrite <- ?app_assoc, ?app_nil_r.
Qed.

Section FlushFacts.

Import Collection Gates.

Lemma filter_held_twice idx (l : list entry) :
  List.filter (held idx) (List.filter (held idx) l) = List.filter (held idx) l.
Proof.
  induction l as [|e l IH]; [done|]. cbn.
  destruct (held idx e) eqn:He; cbn; by rewrite ?He, IH.
Qed.

Lemma filter_not_held_of_held idx (l : list entry) :
  List.filter (fun e => negb (held idx e)) (List.filter (held idx) l) = [].
Proof.
  induction l as [|e l IH]; [done|]. cbn.
  destruct (held idx e) eqn:He; cbn; by rewrite ?He, ?IH.
Qed.

Lemma doQueue_state c :
  queue (doQueue c) = List.filter (held (indexing c)) (queue c) /\
  applied (effects (doQueue c)) =
    applied (effects c)
    ++ List.filter (fun e => negb (held (indexing c) e)) (queue c) /\
  buffer (doQueue c) = buffer c /\
  ensuringDb (doQueue c) = ensuringDb c /\
  ensuringIndexes (doQueue c) = ensuringIndexes c.
Proof.
  destruct (doQueue_loop (indexing c) (queue c) (set_queue [] c))
    as (Hq & Ha & Hb & Hd & Hi).
  done.
Qed.

Lemma doQueue_effects_only_applied c :
  bootstraps (effects (doQueue c)) = bootstraps (effects c) /\
  called (effects (doQueue c)) = called (effects c).
Proof.
  unfold doQueue. generalize (indexing c). intros idx.
  assert (H : forall es c0,
            bootstraps (effects (fold_left (doQueue_step idx) es c0))
            = bootstraps (effects c0) /\
            called (effects (fold_left (doQueue_step idx) es c0))
            = called (effects c0)).
  { induction es as [|e es IH]; intros c0; [done|]. cbn.
    destruct (IH (doQueue_step idx c0 e)) as [-> ->].
    unfold doQueue_step. destruct (waitForIndexes e && idx); cbn; [done|].
    by rewrite bootstraps_app, called_app, Nat.add_0_r, app_nil_r. }
  apply (H (queue c) (set_queue [] c)).
Qed.

Lemma submit_all_count l : forall c,
  ensuringIndexes (submit_all l c) = ensuringIndexes c.
Proof.
  induction l as [|e l IH]; intros c; [done|]. cbn.
  unfold submit_all in IH. rewrite IH.
  by destruct (submit_step c e) as (_ & -> & _).
Qed.

End FlushFacts.

(** X2: on a queue of driver calls a second [doQueue] right after the
    first sends nothing more to the store and leaves the queue as it is.
    On a collection that does not buffer, what the first flush leaves in
    the queue waits for indexes, and is left there only while index
    synthesis is in progress; on a collection that buffers the first flush
    already sends nothing and leaves the queue in its order. *)
Theorem doQueue_twice (d : Driver.t) :
  let c := Driver.collection d in
  let d1 := Driver.doQueue d in
  let d2 := Driver.doQueue d1 in
  Collection.queue (Driver.collection d2)
  = Collection.queue (Driver.collection d1) /\
  Driver.executed d2 = Driver.executed d1 /\
  (Collection.buffer c = false ->
   Forall (fun e => Collection.waitForIndexes e = true)
     (Collection.queue (Driver.collection d1)) /\
   (Collection.indexing c = false ->
    Collection.queue (Driver.collection d1) = [])) /\
  (Collection.buffer c = true ->
   Collection.queue (Driver.collection d1) = Collection.queue c /\
   Driver.executed d1 = Driver.executed d).
Proof.
  intros c d1 d2.
  destruct (Collection.buffer c) eqn:Hb.
  - destruct (doQueue_buffering d Hb) as (Hq & Hx & Hb1 & _).
    destruct (doQueue_buffering d1 Hb1) as (Hq2 & Hx2 & _).
    fold d1 in Hq, Hx. fold d2 in Hq2, Hx2.
    split; [done|]. split; [done|]. split; [done|]. done.
  - destruct (doQueue_open d Hb) as (Hc & Hx). fold d1 c in Hc, Hx.
    destruct (doQueue_state c) as (Hq1 & _ & Hb1 & _ & Hi1).
    assert (Hopen1 : Collection.buffer (Driver.collection d1) = false).
    { by rewrite Hc, Hb1. }
    destruct (doQueue_open d1 Hopen1) as (Hc2 & Hx2). fold d2 in Hc2, Hx2.
    destruct (doQueue_state (Driver.collection d1)) as (Hq2 & _).
    assert (Hidx : Collection.indexing (Driver.collection d1)
                   = Collection.indexing c).
    { unfold Collection.indexing. by rewrite Hc, Hi1. }
    split; [|split; [|split; [|done]]].
    + rewrite Hc2, Hq2, Hidx, Hc, Hq1. apply filter_held_twice.
    + rewrite Hx2, Hidx, Hc, Hq1, filter_not_held_of_held.
      by rewrite app_nil_r.
    + intros _. rewrite Hc, Hq1. split.
      * apply List.Forall_forall. intros e He. apply filter_In in He as [_ He].
        unfold Collection.held in He. by apply andb_true_iff in He as [? _].
      * intros Hf. rewrite Hf. apply held_none.
Qed.

(** X29: on a collection that does not buffer, [doQueue] sends to the
    store exactly the calls it applies, in that order, and leaves the
    collection as the loop alone does: there the method an entry names
    passes [maybeQueueCall] at once. *)
Theorem doQueue_applied_reach_store (d : Driver.t) :
  Collection.buffer (Driver.collection d) = false ->
  let c := Driver.collection d in
  let newly :=
    List.filter (fun e => negb (Collection.held (Collection.indexing c) e))
      (Collection.queue c) in
  Driver.collection (Driver.doQueue d) = Collection.doQueue c /\
  Driver.executed (Driver.doQueue d) = Driver.executed d ++ newly /\
  Collection.applied (Collection.effects (Collection.doQueue c))
  = Collection.applied (Collection.effects c) ++ newly.
Proof.
  intros Hb c newly.
  destruct (doQueue_open d Hb) as (Hc & Hx).
  destruct (doQueue_state c) as (_ & Ha & _).
  done.
Qed.

(** Three calls queued while the collection buffered, flushed once it is
    open and while indexes are still being built. *)
Lemma doQueue_applied_reach_store_witness :
  let op1 := Collection.Entry "insert" false ["doc1"] in
  let op2 := Collection.Entry "findWithView" true ["$root/byName"] in
  let op3 := Collection.Entry "remove" false ["doc1"] in
  let c := Collection.set_buffer false
             (Collection.submit_all [op1; op2; op3]
                (Collection.set_ensuringIndexes 1 (Collection.create true))) in
  let d := {| Driver.collection := c; Driver.executed := [] |} in
  Driver.executed (Driver.doQueue d) = [op1; op3] /\
  Collection.applied (Collection.effects (Collection.doQueue c)) = [op1; op3] /\
  Collection.queue (Driver.collection (Driver.doQueue d)) = [op2].
Proof.
  intros op1 op2 op3 c d.
  destruct (doQueue_applied_reach_store d eq_refl) as (Hc & Hx & Ha).
  split; [exact Hx|]. split; [exact Ha|]. by rewrite Hc.
Defined.

(** X3: once [onOpen] has run, a call is deferred only if it waits for
    indexes while index synthesis is in progress; the entries the collection
    still holds are of that kind, and no bootstrap is marked in flight. *)
Theorem onOpen_gates (c : Collection.t) (f : string) (wait : bool)
    (a : list string) :
  let c1 := Collection.onOpen c in
  fst (Collection.maybeQueueCall f wait a c1) = wait && Collection.indexing c /\
  Collection.buffer c1 = false /\
  Collection.ensuringDb c1 = false /\
  Collection.queue c1 =
    List.filter (Collection.held (Collection.indexing c)) (Collection.queue c).
Proof.
  intros c1. unfold c1, Collection.onOpen.
  set (c0 := Collection.set_ensuringDb false (Collection.set_buffer false c)).
  destruct (doQueue_state c0) as (Hq & _ & Hb & Hd & Hi).
  assert (Hidx : Collection.indexing (Collection.doQueue c0)
                 = Collection.indexing c).
  { unfold Collection.indexing. by rewrite Hi. }
  split; [|done].
  unfold Collection.maybeQueueCall. rewrite Hb, Hidx. cbn.
  by destruct (wait && Collection.indexing c).
Qed.

(** X4: on a collection that buffers commands, after [onClose] every call is
    deferred again, the entries already queued stay queued, and the first
    deferred call starts [ensureDb] once more, whether or not a bootstrap was
    in flight before the close. *)
Theorem onClose_rebuffers (c : Collection.t) (f : string) (wait : bool)
    (a : list string) :
  Collection.bufferCommands c = true ->
  let c1 := Collection.onClose c in
  let c2 := snd (Collection.maybeQueueCall f wait a c1) in
  Collection.queue c1 = Collection.queue c /\
  fst (Collection.maybeQueueCall f wait a c1) = true /\
  Collection.queue c2 = Collection.queue c ++ [Collection.Entry f wait a] /\
  Gates.bootstraps (Collection.effects c2)
  = S (Gates.bootstraps (Collection.effects c)).
Proof.
  intros Hb c1 c2. unfold c2, c1, Collection.onClose. rewrite Hb.
  unfold Collection.maybeQueueCall. cbn.
  rewrite bootstraps_app. cbn. split; [done|]. split; [done|].
  split; [done|]. lia.
Qed.

(** A collection that lost its connection while a bootstrap was in flight. *)
Lemma onClose_rebuffers_witness :
  let c := Collection.onOpen
             (snd (Collection.maybeQueueCall "insert" false ["doc1"]
                     (Collection.create true))) in
  let c2 := snd (Collection.maybeQueueCall "findById" false ["doc1"]
                   (Collection.onClose c)) in
  Collection.queue c2 = [Collection.Entry "findById" false ["doc1"]] /\
  Gates.bootstraps (Collection.effects c2) = 2.
Proof.
  intros c c2.
  destruct (onClose_rebuffers c "findById" false ["doc1"] eq_refl)
    as (_ & _ & Hq & Hn).
  split; [exact Hq | exact Hn].
Defined.

(** X5: [callOrDeferUntilOpen] runs the function once: at once, with
    [true], when no gate holds the call, and otherwise from the queue, as an
    entry without arguments, by the flush that finds the gates open. *)
Theorem callOrDeferUntilOpen_once (c : Collection.t) (f : string)
    (dontWaitForIndexes : bool) :
  let e := Collection.Entry f (negb dontWaitForIndexes) [] in
  let c1 := Collection.callOrDeferUntilOpen f dontWaitForIndexes c in
  Gates.called (Collection.effects c1) =
    Gates.called (Collection.effects c)
    ++ (if Gates.deferred c e then [] else [f]) /\
  Collection.queue c1 =
    Collection.queue c ++ (if Gates.deferred c e then [e] else []) /\
  Collection.applied (Collection.effects c1) =
    Collection.applied (Collection.effects c) /\
  (Collection.indexing c = false ->
   Collection.applied (Collection.effects (Collection.onOpen c1)) =
     Collection.applied (Collection.effects c) ++ Collection.queue c1 /\
   Gates.called (Collection.effects (Collection.onOpen c1)) =
     Gates.called (Collection.effects c1)).
Proof.
  intros e c1.
  assert (Hc1 : c1 = if Gates.deferred c e
                     then Collection.submit c e
                     else Collection.emit (Collection.Called f) c).
  { unfold c1, Collection.callOrDeferUntilOpen, Collection.submit,
      Collection.maybeQueueCall, Gates.deferred. cbn.
    by destruct (Collection.buffer c || _). }
  destruct (submit_step c e) as (Hb & Hi & _ & Hq & _ & He).
  assert (Hfacts :
    Gates.called (Collection.effects c1) =
      Gates.called (Collection.effects c)
      ++ (if Gates.deferred c e then [] else [f]) /\
    Collection.queue c1 =
      Collection.queue c ++ (if Gates.deferred c e then [e] else []) /\
    Collection.applied (Collection.effects c1) =
      Collection.applied (Collection.effects c) /\
    Collection.ensuringIndexes c1 = Collection.ensuringIndexes c).
  { rewrite Hc1. destruct (Gates.deferred c e) eqn:Hd.
    - rewrite Hq, He, Hi, called_app, applied_app.
      destruct (negb (Collection.ensuringDb c)); cbn; by rewrite ?app_nil_r.
    - cbn. by rewrite called_app, applied_app, !app_nil_r. }
  destruct Hfacts as (Hcalled & Hqueue & Happlied & Hcount).
  split; [done|]. split; [done|]. split; [done|].
  intros Hidx. unfold Collection.onOpen.
  set (c0 := Collection.set_ensuringDb false (Collection.set_buffer false c1)).
  destruct (doQueue_state c0) as (_ & Ha & _).
  destruct (doQueue_effects_only_applied c0) as (_ & Hc).
  assert (Hidx0 : Collection.indexing c0 = false).
  { unfold Collection.indexing in *. cbn. by rewrite Hcount. }
  rewrite Ha, Hc, Hidx0, not_held_all. cbn. by rewrite Happlied.
Qed.

(** ** Index synthesis and the queue *)

Section SynthesisFacts.

Import JsString Indexes.

Variable toCollectionName : option string -> string.

(** What the first part of [ensureIndexes] does to the model when it reaches
    the store. *)
Lemma ensureIndexes_reading cb m designDoc earlyOut idx m1 :
  ensureIndexes toCollectionName cb m = Reading designDoc earlyOut idx m1 ->
  exists dv,
    ensureIndexes_locals toCollectionName (modelName m) (schema_of m)
    = inr (designDoc, earlyOut, idx, dv) /\
    nothingToDo idx (schema_of m) = false /\
    m1 = log (FindById ("_design/" +:+ designDoc))
           (set_defaultView dv
              (set_collection
                 (Collection.set_ensuringIndexes
                    (Collection.ensuringIndexes (collection m) + 1)
                    (collection m)) m)).
Proof.
  unfold ensureIndexes.
  destruct (ensureIndexes_locals _ _ _) as [e|[[[dd eo] ix] dv]]; [done|].
  destruct (nothingToDo ix (schema_of m)) eqn:Hn; [done|].
  intros [= <- <- <- <-]. by exists dv.
Qed.

(** The callback touches neither the collection nor the default view. *)
Lemma withDesign_frame designDoc earlyOut idx found m :
  match withDesign designDoc earlyOut idx found m with
  | Crashed m' => collection m' = collection m /\ trace m' = trace m
  | Writing id d m' =>
      collection m' = collection m /\
      trace m' = trace m ++ [InsertDesign id d] /\
      id = "_design/" +:+ designDoc
  | Unmodified m' => collection m' = collection m /\ trace m' = trace m
  end.
Proof.
  unfold withDesign.
  destruct (reconcile earlyOut idx (schema_of m) found) as [s [[[] d]|]]; done.
Qed.

(** What [done] does to the collection. *)
Lemma done_collection cb err m :
  collection (done cb err m) =
    let n := (Collection.ensuringIndexes (collection m) - 1)%Z in
    let c := Collection.set_ensuringIndexes n (collection m) in
    if (n =? 0)%Z then Collection.doQueue c else c.
Proof. unfold done. by destruct cb. Qed.

(** A call of [maybeUpdateIndex] that throws makes the loop throw. *)
Lemma updateLoop_throws earlyOut tr calls c :
  c ∈ calls ->
  definition earlyOut tr (fst c) (snd c) = None ->
  forall a, foldM (maybeUpdateIndex earlyOut tr) calls a = None.
Proof.
  intros Hin Hdef. induction calls as [|c' calls IH]; intros a.
  - by apply elem_of_nil in Hin.
  - cbn. apply elem_of_cons in Hin as [<-|Hin].
    + unfold maybeUpdateIndex. destruct c as [name spec]. cbn in Hdef.
      by rewrite Hdef.
    + destruct (maybeUpdateIndex earlyOut tr a c'); [|done]. by apply IH.
Qed.

End SynthesisFacts.

(** X6: calls that wait for indexes and arrive while [ensureIndexes] is at
    work on an open collection are queued, and the [done] of that run,
    whether the write succeeded or failed, brings the counter back to zero
    and applies them, after what the queue held before, in the order of
    their arrival. *)
Theorem synthesis_releases_gated_calls
    (toCollectionName : option string -> string) (cb : bool)
    (m m1 : Indexes.model) (designDoc earlyOut : string)
    (idx : list (list string)) (es : list Collection.entry)
    (found : option Indexes.design) (err : option string) :
  Indexes.ensureIndexes toCollectionName cb m
  = Indexes.Reading designDoc earlyOut idx m1 ->
  Collection.ensuringIndexes (Indexes.collection m) = 0%Z ->
  Collection.buffer (Indexes.collection m) = false ->
  Forall (fun e => Collection.waitForIndexes e = true) es ->
  let queued :=
    Indexes.set_collection
      (Collection.submit_all es (Indexes.collection m1)) m1 in
  Collection.queue (Indexes.collection queued)
  = Collection.queue (Indexes.collection m) ++ es /\
  Collection.applied (Collection.effects (Indexes.collection queued))
  = Collection.applied (Collection.effects (Indexes.collection m)) /\
  forall m2,
    (exists id d,
       Indexes.withDesign designDoc earlyOut idx found queued
       = Indexes.Writing id d m2) \/
    Indexes.withDesign designDoc earlyOut idx found queued
    = Indexes.Unmodified m2 ->
    let m3 := Indexes.done cb err m2 in
    Collection.ensuringIndexes (Indexes.collection m3) = 0%Z /\
    Collection.queue (Indexes.collection m3) = [] /\
    Collection.applied (Collection.effects (Indexes.collection m3))
    = Collection.applied (Collection.effects (Indexes.collection m))
      ++ Collection.queue (Indexes.collection m) ++ es.
Proof.
  intros Hread Hzero Hopen Hall queued.
  destruct (ensureIndexes_reading _ _ _ _ _ _ _ Hread) as (dv & _ & _ & ->).
  set (c1 := Collection.set_ensuringIndexes
               (Collection.ensuringIndexes (Indexes.collection m) + 1)
               (Indexes.collection m)) in *.
  assert (Hdef : List.filter (Gates.deferred c1) es = es).
  { clear queued. induction Hall as [|e es He _ IH]; [done|]. cbn.
    unfold Gates.deferred at 1, Collection.indexing. cbn.
    rewrite He, Hzero, Hopen. cbn. by rewrite IH. }
  destruct (submit_all_state es c1) as (Hq & He & _).
  assert (Hqueued : Indexes.collection queued = Collection.submit_all es c1)
    by done.
  assert (Hcount : Collection.ensuringIndexes (Collection.submit_all es c1)
                   = 1%Z).
  { rewrite submit_all_count. unfold c1. cbn. by rewrite Hzero. }
  rewrite Hdef in Hq.
  split; [by rewrite Hqueued, Hq|]. split.
  { rewrite Hqueued, He, applied_app.
    destruct (_ && _); cbn; by rewrite app_nil_r. }
  intros m2 Hwd m3.
  pose proof (withDesign_frame designDoc earlyOut idx found queued) as Hfr.
  assert (Hcoll : Indexes.collection m2 = Collection.submit_all es c1).
  { destruct Hwd as [(id & d & Hwd)|Hwd]; rewrite Hwd in Hfr;
      destruct Hfr as (-> & _); done. }
  set (c2 := Collection.set_ensuringIndexes 0 (Collection.submit_all es c1)).
  assert (Hm3 : Indexes.collection m3 = Collection.doQueue c2).
  { unfold m3. rewrite done_collection, Hcoll, Hcount. done. }
  destruct (doQueue_state c2) as (Hq2 & Ha2 & _ & _ & Hi2).
  assert (Hidx : Collection.indexing c2 = false) by done.
  rewrite Hidx in Hq2, Ha2. rewrite held_none in Hq2.
  rewrite not_held_all in Ha2. rewrite Hm3.
  split; [done|]. split; [done|].
  rewrite Ha2. cbn. rewrite He, applied_app, Hq.
  destruct (_ && _); cbn; by rewrite ?app_nil_r.
Qed.

(** An unmapped root model: one query by view arrives during the run. *)
Lemma synthesis_releases_gated_calls_witness :
  let m := Indexes.compile "NamedEntity" Fixtures.namedEntity in
  let e := Collection.Entry "findWithView" true ["$root/names"] in
  let m1 :=
    Indexes.log (Indexes.FindById "_design/$root")
      (Indexes.set_defaultView (Some "$root/names")
         (Indexes.set_collection
            (Collection.set_ensuringIndexes 1 (Indexes.collection m)) m)) in
  let queued :=
    Indexes.set_collection
      (Collection.submit_all [e] (Indexes.collection m1)) m1 in
  exists id d m2,
    Indexes.withDesign "$root" "" [] None queued = Indexes.Writing id d m2 /\
    Collection.queue (Indexes.collection queued) = [e] /\
    Collection.applied
      (Collection.effects (Indexes.collection (Indexes.done false None m2)))
    = [e].
Proof.
  intros m e m1 queued.
  assert (Hread : Indexes.ensureIndexes (fun _ => "namedentities") false m
                  = Indexes.Reading "$root" "" [] m1) by reflexivity.
  assert (Hall : Forall (fun e => Collection.waitForIndexes e = true) [e])
    by (repeat constructor).
  destruct (synthesis_releases_gated_calls (fun _ => "namedentities") false
              m m1 "$root" "" [] [e] None None Hread eq_refl eq_refl Hall)
    as (Hq & _ & Hdone).
  assert (Hwd : exists id d m2,
            Indexes.withDesign "$root" "" [] None queued
            = Indexes.Writing id d m2)
    by (do 3 eexists; vm_compute; reflexivity).
  destruct Hwd as (id & d & m2 & Hwd).
  exists id, d, m2. split; [exact Hwd|]. split; [exact Hq|].
  destruct (Hdone m2 (or_introl (ex_intro _ id (ex_intro _ d Hwd))))
    as (_ & _ & Ha).
  exact Ha.
Defined.

(** X7: when an indexed field has no entry in [schema.tree] (a nested path,
    say), the callback of [findById] throws: the run ends without a write,
    without the [index] event and without [done], so the counter
    [ensuringIndexes] stays one above where it was. *)
Theorem ensureIndexes_throws_in_callback
    (toCollectionName : option string -> string) (cb : bool)
    (m : Indexes.model) (store : gmap string Indexes.design)
    (designDoc earlyOut : string) (idx : list (list string))
    (dv : option string) (name : string) :
  Indexes.ensureIndexes_locals toCollectionName (Indexes.modelName m)
    (Indexes.schema_of m) = inr (designDoc, earlyOut, idx, dv) ->
  name ∈ concat idx ->
  Indexes.tree (Indexes.schema_of m) !! name = None ->
  exists m',
    Indexes.run toCollectionName cb m store
    = Indexes.Failed Indexes.TypeError m' store /\
    Collection.ensuringIndexes (Indexes.collection m')
    = (Collection.ensuringIndexes (Indexes.collection m) + 1)%Z /\
    Indexes.trace m'
    = Indexes.trace m ++ [Indexes.FindById ("_design/" +:+ designDoc)].
Proof.
  intros Hl Hin Htree.
  assert (Hn : Indexes.nothingToDo idx (Indexes.schema_of m) = false).
  { unfold Indexes.nothingToDo. destruct idx as [|fields idx]; [|done].
    by apply elem_of_nil in Hin. }
  unfold Indexes.run, Indexes.ensureIndexes. rewrite Hl, Hn.
  unfold Indexes.withDesign. cbn [Indexes.schema_of Indexes.log
    Indexes.set_defaultView Indexes.set_collection].
  assert (Hcrash : snd (Indexes.reconcile earlyOut idx (Indexes.schema_of m)
                          (store !! ("_design/" +:+ designDoc))) = None).
  { unfold Indexes.reconcile.
    destruct (Indexes.syncFunctions false _ _) as [mu du].
    destruct (Indexes.rewrittenLists earlyOut (Indexes.schema_of m))
      as [customLists|]; [|done].
    destruct (Indexes.syncFunctions mu _ customLists) as [ml dl].
    unfold Indexes.syncViews.
    rewrite (updateLoop_throws earlyOut _ _ (name, None)); [done| |].
    - unfold Indexes.updateCalls. apply elem_of_app. left.
      apply list_elem_of_In.
      apply (in_map (fun n : string => (n, @None Indexes.viewSpec)) _ name).
      by apply list_elem_of_In.
    - cbn. by rewrite Htree. }
  destruct (Indexes.reconcile _ _ _ _) as [s [[b d]|]]; [done|].
  eexists. split; [reflexivity|]. done.
Qed.

(** A schema with an index on the nested path [name.first]. *)
Lemma ensureIndexes_throws_in_callback_witness :
  let s := {| Indexes.indexes := [["name.first"]];
              Indexes.tree := Fixtures.fields;
              Indexes.views := None;
              Indexes.updates := None;
              Indexes.lists := None;
              Indexes.forcePlainDiscriminatorIndex := false;
              Indexes.discriminatorMapping := None |} in
  let m := Indexes.compile "Person" s in
  exists m',
    Indexes.run (fun _ => "people") false m ∅
    = Indexes.Failed Indexes.TypeError m' ∅ /\
    Collection.ensuringIndexes (Indexes.collection m') = 1%Z /\
    Indexes.trace m' = [Indexes.FindById "_design/$root"].
Proof.
  intros s m.
  apply (ensureIndexes_throws_in_callback (fun _ => "people") false m ∅
           "$root" "" [["name.first"]] None "name.first" eq_refl).
  - cbn. by left.
  - by vm_compute.
Defined.

(** ** Index synthesis: scope, comparison and the views kept *)

Section ScopeFacts.

Import JsString Indexes.

Variable toCollectionName : option string -> string.

(** The explicit default, when there is one, is under the collection name of
    the mapping's value, or under [$root] without a mapping. *)
Lemma explicitDefault_prefix name dm cv : forall dv dv',
  explicitDefault toCollectionName name dm cv dv = inr dv' ->
  dv' = dv \/
  exists k, dv' = Some (match dm with
                        | Some d => toCollectionName (value d)
                        | None => "$root"
                        end +:+ "/" +:+ k).
Proof.
  induction cv as [|[k v] cv IH]; intros dv dv'; cbn.
  - intros [= <-]. by left.
  - destruct (asDefaultIndex v); [|by apply IH].
    destruct (truthy dv); [done|].
    intros H. apply IH in H as [->|H]; [|by right].
    right. exists k. by destruct dm.
Qed.

Lemma impliedDefault_prefix designDoc fields dv :
  impliedDefault designDoc fields dv = dv \/
  exists v, impliedDefault designDoc fields dv = Some (designDoc +:+ "/" +:+ v).
Proof.
  unfold impliedDefault. revert dv.
  induction fields as [|f fields IH]; intros dv; cbn; [by left|].
  right. destruct (IH (Some (designDoc +:+ "/by" +:+ capitalize f)))
    as [->|H]; [|done].
  by exists ("by" +:+ capitalize f).
Qed.

End ScopeFacts.

(** X8: when the first part of [ensureIndexes] does not throw, a derived
    schema has its views kept under the collection name of its own variant,
    with the guard of that variant, has at least one index to synthesize (so
    the call reaches the store) and a default view that, when set, is under
    that design document; any other schema has its views kept under [$root],
    without a guard, for the indexes the schema declares. *)
Theorem ensureIndexes_scope (toCollectionName : option string -> string)
    (name : string) (s : Indexes.schema) (designDoc earlyOut : string)
    (idx : list (list string)) (dv : option string) :
  Indexes.ensureIndexes_locals toCollectionName name s
  = inr (designDoc, earlyOut, idx, dv) ->
  match Indexes.discriminatorMapping s with
  | Some dm =>
      if Indexes.isRoot dm
      then designDoc = "$root" /\ earlyOut = "" /\ idx = Indexes.indexes s
      else
        designDoc = toCollectionName (Indexes.value dm) /\
        earlyOut = Indexes.earlyOut_of dm /\
        Indexes.nothingToDo idx s = false /\
        (dv = None \/ exists v, dv = Some (designDoc +:+ "/" +:+ v))
  | None => designDoc = "$root" /\ earlyOut = "" /\ idx = Indexes.indexes s
  end.
Proof.
  unfold Indexes.ensureIndexes_locals.
  destruct (match Indexes.views s with
            | Some cv => Indexes.explicitDefault toCollectionName name
                           (Indexes.discriminatorMapping s) cv None
            | None => inr None
            end) as [e|explicit] eqn:Hexp; [done|].
  destruct (Indexes.discriminatorMapping s) as [dm|] eqn:Hdm;
    [|by intros [= <- <- <- <-]].
  destruct (Indexes.isRoot dm); cbn; [by intros [= <- <- <- <-]|].
  assert (Hex : explicit = None \/
                exists k, explicit
                  = Some (toCollectionName (Indexes.value dm) +:+ "/" +:+ k)).
  { destruct (Indexes.views s) as [cv|]; [|injection Hexp as <-; by left].
    apply explicitDefault_prefix in Hexp as [->|[k ->]]; [by left|].
    right. by exists k. }
  destruct (_ || _).
  - intros [= <- <- <- <-]. split; [done|]. split; [done|]. split.
    + unfold Indexes.nothingToDo. rewrite length_app. cbn.
      by replace (length (Indexes.indexes s) + 1) with
        (S (length (Indexes.indexes s))) by lia.
    + right. by exists "by_id".
  - destruct (Indexes.indexes s) as [|fields rest] eqn:Hidx; [done|].
    intros [= <- <- <- <-]. split; [done|]. split; [done|]. split; [done|].
    destruct (impliedDefault_prefix (toCollectionName (Indexes.value dm))
                fields explicit) as [->|H]; [done|by right].
Qed.

(** The derived schema [GroupSchema] of the example. *)
Lemma ensureIndexes_scope_witness :
  let guard := "if (doc['$kind'] !== 'Group') return;" in
  Indexes.ensureIndexes_locals (fun _ => "groups") "Group" Fixtures.group
  = inr ("groups", guard, [["name"]; ["_id"]], Some "groups/by_id") /\
  Indexes.nothingToDo [["name"]; ["_id"]] Fixtures.group = false.
Proof.
  split; [reflexivity|].
  exact (proj1 (proj2 (proj2
    (ensureIndexes_scope (fun _ => "groups") "Group" Fixtures.group
       "groups" _ [["name"]; ["_id"]] (Some "groups/by_id") eq_refl)))).
Defined.

(** Two objects are equivalent when the first is included in the second. *)
Lemma hasEquivalentFunctions_iff (a b : gmap string string) :
  Indexes.hasEquivalentFunctions (Some a) (Some b) = true <-> a ⊆ b.
Proof.
  rewrite map_subseteq_spec. split.
  - intros H k v Hk. by eapply hasEquivalentFunctions_lookup.
  - intros H. cbn. apply forallb_forall. intros [k v] Hin.
    apply bool_decide_eq_true_2. cbn. apply H.
    by apply elem_of_map_to_list, list_elem_of_In.
Qed.

(** X9: [hasEquivalentFunctions(a, b)] on two objects holds exactly when
    every function of [a] is in [b] with the same text; what [b] has beyond
    [a] is not looked at.  An undefined side is equivalent to an undefined
    side only. *)
Theorem hasEquivalentFunctions_subseteq (a b : gmap string string) :
  (Indexes.hasEquivalentFunctions (Some a) (Some b) = true <-> a ⊆ b) /\
  Indexes.hasEquivalentFunctions None (Some b) = false /\
  Indexes.hasEquivalentFunctions (Some a) None = false /\
  Indexes.hasEquivalentFunctions None None = true.
Proof.
  split; [|done]. rewrite map_subseteq_spec. split.
  - intros H k v Hk. by eapply hasEquivalentFunctions_lookup.
  - intros H. cbn. apply forallb_forall. intros [k v] Hin.
    apply bool_decide_eq_true_2. cbn. apply H.
    by apply elem_of_map_to_list, list_elem_of_In.
Qed.

Section KeptViews.

Import JsString Indexes.


(** Once the flag [modified] is set the loop leaves it set. *)
Lemma updateLoop_modified earlyOut tr calls : forall a a',
  foldM (maybeUpdateIndex earlyOut tr) calls a = Some a' ->
  a_modified a = true -> a_modified a' = true.
Proof.
  induction calls as [|c calls IH]; intros a a' Hf Hm.
  - by injection Hf as <-.
  - cbn in Hf.
    destruct (maybeUpdateIndex earlyOut tr a c) as [a1|] eqn:Hstep; [|done].
    apply (IH a1 a' Hf). revert Hstep. unfold maybeUpdateIndex.
    destruct c as [name spec].
    destruct (definition earlyOut tr name spec) as [def|]; [|done].
    destruct spec; cbn;
      match goal with
      | |- (if negb ?c then _ else _) = _ -> _ => destruct c
      end; cbn; by intros [= <-].
Qed.

End KeptViews.


(** X11: an update function added to a schema is written only if the design
    document holds a function the schema lacks or has with another text:
    when every stored update function is in the schema with the same text,
    the stored set is kept as it is, whatever the schema has beyond it;
    otherwise the schema's set replaces it. *)
Theorem reconcile_updates_kept (earlyOut : string) (idx : list (list string))
    (s s' : Indexes.schema) (d0 d : Indexes.design) (modified : bool)
    (stored custom : gmap string string) :
  Indexes.d_updates d0 = Some stored ->
  Indexes.updates s = Some custom ->
  Indexes.reconcile earlyOut idx s (Some d0) = (s', Some (modified, d)) ->
  Indexes.d_updates d
  = Some (if decide (stored ⊆ custom) then stored else custom) /\
  (~ stored ⊆ custom -> modified = true).
Proof.
  intros Hst Hcu. unfold Indexes.reconcile. rewrite Hst, Hcu.
  unfold Indexes.syncFunctions at 1.
  pose proof (hasEquivalentFunctions_iff stored custom) as Hiff.
  destruct (Indexes.hasEquivalentFunctions (Some stored) (Some custom)) eqn:Heq;
    cbn [negb].
  - destruct (Indexes.rewrittenLists earlyOut s) as [customLists|]; [|done].
    destruct (Indexes.syncFunctions false _ customLists) as [ml dl].
    destruct (Indexes.syncViews _ _ _ _ ml) as [[mv dvs]|]; [|done].
    intros [= <- <- <-]. cbn. rewrite decide_True by by apply Hiff.
    split; [done|]. intros Hn. destruct Hn. by apply Hiff.
  - assert (Hn : ~ stored ⊆ custom).
    { intros H. apply Hiff in H. congruence. }
    destruct (Indexes.rewrittenLists earlyOut s) as [customLists|]; [|done].
    unfold Indexes.syncFunctions, Indexes.syncViews.
    destruct (Indexes.hasEquivalentFunctions _ customLists); cbn [negb];
      (destruct (Indexes.foldM _ _ _) as [a|] eqn:Hf; [|done]);
      pose proof (updateLoop_modified _ _ _ _ _ Hf eq_refl) as Hmod;
      rewrite Hmod;
      destruct (_ && _); intros [= <- <- <-]; cbn;
      by rewrite decide_False.
Qed.

(** A design document with no update function, and a schema with one. *)
Lemma reconcile_updates_kept_witness :
  let d0 := {| Indexes.d_views := None; Indexes.d_updates := Some ∅;
               Indexes.d_lists := None |} in
  exists s' modified d,
    Indexes.reconcile "" [] Fixtures.updatesOnly (Some d0)
    = (s', Some (modified, d)) /\
    Indexes.d_updates d = Some ∅.
Proof.
  intros d0. do 3 eexists.
  assert (Hr : Indexes.reconcile "" [] Fixtures.updatesOnly (Some d0)
               = (Fixtures.updatesOnly,
                  Some (true, {| Indexes.d_views := None;
                                 Indexes.d_updates := Some ∅;
                                 Indexes.d_lists := None |})))
    by (by vm_compute).
  split; [exact Hr|].
  exact (proj1 (reconcile_updates_kept "" [] Fixtures.updatesOnly _ d0 _ _ ∅ _
                  eq_refl eq_refl Hr)).
Defined.


(** ** Discriminator registration: what it establishes *)

Section RegistrationFacts.

Import Discriminator.

(** Copying the ignored options leaves the other options of the derived
    schema alone. *)
Lemma copyIgnored_other (child base : gmap string value) k :
  k ∉ ignored -> copyIgnored child base !! k = child !! k.
Proof.
  unfold copyIgnored. generalize ignored. intros l. revert child.
  induction l as [|opt l IH]; intros child Hk; [done|]. cbn.
  apply not_elem_of_cons in Hk as [Hne Hk]. rewrite IH by done.
  destruct (base !! opt); [|done]. by rewrite lookup_insert_ne.
Qed.

(** What the loop over the customizable options leaves for one of them. *)
Lemma align_in (b : gmap string value) k l : forall a : gmap string value,
  k ∈ l ->
  fold_left
    (fun (a : gmap string value) opt =>
       if truthy (b !! opt)
       then match b !! opt with Some v => <[opt := v]> a | None => a end
       else delete opt a) l a !! k
  = if truthy (b !! k) then b !! k else None.
Proof.
  induction l as [|opt l IH]; intros a Hk; [by apply elem_of_nil in Hk|].
  cbn. destruct (decide (k ∈ l)) as [Hin|Hnin]; [by apply IH|].
  apply elem_of_cons in Hk as [->|Hk]; [|done].
  rewrite align_other by done.
  destruct (truthy (b !! opt)) eqn:Ht.
  - destruct (b !! opt) as [v|]; [|done]. by rewrite lookup_insert_eq.
  - by rewrite lookup_delete_eq.
Qed.

Lemma restore_lookup opt v (o : gmap string value) k :
  restore opt v o !! k =
    if decide (k = opt) then (if truthy v then v else None) else o !! k.
Proof.
  unfold restore. destruct (decide (k = opt)) as [->|Hne].
  - destruct (truthy v) eqn:Ht.
    + destruct v as [x|]; [|done]. by rewrite lookup_insert_eq.
    + by rewrite lookup_delete_eq.
  - destruct (truthy v).
    + destruct v as [x|]; [|done]. by rewrite lookup_insert_ne.
    + by rewrite lookup_delete_ne.
Qed.

Lemma union_lookup {V : Type} (m1 m2 : gmap string V) k :
  (m1 ∪ m2) !! k = match m1 !! k with Some x => Some x | None => m2 !! k end.
Proof.
  destruct (m1 !! k) as [x|] eqn:H1.
  - by apply lookup_union_Some_l.
  - by apply lookup_union_r.
Qed.

(** What a validation that returns says of the other options. *)
Lemma validateOptions_other (a b : gmap string value) k v :
  validateOptions a b = true -> k ∉ customizable ->
  a !! k = Some v -> b !! k = Some v.
Proof.
  unfold validateOptions, deepEqual, alignCustomizable, merge.
  rewrite bool_decide_eq_true. intros Heq Hk Ha.
  rewrite <- Heq. rewrite align_other by done.
  by apply lookup_union_Some_l.
Qed.

(** What it says of the customizable ones. *)
Lemma validateOptions_customizable (a b : gmap string value) k :
  validateOptions a b = true -> k ∈ customizable ->
  is_Some (b !! k) -> truthy (b !! k) = true.
Proof.
  unfold validateOptions, deepEqual, alignCustomizable, merge.
  rewrite bool_decide_eq_true. intros Heq Hk [v Hv].
  apply (f_equal (fun m => m !! k)) in Heq.
  rewrite align_in in Heq by done.
  destruct (truthy (b !! k)); [done|]. congruence.
Qed.

(** The two together make the validation return. *)
Lemma validateOptions_returns (a b : gmap string value) :
  (forall k v, k ∉ customizable -> a !! k = Some v -> b !! k = Some v) ->
  (forall k, k ∈ customizable -> is_Some (b !! k) -> truthy (b !! k) = true) ->
  validateOptions a b = true.
Proof.
  unfold validateOptions, deepEqual, alignCustomizable, merge.
  rewrite bool_decide_eq_true. intros Hother Hcust. apply map_eq. intros k.
  destruct (decide (k ∈ customizable)) as [Hk|Hk].
  - rewrite align_in by done.
    destruct (b !! k) as [v|] eqn:Hb.
    + rewrite <- Hb. rewrite Hcust; [done..|]. rewrite Hb. by eexists.
    + by destruct (truthy None).
  - rewrite align_other by done. rewrite union_lookup.
    destruct (a !! k) as [v|] eqn:Ha; [|done].
    symmetry. by eapply Hother.
Qed.

(** The stages of a call that registers. *)
Lemma discriminator_stages name child this this' d :
  discriminator name (Some child) this = Registered this' d ->
  let base := schema_of this in
  let key := keyOf (options base) in
  let child' := set_options (copyIgnored (options child) (options base)) child in
  nonRoot base = false /\
  paths child !! key = None /\
  validateOptions (options child') (options base) = true /\
  registry this !! name = None /\
  d = {| derivedName := name;
         derivedSchema := mergeValidated name key child' base;
         derivedCollection := collectionName this |} /\
  registry this' = <[name := d]> (registry this) /\
  modelName this' = modelName this /\
  collectionName this' = collectionName this /\
  paths (schema_of this') = paths base /\
  options (schema_of this') = options base /\
  callQueue (schema_of this') = callQueue base /\
  discriminatorMapping (schema_of this')
  = match discriminatorMapping base with
    | Some dm => Some dm
    | None => Some {| Indexes.key := key; Indexes.value := None;
                      Indexes.isRoot := true |}
    end.
Proof.
  intros H base key child'. unfold discriminator in H.
  fold (nonRoot (schema_of this)) in H. fold base in H. fold key in H.
  fold child' in H. fold (registry this) in H.
  destruct (nonRoot base) eqn:Hroot; [discriminate|].
  destruct (bool_decide (is_Some (paths child !! key))) eqn:Hkey; [discriminate|].
  apply bool_decide_eq_false in Hkey.
  destruct (validateOptions (options child') (options base)) eqn:Hval;
    [|discriminate].
  cbn [negb] in H.
  destruct (registry this !! name) eqn:Hreg; [discriminate|].
  injection H as <- <-.
  split; [done|]. split; [by apply eq_None_not_Some|].
  split; [done|]. split; [done|]. split; [done|].
  cbn. repeat (split; [by destruct (discriminatorMapping base)|]).
  by destruct (discriminatorMapping base) eqn:E.
Qed.

End RegistrationFacts.

(** X12: [validateOptions] returns exactly when every option the derived
    schema sets outside the customizable subset is set on the base to the
    same value, and every customizable option present on the base is
    truthy; a base that carries a customizable option with a falsy value
    makes every call throw. *)
Theorem validateOptions_accepts (a b : gmap string Discriminator.value) :
  Discriminator.validateOptions a b = true <->
  (forall k v, k ∉ Discriminator.customizable ->
               a !! k = Some v -> b !! k = Some v) /\
  (forall k, k ∈ Discriminator.customizable ->
             is_Some (b !! k) -> Discriminator.truthy (b !! k) = true).
Proof.
  split.
  - intros H. split.
    + intros k v. by apply (validateOptions_other a b).
    + intros k. by apply (validateOptions_customizable a b).
  - intros [H1 H2]. by apply validateOptions_returns.
Qed.

(** X13: a call of [discriminator] that returns has registered the derived
    model under a name that was free, beside the models registered before;
    the derived model has the collection of the root, its schema is marked
    as that of the variant [name], declares the discriminator key with the
    name as default beside the paths of both schemas (the derived schema's
    descriptor winning), and runs the hooks of the root before its own.
    The root keeps its paths and options and is marked as root; a model
    over the derived schema refuses every [discriminator] call. *)
Theorem discriminator_registered (name : string)
    (child : Discriminator.schema) (this this' : Discriminator.model)
    (d : Discriminator.derived) :
  Discriminator.discriminator name (Some child) this
  = Discriminator.Registered this' d ->
  let base := Discriminator.schema_of this in
  let key := Discriminator.keyOf (Discriminator.options base) in
  let s := Discriminator.derivedSchema d in
  Discriminator.registry this !! name = None /\
  Discriminator.registry this' = <[name := d]> (Discriminator.registry this) /\
  Discriminator.derivedName d = name /\
  Discriminator.derivedCollection d = Discriminator.collectionName this /\
  Discriminator.discriminatorMapping s
  = Some {| Indexes.key := key; Indexes.value := Some name;
            Indexes.isRoot := false |} /\
  Discriminator.paths s !! key = Some (Discriminator.keyField name) /\
  (forall p, p <> key ->
     Discriminator.paths s !! p
     = match Discriminator.paths child !! p with
       | Some x => Some x
       | None => Discriminator.paths base !! p
       end) /\
  Discriminator.callQueue s
  = Discriminator.callQueue base ++ Discriminator.callQueue child /\
  Discriminator.requiredpaths s = None /\
  Discriminator.paths (Discriminator.schema_of this')
  = Discriminator.paths base /\
  Discriminator.options (Discriminator.schema_of this')
  = Discriminator.options base /\
  (forall n c m,
     Discriminator.schema_of m = s ->
     exists msg,
       Discriminator.discriminator n (Some c) m
       = Discriminator.Threw msg m (Some c)) /\
  exists dm,
    Discriminator.discriminatorMapping (Discriminator.schema_of this')
    = Some dm /\ Indexes.isRoot dm = true.
Proof.
  intros H base key s.
  destruct (discriminator_stages _ _ _ _ _ H)
    as (Hroot & Hkey & Hval & Hfree & Hd & Hreg & _ & _ & Hp & Ho & _ & Hdm).
  fold base in Hroot, Hval, Hd, Hp, Ho, Hdm. fold key in Hkey, Hd, Hdm.
  subst s. rewrite Hd. cbn.
  split; [done|]. split; [by rewrite Hreg, Hd|].
  split; [done|]. split; [done|]. split; [done|].
  split; [by rewrite lookup_insert_eq|].
  split.
  { intros p Hne. rewrite lookup_insert_ne by done.
    apply union_lookup. }
  split; [done|]. split; [done|]. split; [done|]. split; [done|].
  split.
  { intros n c m Hm. unfold Discriminator.discriminator. rewrite Hm. cbn.
    by eauto. }
  rewrite Hdm. unfold Discriminator.nonRoot in Hroot.
  destruct (Discriminator.discriminatorMapping base) as [dm|].
  - exists dm. split; [done|]. by destruct (Indexes.isRoot dm).
  - by eexists.
Qed.

(** Registering [UserSchema] on the model of [NamedEntitySchema]. *)
Lemma discriminator_registered_witness :
  exists this' d,
    Discriminator.discriminator "User" (Some Registration.user)
      Registration.namedEntity = Discriminator.Registered this' d /\
    Discriminator.registry this' = {[ "User" := d ]} /\
    Discriminator.paths (Discriminator.derivedSchema d) !! "$kind"
    = Some (Discriminator.keyField "User") /\
    Discriminator.callQueue (Discriminator.derivedSchema d)
    = Discriminator.callQueue
        (Discriminator.schema_of Registration.namedEntity)
      ++ Discriminator.callQueue Registration.user.
Proof.
  let r := eval vm_compute in
    (Discriminator.discriminator "User" (Some Registration.user)
       Registration.namedEntity) in
  match r with
  | Discriminator.Registered ?t ?d =>
      pose (t1 := t); pose (d1 := d);
      assert (Hr : Discriminator.discriminator "User" (Some Registration.user)
                     Registration.namedEntity
                   = Discriminator.Registered t1 d1)
        by (vm_compute; reflexivity)
  end.
  destruct (discriminator_registered _ _ _ _ _ Hr)
    as (_ & Hreg & _ & _ & _ & Hk & _ & Hq & _).
  exists t1, d1. split; [exact Hr|]. split; [exact Hreg|].
  split; [exact Hk|exact Hq].
Defined.

(** X14: the options of a registered derived schema.  Outside the
    customizable subset they are those of the root; [views], [updates],
    [lists] and [forcePlainDiscriminatorIndex] are the derived schema's own
    when truthy and absent otherwise, never the root's; [toJSON] and
    [toObject] are the derived schema's own when it sets them and the
    root's otherwise. *)
Theorem discriminator_options (name : string)
    (child : Discriminator.schema) (this this' : Discriminator.model)
    (d : Discriminator.derived) :
  Discriminator.discriminator name (Some child) this
  = Discriminator.Registered this' d ->
  let base := Discriminator.options (Discriminator.schema_of this) in
  let own := Discriminator.options child in
  let o := Discriminator.options (Discriminator.derivedSchema d) in
  (forall k, k ∉ Discriminator.customizable -> o !! k = base !! k) /\
  (forall k,
     k ∈ ["views"; "updates"; "lists"; "forcePlainDiscriminatorIndex"] ->
     o !! k = if Discriminator.truthy (own !! k) then own !! k else None) /\
  (forall k, k ∈ ["toJSON"; "toObject"] ->
     o !! k = match own !! k with Some v => Some v | None => base !! k end).
Proof.
  intros H base own o.
  destruct (discriminator_stages _ _ _ _ _ H)
    as (_ & _ & Hval & _ & Hd & _).
  cbn [Discriminator.options Discriminator.set_options] in Hval.
  fold base own in Hval.
  assert (Hown : forall k, k ∈ Discriminator.customizable ->
            Discriminator.copyIgnored own base !! k = own !! k).
  { intros k Hk. apply copyIgnored_other. intros Hi. revert Hk.
    apply list_elem_of_In in Hi.
    destruct Hi as [<-|[<-|[<-|[]]]]; by apply (bool_decide_unpack _). }
  subst o. rewrite Hd.
  cbn [Discriminator.derivedSchema Discriminator.mergeValidated
       Discriminator.options Discriminator.set_options].
  fold base own. unfold Discriminator.merge.
  split; [|split].
  - intros k Hk.
    assert (Hne : k <> "views" /\ k <> "updates" /\ k <> "lists" /\
                  k <> "forcePlainDiscriminatorIndex").
    { repeat split; intros ->; apply Hk; by apply (bool_decide_unpack _). }
    destruct Hne as (H1 & H2 & H3 & H4).
    rewrite !restore_lookup.
    rewrite !decide_False by done.
    rewrite union_lookup, !lookup_delete_ne by done.
    destruct (Discriminator.copyIgnored own base !! k) as [v|] eqn:Hc;
      [|done].
    symmetry. by eapply validateOptions_other.
  - intros k Hk. apply list_elem_of_In in Hk.
    rewrite !restore_lookup.
    destruct Hk as [<-|[<-|[<-|[<-|[]]]]];
      repeat (first [ rewrite decide_True by done
                    | rewrite decide_False by done ]);
      rewrite Hown by (by apply (bool_decide_unpack _)); done.
  - intros k Hk. apply list_elem_of_In in Hk.
    rewrite !restore_lookup.
    destruct Hk as [<-|[<-|[]]];
      rewrite !decide_False by done;
      rewrite union_lookup, !lookup_delete_ne by done;
      rewrite Hown by (by apply (bool_decide_unpack _)); done.
Qed.

(** [UserSchema] under [NamedEntitySchema]: [autoIndex] is the root's, the
    views of the root are not inherited. *)
Lemma discriminator_options_witness :
  exists this' d,
    Discriminator.discriminator "User" (Some Registration.user)
      Registration.namedEntity = Discriminator.Registered this' d /\
    Discriminator.options (Discriminator.derivedSchema d) !! "autoIndex"
    = Some (Discriminator.VBool false) /\
    Discriminator.options (Discriminator.derivedSchema d) !! "views"
    = (if Discriminator.truthy
            (Discriminator.options Registration.user !! "views")
       then Discriminator.options Registration.user !! "views" else None).
Proof.
  let r := eval vm_compute in
    (Discriminator.discriminator "User" (Some Registration.user)
       Registration.namedEntity) in
  match r with
  | Discriminator.Registered ?t ?d =>
      pose (t1 := t); pose (d1 := d);
      assert (Hr : Discriminator.discriminator "User" (Some Registration.user)
                     Registration.namedEntity
                   = Discriminator.Registered t1 d1)
        by (vm_compute; reflexivity)
  end.
  destruct (discriminator_options _ _ _ _ _ Hr) as (Ho & Hc & _).
  exists t1, d1. split; [exact Hr|]. split.
  - rewrite Ho; [by vm_compute|]. by apply (bool_decide_unpack _).
  - apply Hc. by apply (bool_decide_unpack _).
Defined.

(** X15: [discriminator] called with a name that is registered throws,
    whatever is passed as schema, and the models registered stay as they
    were. *)
Theorem discriminator_name_taken (name : string)
    (arg : option Discriminator.schema) (this : Discriminator.model) :
  is_Some (Discriminator.registry this !! name) ->
  exists msg this' arg',
    Discriminator.discriminator name arg this
    = Discriminator.Threw msg this' arg' /\
    Discriminator.registry this' = Discriminator.registry this /\
    Discriminator.modelName this' = Discriminator.modelName this.
Proof.
  intros [d0 Hd0]. unfold Discriminator.discriminator.
  destruct arg as [child|]; [|by eauto 6].
  destruct (match Discriminator.discriminatorMapping _ with
            | Some dm => negb (Indexes.isRoot dm) | None => false end);
    [by eauto 6|].
  destruct (bool_decide _); [by eauto 6|].
  destruct (negb _); [by eauto 6|].
  fold (Discriminator.registry this). rewrite Hd0.
  do 3 eexists. split; [done|]. split; [|done].
  unfold Discriminator.registry at 1. cbn. done.
Qed.

(** [UserSchema] registered a second time. *)
Lemma discriminator_name_taken_witness :
  exists this d msg this' arg',
    Discriminator.discriminator "User" (Some Registration.user)
      Registration.namedEntity = Discriminator.Registered this d /\
    Discriminator.discriminator "User" (Some Registration.user) this
    = Discriminator.Threw msg this' arg' /\
    Discriminator.registry this' = Discriminator.registry this /\
    Discriminator.modelName this' = Discriminator.modelName this.
Proof.
  let r := eval vm_compute in
    (Discriminator.discriminator "User" (Some Registration.user)
       Registration.namedEntity) in
  match r with
  | Discriminator.Registered ?t ?d =>
      pose (t1 := t); pose (d1 := d);
      assert (Hr : Discriminator.discriminator "User" (Some Registration.user)
                     Registration.namedEntity
                   = Discriminator.Registered t1 d1)
        by (vm_compute; reflexivity)
  end.
  destruct (discriminator_name_taken "User" (Some Registration.user) t1)
    as (msg & this' & arg' & H).
  { exists d1. by vm_compute. }
  exists t1, d1, msg, this', arg'. split; [exact Hr|exact H].
Defined.

(** ** Saving and removing an instance: how the calls compose *)

(** X16: a second [save] made while the first insert of a new instance is
    in flight takes the branch of an existing document: it sends the same
    object again and clears [inserting].  When the first insert then
    fails, the instance is not turned back into a new one: [isNew] stays
    false and no [isNew] event with [true] is emitted; the first caller
    still gets the error. *)
Theorem save_twice_cancels_retry (w : Lifecycle.world) (fn1 fn2 : option nat) :
  Lifecycle.isNew (Lifecycle.inst w) = true ->
  let p := length (Lifecycle.promises w) in
  let obj := Lifecycle.toObject (Lifecycle.inst w) in
  let w2 := Lifecycle.save fn2 (Lifecycle.save fn1 w) in
  Lifecycle.requests w2
  = Lifecycle.requests w
    ++ [Lifecycle.Insert obj p; Lifecycle.Insert obj (S p)] /\
  Lifecycle.isNew (Lifecycle.inst w2) = false /\
  Lifecycle.inserting (Lifecycle.inst w2) = false /\
  forall err,
    let w3 := Lifecycle.handleSave p (Lifecycle.SaveErr err) w2 in
    Lifecycle.isNew (Lifecycle.inst w3) = false /\
    Lifecycle.events w3
    = Lifecycle.events w
      ++ [Lifecycle.EmitIsNew false; Lifecycle.EmitIsNew false] /\
    Lifecycle.notified w3
    = Lifecycle.notified w
      ++ Lifecycle.notifications fn1 (Promise.Rejected err).
Proof.
  intros Hn p obj w2. subst w2. rewrite (save_new_state fn1 w Hn). fold p.
  rewrite save_existing_state by done.
  cbn [Lifecycle.inst Lifecycle.promises Lifecycle.requests Lifecycle.events
       Lifecycle.notified].
  set (w2 := Lifecycle.MkWorld _ _ _ _ _).
  assert (Hp : Lifecycle.promises w2 !! p = Some (Promise.create fn1)).
  { cbn. rewrite <- app_assoc. by apply list_lookup_middle. }
  split.
  { cbn. rewrite <- app_assoc, length_app, Nat.add_1_r. done. }
  split; [done|]. split; [done|].
  intros err. unfold Lifecycle.handleSave.
  change (Lifecycle.inserting (Lifecycle.inst w2)) with false. cbv iota.
  destruct (on_promise_frame p (Promise.resolve (Promise.Rejected err)) w2)
    as (Hi & _ & He & _).
  destruct (on_promise_at p (Promise.resolve (Promise.Rejected err)) w2 _ Hp)
    as (_ & Hnot).
  rewrite Hi, He, Hnot, resolve_create. cbn.
  by rewrite <- app_assoc.
Qed.

(** Two saves of a fresh instance, then the store refuses the first. *)
Lemma save_twice_cancels_retry_witness :
  let w := Lifecycle.fresh "alice" "{}" in
  let w2 := Lifecycle.save None (Lifecycle.save (Some 7) w) in
  Lifecycle.isNew (Lifecycle.inst w) = true /\
  Lifecycle.inserting (Lifecycle.inst w2) = false /\
  Lifecycle.isNew
    (Lifecycle.inst (Lifecycle.handleSave 0 (Lifecycle.SaveErr "conflict") w2))
  = false.
Proof.
  intros w w2.
  destruct (save_twice_cancels_retry w (Some 7) None eq_refl)
    as (_ & _ & Hins & Herr).
  split; [reflexivity|]. split; [exact Hins|].
  exact (proj1 (Herr "conflict")).
Defined.

(** X17: a [remove] that follows the answer of a save asks the store to
    delete the identifier and the revision the instance holds then: those
    of the result after a success, those it had before after a failure. *)
Theorem remove_after_save (w : Lifecycle.world) (p : nat)
    (r : Lifecycle.save_result) (fn : option nat) :
  Lifecycle.removing (Lifecycle.inst w) = None ->
  let q := length (Lifecycle.promises w) in
  let w' := Lifecycle.remove fn (Lifecycle.handleSave p r w) in
  Lifecycle.requests w'
  = Lifecycle.requests w
    ++ [match r with
        | Lifecycle.SaveOk id rev => Lifecycle.Remove id (Some rev) q
        | Lifecycle.SaveErr _ =>
            Lifecycle.Remove (Lifecycle._id (Lifecycle.inst w))
              (Lifecycle._rev (Lifecycle.inst w)) q
        end] /\
  Lifecycle.removing (Lifecycle.inst w') = Some q.
Proof.
  intros Hr q w'. subst w'. unfold Lifecycle.handleSave.
  destruct r as [err|id rev].
  - set (w0 := if Lifecycle.inserting (Lifecycle.inst w) then _ else w).
    assert (H0 : Lifecycle.removing (Lifecycle.inst w0) = None /\
                 Lifecycle._id (Lifecycle.inst w0) = Lifecycle._id (Lifecycle.inst w) /\
                 Lifecycle._rev (Lifecycle.inst w0) = Lifecycle._rev (Lifecycle.inst w) /\
                 Lifecycle.requests w0 = Lifecycle.requests w /\
                 length (Lifecycle.promises w0) = q).
    { subst w0. by destruct (Lifecycle.inserting (Lifecycle.inst w)). }
    destruct H0 as (H1 & H2 & H3 & H4 & H5).
    destruct (on_promise_frame p (Promise.resolve (Promise.Rejected err)) w0)
      as (Hi & Hq & _ & Hl).
    rewrite remove_first_state by (by rewrite Hi).
    cbn. by rewrite Hi, Hq, Hl, H2, H3, H4, H5.
  - set (w0 := Lifecycle.emit _ _).
    destruct (on_promise_frame p (Promise.resolve Promise.Fulfilled) w0)
      as (Hi & Hq & _ & Hl).
    rewrite remove_first_state by (by rewrite Hi).
    cbn. by rewrite Hi, Hq, Hl.
Qed.

(** A fresh instance saved, confirmed by the store, then removed. *)
Lemma remove_after_save_witness :
  let w := Lifecycle.save (Some 1) (Lifecycle.fresh "alice" "{}") in
  Lifecycle.requests
    (Lifecycle.remove None (Lifecycle.handleSave 0 (Lifecycle.SaveOk "alice" "1-a") w))
  = Lifecycle.requests w ++ [Lifecycle.Remove "alice" (Some "1-a") 1].
Proof.
  intros w.
  exact (proj1 (remove_after_save w 0 (Lifecycle.SaveOk "alice" "1-a") None
                  eq_refl)).
Defined.

(** ** The rows of the store and [Model.find] *)

Section RowFacts.

Import Find.

Lemma visible_cons r rs :
  visible (r :: rs) = if isInternal (id r) then visible rs else r :: visible rs.
Proof. unfold visible. cbn. by destruct (isInternal (id r)). Qed.

Lemma lookup_behind (done junk : list item) x rest i :
  length done + length junk = i ->
  (done ++ junk ++ x :: rest) !! i = Some x.
Proof.
  intros <-. rewrite app_assoc, <- length_app. by apply list_lookup_middle.
Qed.

Lemma insert_behind (done junk : list item) x y rest i :
  length done + length junk = i ->
  <[i := y]> (done ++ junk ++ x :: rest) = done ++ junk ++ y :: rest.
Proof.
  intros <-. rewrite app_assoc, <- length_app.
  rewrite insert_app_r_alt by done. rewrite Nat.sub_diag. cbn.
  by rewrite <- app_assoc.
Qed.

(** Writing at [j] moves the boundary between what is done and what is
    left over. *)
Lemma insert_front (done junk : list item) y rest :
  exists junk',
    <[length done := y]> (done ++ (junk ++ [y]) ++ rest)
    = (done ++ [y]) ++ junk' ++ rest /\
    length junk' = length junk.
Proof.
  rewrite insert_app_r_alt by done. rewrite Nat.sub_diag.
  destruct junk as [|x junk]; cbn.
  - exists []. by rewrite <- app_assoc.
  - exists (junk ++ [y]). split; [by rewrite <- !app_assoc|].
    rewrite length_app. cbn. lia.
Qed.

Lemma full_loop_rows rest : forall done junk i j,
  length done = j -> length done + length junk = i ->
  full_loop (length rest) i j (done ++ junk ++ List.map Row rest)
  = Some (done ++ List.map (fun r => Doc (doc r)) (visible rest)).
Proof.
  induction rest as [|r rest IH]; intros done junk i j Hj Hi.
  - cbn. rewrite !app_nil_r. by rewrite take_app_length'.
  - cbn [length List.map full_loop].
    rewrite (lookup_behind done junk (Row r) _ i Hi). rewrite visible_cons.
    destruct (isInternal (id r)).
    + replace (done ++ junk ++ Row r :: List.map Row rest)
        with (done ++ (junk ++ [Row r]) ++ List.map Row rest)
        by (by rewrite <- app_assoc).
      apply IH; [done|]. rewrite length_app. cbn. lia.
    + subst j.
      destruct junk as [|x junk].
      * cbn in Hi. subst i. cbn [app].
        rewrite insert_app_r_alt by done. rewrite Nat.sub_diag. cbn.
        replace (done ++ Doc (doc r) :: List.map Row rest)
          with ((done ++ [Doc (doc r)]) ++ [] ++ List.map Row rest)
          by (by rewrite <- app_assoc).
        rewrite IH with (j := S (length done));
          [|rewrite length_app; cbn; lia..].
        by rewrite <- app_assoc.
      * rewrite insert_app_r_alt by done. rewrite Nat.sub_diag. cbn.
        replace (done ++ Doc (doc r) :: junk ++ Row r :: List.map Row rest)
          with ((done ++ [Doc (doc r)]) ++ (junk ++ [Row r])
                ++ List.map Row rest)
          by (by rewrite <- !app_assoc).
        rewrite IH with (j := S (length done));
          [| rewrite length_app; cbn; lia
           | rewrite !length_app; cbn in *; lia].
        by rewrite <- app_assoc.
Qed.

Lemma refs_loop_rows rest : forall done junk i j,
  length done = j -> length done + length junk = i ->
  refs_loop (length rest) i j (done ++ junk ++ List.map Row rest)
  = if rewritable rest
    then Some (done ++ List.map refOf (visible rest))
    else None.
Proof.
  induction rest as [|r rest IH]; intros done junk i j Hj Hi.
  - cbn. rewrite !app_nil_r. by rewrite take_app_length'.
  - cbn [length List.map refs_loop].
    rewrite (lookup_behind done junk (Row r) _ i Hi).
    unfold rewritable. rewrite visible_cons.
    destruct (isInternal (id r)).
    + replace (done ++ junk ++ Row r :: List.map Row rest)
        with (done ++ (junk ++ [Row r]) ++ List.map Row rest)
        by (by rewrite <- app_assoc).
      apply IH; [done|]. rewrite length_app. cbn. lia.
    + cbn [forallb]. destruct (value r) as [rev|] eqn:Hv; [|done].
      rewrite bool_decide_eq_true_2 by (by eexists). cbn [andb].
      set (o := Ref (id r) rev (doc r)).
      assert (Ho : refOf r = o) by (unfold refOf; by rewrite Hv).
      rewrite (insert_behind done junk (Row r) o _ i Hi). subst j.
      replace (done ++ junk ++ o :: List.map Row rest)
        with (done ++ (junk ++ [o]) ++ List.map Row rest)
        by (by rewrite <- app_assoc).
      destruct (insert_front done junk o (List.map Row rest))
        as (junk' & -> & Hlen).
      rewrite IH with (j := S (length done));
        [| rewrite length_app; cbn; lia
         | rewrite length_app; cbn; lia].
      fold (rewritable rest). destruct (rewritable rest); [|done].
      cbn. by rewrite Ho, <- app_assoc.
Qed.

Lemma response_to_input_full_rows rs :
  response_to_input_full (List.map Row rs)
  = Some (List.map (fun r => Doc (doc r)) (visible rs)).
Proof.
  unfold response_to_input_full. rewrite length_map.
  exact (full_loop_rows rs [] [] 0 0 eq_refl eq_refl).
Qed.

Lemma response_to_input_refs_rows rs :
  response_to_input_refs (List.map Row rs)
  = if rewritable rs then Some (List.map refOf (visible rs)) else None.
Proof.
  unfold response_to_input_refs. rewrite length_map.
  exact (refs_loop_rows rs [] [] 0 0 eq_refl eq_refl).
Qed.

End RowFacts.

(** X18: [response_to_input_full] leaves in the array the documents of
    the rows whose id does not begin with an underscore, in the order of
    the rows, and nothing else: the loop never fails on an array of rows
    and the array is cut to the number of rows kept. *)
Theorem response_to_input_full_visible (rs : list Find.row) :
  Find.response_to_input_full (List.map Find.Row rs)
  = Some (List.map (fun r => Find.Doc (Find.doc r)) (Find.visible rs)).
Proof.
  unfold Find.response_to_input_full. rewrite length_map.
  exact (full_loop_rows rs [] [] 0 0 eq_refl eq_refl).
Qed.

(** X19: [response_to_input_refs] leaves in the array, for each row whose
    id does not begin with an underscore and in the order of the rows, the
    row rewritten to [_id] and [_rev]; it throws exactly when one of these
    rows has no [value]. *)
Theorem response_to_input_refs_visible (rs : list Find.row) :
  Find.response_to_input_refs (List.map Find.Row rs)
  = if Find.rewritable rs
    then Some (List.map Find.refOf (Find.visible rs))
    else None.
Proof.
  unfold Find.response_to_input_refs. rewrite length_map.
  exact (refs_loop_rows rs [] [] 0 0 eq_refl eq_refl).
Qed.

(** X20: [Model.find] on a model without a default view reads all the
    documents and never hands out a row whose id begins with an
    underscore: with a callback the promise is fulfilled with the
    documents of the other rows, without one with their references.  On a
    model with a default view it reads that view and hands out what the
    store answers as it is. *)
Theorem find_hides_internal_rows (defaultView : option string)
    (args : list Find.arg) (q : Find.query) (rs : list Find.row) :
  Find.find defaultView args = Some q ->
  let answer := Find.answered q (inr (List.map Find.Row rs)) in
  if Indexes.truthy defaultView
  then Find.view q = defaultView /\
       answer = Find.Fulfill (List.map Find.Row rs)
  else Find.view q = None /\
       answer
       = if Find.returnsPromise q
         then Find.Fulfill
                (List.map (fun r => Find.Doc (Find.doc r)) (Find.visible rs))
         else if Find.rewritable rs
              then Find.Fulfill (List.map Find.refOf (Find.visible rs))
              else Find.Throws.
Proof.
  unfold Find.find. destruct (Find.normalise args) as [[o callback]|];
    [|discriminate].
  intros [= <-]. unfold Find.answered. cbn [Find.post Find.view
    Find.returnsPromise].
  destruct (Indexes.truthy defaultView); [by destruct (Find.defined callback)|].
  split; [done|].
  destruct (Find.defined callback); cbn [Find.apply].
  - by rewrite response_to_input_full_rows.
  - rewrite response_to_input_refs_rows. by destruct (Find.rewritable rs).
Qed.

(** [Model.find(callback)] when the store answers with the row of a design
    document and the row of a document. *)
Lemma find_hides_internal_rows_witness :
  let alice : Find.document := {[ "name" := Find.FStr "Alice" ]} in
  let rows :=
    [ {| Find.id := "_design/User"; Find.key := Some "_design/User";
         Find.value := Some (Some "1-a"); Find.doc := None |};
      {| Find.id := "alice"; Find.key := Some "alice";
         Find.value := Some (Some "2-b"); Find.doc := Some alice |} ] in
  exists q,
    Find.find None [Find.Function 1] = Some q /\
    Find.options q = Find.SFresh true /\
    Find.answered q (inr (List.map Find.Row rows))
    = Find.Fulfill [Find.Doc (Some alice)].
Proof.
  intros alice rows. eexists. split; [reflexivity|]. split; [reflexivity|].
  exact (proj2 (find_hides_internal_rows None [Find.Function 1] _ rows
                  eq_refl)).
Defined.

(** ** The flat-file driver *)

Section FlatFileFacts.

Import FlatFile.

Lemma visible_refRows files :
  Find.rewritable (List.map refRow files) = true.
Proof.
  unfold Find.rewritable, Find.visible.
  induction files as [|f files IH]; [done|]. cbn.
  destruct (Find.isInternal (name f)); cbn; [done|].
  by rewrite IH.
Qed.

(** Before the last answer the handler reports nothing. *)
Lemma answers_pending total errs : forall t,
  (n t + Z.of_nat (length errs) < total)%Z ->
  answers total errs t = [].
Proof.
  induction errs as [|e errs IH]; intros t Hlt; [done|].
  cbn [answers handler]. cbn [length] in Hlt.
  destruct (Z.eqb_spec (n t + 1) total) as [Heq|Hne]; [lia|].
  cbn. apply IH. cbn. lia.
Qed.

(** The objects removed among the answers. *)
Lemma failures_cons e errs :
  failures (e :: errs)
  = match e with Some _ => S (failures errs) | None => failures errs end.
Proof. unfold failures. cbn. by destruct e. Qed.

Lemma failures_le errs : failures errs <= length errs.
Proof.
  induction errs as [|e errs IH]; [done|].
  rewrite failures_cons. destruct e; cbn; lia.
Qed.

(** The verdict of the handler on what remains. *)
Lemma verdict_eq (a b : Z) :
  a = b ->
  (if negb (a =? 0)%Z then RemoveFailed (failedToRemove a) else RemoveDone)
  = (if negb (b =? 0)%Z then RemoveFailed (failedToRemove b) else RemoveDone).
Proof. by intros ->. Qed.

(** At the last answer it reports once. *)
Lemma answers_last total errs : forall t,
  errs <> [] ->
  (n t + Z.of_nat (length errs) = total)%Z ->
  answers total errs t
  = [let k := (remaining t - Z.of_nat (length errs)
               + Z.of_nat (failures errs))%Z in
     if negb (k =? 0)%Z then RemoveFailed (failedToRemove k) else RemoveDone].
Proof.
  induction errs as [|e errs IH]; intros t Hne Hlen; [done|].
  cbn [answers handler]. cbv zeta.
  rewrite failures_cons.
  destruct errs as [|e' errs].
  - cbn [answers app length] in *.
    assert (Heq : (n t + 1 =? total)%Z = true) by (apply Z.eqb_eq; lia).
    rewrite Heq, app_nil_r. f_equal. apply verdict_eq.
    destruct e; unfold failures; cbn; lia.
  - assert (Heq : (n t + 1 =? total)%Z = false).
    { apply Z.eqb_neq. cbn [length] in Hlen. lia. }
    rewrite Heq. cbn [app]. rewrite IH; [|done|cbn [n length] in *; lia].
    cbv zeta. cbn [remaining]. f_equal. apply verdict_eq.
    destruct e; cbn [length]; lia.
Qed.

(** What [find] asks of the store on a model without default view. *)
Lemma find_all_query args q :
  Find.find None args = Some q ->
  wantsDocs (Find.options q) = Find.returnsPromise q /\
  Find.post q = if Find.returnsPromise q then Find.Full else Find.Refs.
Proof.
  unfold Find.find.
  destruct (Find.normalise args) as [[o callback]|]; [|discriminate].
  intros [= <-]. cbn. split; [|by destruct (Find.defined callback)].
  destruct (Find.defined callback), o as [|f|[|p props]]; done.
Qed.

Lemma toLowerCase_capital c :
  toLowerCase_ascii (JsString.toUpperCase_ascii c) = toLowerCase_ascii c.
Proof.
  destruct c as [[] [] [] [] [] [] [] []]; by vm_compute.
Qed.

End FlatFileFacts.

(** X21: [bulkRemove] with at least one document reports once, when the
    last of its removals is answered and not before, whatever the order of
    the answers: with success when every removal succeeded, otherwise with
    an error that gives the number of removals that failed. *)
Theorem bulkRemove_reports_once (ids : list string)
    (errs : list (option string)) :
  ids <> [] ->
  length errs = length ids ->
  FlatFile.reported ids errs
  = [if Nat.eqb (FlatFile.failures errs) 0 then FlatFile.RemoveDone
     else FlatFile.RemoveFailed
            (FlatFile.failedToRemove (Z.of_nat (FlatFile.failures errs)))] /\
  forall k, k < length ids -> FlatFile.reported ids (take k errs) = [].
Proof.
  intros Hne Hlen. unfold FlatFile.reported, FlatFile.bulkRemove.
  destruct (Z.eqb_spec (Z.of_nat (length ids)) 0) as [H0|H0].
  { destruct ids; [done|]. cbn in H0. lia. }
  split.
  - rewrite answers_last; [| by destruct errs, ids | cbn; lia].
    cbn [FlatFile.remaining]. rewrite Hlen.
    replace (Z.of_nat (length ids) - Z.of_nat (length ids)
             + Z.of_nat (FlatFile.failures errs))%Z
      with (Z.of_nat (FlatFile.failures errs)) by lia.
    destruct (FlatFile.failures errs) as [|k]; [done|].
    assert (Hk : (Z.of_nat (S k) =? 0)%Z = false) by (apply Z.eqb_neq; lia).
    by rewrite Hk.
  - intros k Hk. apply answers_pending. cbn.
    rewrite length_take. lia.
Qed.

(** Three documents, the second of which cannot be removed. *)
Lemma bulkRemove_reports_once_witness :
  FlatFile.reported ["a"; "b"; "c"] [None; Some "EACCES"; None]
  = [FlatFile.RemoveFailed "Failed to remove 1 doc(s)"] /\
  FlatFile.reported ["a"; "b"; "c"] [None; Some "EACCES"] = [].
Proof.
  destruct (bulkRemove_reports_once ["a"; "b"; "c"] [None; Some "EACCES"; None])
    as (Hall & Hpre); [discriminate|reflexivity|].
  split; [exact Hall|].
  apply (Hpre 2). cbn. lia.
Defined.

(** X22: [findOneWithView] over a directory that can be listed calls its
    callback once for a view that begins with [$root/by], and twice for
    any other view: first with the error that names the supported views,
    then with the outcome of the search it goes on to make. *)
Theorem findOneWithView_calls_back (view : string)
    (key : option Find.field) (entries : list FlatFile.entry) :
  exists r,
    FlatFile.findOneWithView view key (inr entries)
    = if FlatFile.supported view then [r]
      else [FlatFile.Failure FlatFile.unsupported; r].
Proof.
  unfold FlatFile.findOneWithView, FlatFile.all.
  destruct (FlatFile.readAll _) as [e|rows];
    destruct (FlatFile.supported view); by eexists.
Qed.

(** X23: for a field with an ASCII name, the flat-file lookup through the
    view that [ensureIndexes] names after the indexed field is supported
    and searches the field of that name in lower case: the first readable
    file, in the order of the directory, whose document holds the key
    there ([doc[field] === key], which looks at the properties every object
    inherits as well). *)
Theorem findOneWithView_index_view (fieldName : string)
    (key : option Find.field) (entries : list FlatFile.entry)
    (rows : list Find.row) :
  JsObject.ascii_only fieldName = true ->
  FlatFile.readAll (List.filter FlatFile.isFile entries) = inr rows ->
  let view := "$root/" +:+ Indexes.viewNameOf (fieldName, None) in
  FlatFile.fieldOf view = FlatFile.toLowerCase fieldName /\
  FlatFile.findOneWithView view key (inr entries)
  = [FlatFile.Result
       (head (List.filter
                (FlatFile.matches (FlatFile.toLowerCase fieldName) key) rows)
        ≫= Find.doc)].
Proof.
  intros _ Hrows view.
  assert (Hf : FlatFile.fieldOf view = FlatFile.toLowerCase fieldName).
  { unfold view, FlatFile.fieldOf, Indexes.viewNameOf. cbn [fst snd].
    change (FlatFile.substr 8 ("$root/" +:+ "by" +:+ ?s)) with s.
    destruct fieldName as [|c rest]; [done|].
    cbn [JsString.capitalize FlatFile.toLowerCase].
    by rewrite toLowerCase_capital. }
  split; [exact Hf|].
  unfold FlatFile.findOneWithView, FlatFile.all. rewrite Hrows, Hf.
  assert (Hs : FlatFile.supported view = true) by done.
  rewrite Hs. cbn [app].
  by destruct (List.filter _ rows).
Qed.

(** Two users on disk beside the directory of the design documents. *)
Lemma findOneWithView_index_view_witness :
  let alice : Find.document := {[ "name" := Find.FStr "Alice" ]} in
  let bob : Find.document := {[ "name" := Find.FStr "Bob" ]} in
  let entries :=
    [ {| FlatFile.name := "_design"; FlatFile.isFile := false;
         FlatFile.content := inl "EISDIR" |};
      {| FlatFile.name := "a1"; FlatFile.isFile := true;
         FlatFile.content := inr alice |};
      {| FlatFile.name := "b2"; FlatFile.isFile := true;
         FlatFile.content := inr bob |} ] in
  FlatFile.findOneWithView "$root/byName" (Some (Find.FStr "Bob"))
    (inr entries)
  = [FlatFile.Result (Some bob)].
Proof.
  intros alice bob entries.
  destruct (findOneWithView_index_view "name" (Some (Find.FStr "Bob")) entries
              _ eq_refl eq_refl) as (_ & H).
  exact H.
Defined.

(** X24: [Model.find] over the flat-file driver, on a model without a
    default view.  With a callback the promise gets the documents of the
    regular files whose name does not begin with an underscore, in the
    order of the directory, or the error of the first file that cannot be
    read; without a callback it gets a reference, with a null revision,
    for each of these files, and no file is read. *)
Theorem find_flat_file (args : list Find.arg) (q : Find.query)
    (entries : list FlatFile.entry) :
  Find.find None args = Some q ->
  let files := List.filter FlatFile.isFile entries in
  FlatFile.findAll args (inr entries)
  = [if Find.returnsPromise q
     then match FlatFile.readAll files with
          | inl err => Find.Reject err
          | inr rows =>
              Find.Fulfill
                (List.map (fun r => Find.Doc (Find.doc r)) (Find.visible rows))
          end
     else Find.Fulfill
            (List.map (fun r => Find.Ref (Find.id r) None None)
               (Find.visible (List.map FlatFile.refRow files)))].
Proof.
  intros Hq files. unfold FlatFile.findAll. rewrite Hq.
  destruct (find_all_query args q Hq) as (Hdocs & Hpost).
  unfold FlatFile.all. rewrite Hdocs. fold files.
  unfold Find.answered. rewrite Hpost.
  destruct (Find.returnsPromise q) eqn:Hp; cbn [List.map Find.apply].
  - destruct (FlatFile.readAll files) as [err|rows]; [done|].
    by rewrite response_to_input_full_rows.
  - rewrite response_to_input_refs_rows, visible_refRows.
    do 2 f_equal. apply map_ext_in. intros r Hr.
    apply filter_In in Hr as [Hr _]. apply in_map_iff in Hr as (f & <- & _).
    done.
Qed.

(** [Model.find(callback)] and [Model.find()] over a directory with two
    documents and a file of the driver's own. *)
Lemma find_flat_file_witness :
  let alice : Find.document := {[ "name" := Find.FStr "Alice" ]} in
  let entries :=
    [ {| FlatFile.name := "_design"; FlatFile.isFile := false;
         FlatFile.content := inl "EISDIR" |};
      {| FlatFile.name := "_local"; FlatFile.isFile := true;
         FlatFile.content := inr ∅ |};
      {| FlatFile.name := "a1"; FlatFile.isFile := true;
         FlatFile.content := inr alice |} ] in
  FlatFile.findAll [Find.Function 1] (inr entries)
  = [Find.Fulfill [Find.Doc (Some alice)]] /\
  FlatFile.findAll [] (inr entries)
  = [Find.Fulfill [Find.Ref "a1" None None]].
Proof.
  intros alice entries. split.
  - exact (find_flat_file [Find.Function 1] _ entries eq_refl).
  - exact (find_flat_file [] _ entries eq_refl).
Defined.

(** ** The models of a Mongoose instance *)

Section RegistryFacts.

Import Mongoose.

Variable collectionOf : schemaRef -> option string.
Variable format : string -> string.
Variable schemaDefaults : string -> option schemaRef.
Variable toCollectionName : option string -> string.
Variable autoIndexOf : schemaRef -> bool.
Variable indexedOf : schemaRef -> Indexes.schema.

(** A call writes at most the entries of its own name, and only where
    there was none. *)
Lemma model_frame name schema collection skipInit st :
  let st' := snd (Mongoose.model collectionOf format schemaDefaults toCollectionName
                    autoIndexOf indexedOf name schema collection skipInit st) in
  (modelSchemas st' = modelSchemas st \/
   modelSchemas st !! name = None /\
   exists s, modelSchemas st' = <[name := s]> (modelSchemas st)) /\
  (models st' = models st \/
   models st !! name = None /\
   exists m, models st' = <[name := m]> (models st)).
Proof.
  unfold Mongoose.model.
  destruct schema, collection, skipInit; cbn;
    repeat (case_match; simplify_eq/=); cbn; eauto 10.
Qed.

(** A look-up of a name that has a model. *)
Lemma model_lookup name st s0 m :
  modelSchemas st !! name = Some s0 ->
  models st !! name = Some m ->
  Mongoose.model collectionOf format schemaDefaults toCollectionName
    autoIndexOf indexedOf name NoSchema NoCollection NoInit st = (inr m, st).
Proof.
  intros Hs Hm. unfold Mongoose.model. cbn. rewrite Hs. cbn. by rewrite Hm.
Qed.

(** The first call for a name, with a Schema, up to [init]. *)
Lemma model_first name s st :
  modelSchemas st !! name = None ->
  models st !! name = None ->
  let m :=
    {| modelId := compiledCount st; modelName := name; schema := s;
       collection :=
         if Indexes.truthy (collectionOf s) then default "" (collectionOf s)
         else format name;
       connection := defaultConnection st; base := None |} in
  let tried :=
    {| modelSchemas := <[name := s]> (modelSchemas st);
       models := models st;
       made := made st;
       compiledCount := S (compiledCount st);
       defaultConnection := defaultConnection st;
       log := log st ++ [ApplyPlugins s; Compile m; Init (modelId m)] |} in
  Mongoose.model collectionOf format schemaDefaults toCollectionName
    autoIndexOf indexedOf name (ASchema s) NoCollection NoInit st
  = match Mongoose.initOf toCollectionName autoIndexOf indexedOf name s with
    | Some e => (inl (InitFailed e), tried)
    | None => (inr m, set_models (<[name := m]> (models st)) tried)
    end.
Proof.
  intros Hs Hm m tried. unfold Mongoose.model.
  cbn -[Indexes.truthy Mongoose.initOf]. rewrite Hs.
  cbn -[Indexes.truthy Mongoose.initOf]. rewrite Hm.
  change (Indexes.truthy None) with false.
  cbn -[Indexes.truthy Mongoose.initOf]. fold m.
  unfold Mongoose.record. cbn -[Indexes.truthy Mongoose.initOf]. fold m.
  assert (Hlog : ((log st ++ [ApplyPlugins s]) ++ [Compile m])
                 ++ [Init (compiledCount st)]
                 = log st ++ [ApplyPlugins s; Compile m; Init (modelId m)]).
  { by rewrite <- !app_assoc. }
  rewrite Hlog. fold tried.
  by destruct (Mongoose.initOf toCollectionName autoIndexOf indexedOf name s).
Qed.

(** A later call without a Schema for a name that has a schema and no
    model: the model is compiled over the registered schema. *)
Lemma model_again name s st :
  modelSchemas st !! name = Some s ->
  models st !! name = None ->
  let m :=
    {| modelId := compiledCount st; modelName := name; schema := s;
       collection :=
         if Indexes.truthy (collectionOf s) then default "" (collectionOf s)
         else format name;
       connection := defaultConnection st; base := None |} in
  let tried :=
    {| modelSchemas := modelSchemas st;
       models := models st;
       made := made st;
       compiledCount := S (compiledCount st);
       defaultConnection := defaultConnection st;
       log := log st ++ [Compile m; Init (modelId m)] |} in
  Mongoose.model collectionOf format schemaDefaults toCollectionName
    autoIndexOf indexedOf name NoSchema NoCollection NoInit st
  = match Mongoose.initOf toCollectionName autoIndexOf indexedOf name s with
    | Some e => (inl (InitFailed e), tried)
    | None => (inr m, set_models (<[name := m]> (models st)) tried)
    end.
Proof.
  intros Hs Hm m tried. unfold Mongoose.model.
  cbn -[Indexes.truthy Mongoose.initOf]. rewrite Hs.
  cbn -[Indexes.truthy Mongoose.initOf]. rewrite Hm, Hs.
  change (Indexes.truthy None) with false.
  cbn -[Indexes.truthy Mongoose.initOf]. fold m.
  unfold Mongoose.record. cbn -[Indexes.truthy Mongoose.initOf]. fold m.
  assert (Hlog : (log st ++ [Compile m]) ++ [Init (compiledCount st)]
                 = log st ++ [Compile m; Init (modelId m)]).
  { by rewrite <- !app_assoc. }
  rewrite Hlog. fold tried.
  by destruct (Mongoose.initOf toCollectionName autoIndexOf indexedOf name s).
Qed.

End RegistryFacts.

(** X25: a call of [model] never replaces or drops a schema or a model
    that is registered, whether it returns or throws: it can only add,
    under its own name, where nothing was registered. *)
Theorem model_never_replaces (collectionOf : Mongoose.schemaRef -> option string)
    (format : string -> string)
    (schemaDefaults : string -> option Mongoose.schemaRef)
    (toCollectionName : option string -> string)
    (autoIndexOf : Mongoose.schemaRef -> bool)
    (indexedOf : Mongoose.schemaRef -> Indexes.schema)
    (name : string) (schema : Mongoose.schemaArg)
    (collection : Mongoose.collectionArg) (skipInit : Mongoose.initArg)
    (st : Mongoose.t) :
  let st' := snd (Mongoose.model collectionOf format schemaDefaults
                    toCollectionName autoIndexOf indexedOf name
                    schema collection skipInit st) in
  Mongoose.modelSchemas st ⊆ Mongoose.modelSchemas st' /\
  Mongoose.models st ⊆ Mongoose.models st' /\
  forall n, n <> name ->
    Mongoose.modelSchemas st' !! n = Mongoose.modelSchemas st !! n /\
    Mongoose.models st' !! n = Mongoose.models st !! n.
Proof.
  intros st'.
  destruct (model_frame collectionOf format schemaDefaults toCollectionName
              autoIndexOf indexedOf name schema collection skipInit st)
    as (Hs & Hm).
  fold st' in Hs, Hm.
  split; [|split].
  - destruct Hs as [->|(Hnone & s & ->)]; [done|]. by apply insert_subseteq.
  - destruct Hm as [->|(Hnone & m & ->)]; [done|]. by apply insert_subseteq.
  - intros n Hn. split.
    + destruct Hs as [->|(_ & s & ->)]; [done|]. by rewrite lookup_insert_ne.
    + destruct Hm as [->|(_ & m & ->)]; [done|]. by rewrite lookup_insert_ne.
Qed.

(** X26: on a name that has a model, and unless the options switch the
    cache off, [model] compiles nothing: without a collection it returns
    the registered model and leaves the instance as it is, with the
    schema of that model or with none; with another Schema it throws
    OverwriteModelError; with a collection name it makes a subclass of
    the registered model on that collection, on the default connection,
    which it does not register, and runs [init] on it: when [init] throws
    (the [ensureIndexes] of the schema throws) the call throws that, and
    otherwise it returns the subclass. *)
Theorem model_cached (collectionOf : Mongoose.schemaRef -> option string)
    (format : string -> string)
    (schemaDefaults : string -> option Mongoose.schemaRef)
    (toCollectionName : option string -> string)
    (autoIndexOf : Mongoose.schemaRef -> bool)
    (indexedOf : Mongoose.schemaRef -> Indexes.schema)
    (name : string) (st : Mongoose.t) (s0 : Mongoose.schemaRef)
    (m : Mongoose.compiled) (init : Mongoose.initArg) :
  Mongoose.modelSchemas st !! name = Some s0 ->
  Mongoose.models st !! name = Some m ->
  Mongoose.uncached init = false ->
  let model := Mongoose.model collectionOf format schemaDefaults
                 toCollectionName autoIndexOf indexedOf name in
  model Mongoose.NoSchema Mongoose.NoCollection init st = (inr m, st) /\
  model (Mongoose.ASchema (Mongoose.schema m)) Mongoose.NoCollection init st
  = (inr m, st) /\
  (forall s c,
     s <> Mongoose.schema m ->
     model (Mongoose.ASchema s) Mongoose.NoCollection init st
     = (inl (Mongoose.OverwriteModelError name), st) /\
     model (Mongoose.ASchema s) (Mongoose.Named c) init st
     = (inl (Mongoose.OverwriteModelError name), st)) /\
  (forall c,
     c <> "" ->
     exists sub st',
       model Mongoose.NoSchema (Mongoose.Named c) init st
       = (match Mongoose.initOf toCollectionName autoIndexOf indexedOf
                  (Mongoose.modelName m) (Mongoose.schema m) with
          | Some e => inl (Mongoose.InitFailed e)
          | None => inr sub
          end, st') /\
       Mongoose.base sub = Some (Mongoose.modelId m) /\
       Mongoose.schema sub = Mongoose.schema m /\
       Mongoose.collection sub = c /\
       Mongoose.connection sub = Mongoose.defaultConnection st /\
       Mongoose.models st' = Mongoose.models st /\
       Mongoose.modelSchemas st' = Mongoose.modelSchemas st /\
       Mongoose.log st' = Mongoose.log st ++ [Mongoose.Subclass sub]).
Proof.
  intros Hs Hm Hinit model. subst model. unfold Mongoose.model.
  assert (Hc : bool_decide
                 (match init with
                  | Mongoose.Options cache _ => cache
                  | _ => None
                  end = Some false) = false).
  { by destruct init as [|b|[[]|] conn]. }
  split; [|split; [|split]].
  - destruct init as [|b|cache conn]; cbn; rewrite Hs; cbn; rewrite Hm, Hc;
      done.
  - destruct init as [|b|cache conn]; cbn; rewrite Hs; cbn; rewrite Hm, Hc;
      by rewrite (bool_decide_eq_false_2
                    (Mongoose.schema m <> Mongoose.schema m))
        by (intros H; by apply H).
  - intros s c Hne.
    split; destruct init as [|b|cache conn]; cbn; rewrite Hs; cbn;
      rewrite Hm, Hc;
      by rewrite (bool_decide_eq_true_2 (s <> Mongoose.schema m)) by done.
  - intros c Hne.
    assert (Ht : Indexes.truthy (Some c) = true).
    { unfold Indexes.truthy. by destruct (String.eqb_spec c EmptyString). }
    set (sub := {| Mongoose.modelId := Mongoose.compiledCount st;
                   Mongoose.modelName := Mongoose.modelName m;
                   Mongoose.schema := Mongoose.schema m;
                   Mongoose.collection := c;
                   Mongoose.connection := Mongoose.defaultConnection st;
                   Mongoose.base := Some (Mongoose.modelId m) |}).
    exists sub,
      (Mongoose.record (Mongoose.Subclass sub) (snd (Mongoose.newModel st))).
    split; [|done].
    destruct init as [|b|cache conn];
      cbn -[Indexes.truthy Mongoose.initOf]; rewrite Hs;
      cbn -[Indexes.truthy Mongoose.initOf]; rewrite Hm, Hc, Ht;
      fold sub; by destruct (Mongoose.initOf _ _ _ _ _).
Qed.

(** The model of [Group] found again on the instance that compiled it,
    and subclassed on another collection. *)
Lemma model_cached_witness :
  let model :=
    Mongoose.model (fun _ => None) (fun n => n +:+ "s") (fun _ => None)
      (fun _ => "groups") (fun _ => true) (fun _ => Fixtures.group) in
  exists m st,
    model "Group" (Mongoose.ASchema (Mongoose.Given 1)) Mongoose.NoCollection
      Mongoose.NoInit Mongoose.fresh = (inr m, st) /\
    model "Group" Mongoose.NoSchema Mongoose.NoCollection Mongoose.NoInit st
    = (inr m, st) /\
    model "Group" (Mongoose.ASchema (Mongoose.Given 2)) Mongoose.NoCollection
      Mongoose.NoInit st
    = (inl (Mongoose.OverwriteModelError "Group"), st) /\
    exists sub st',
      model "Group" Mongoose.NoSchema (Mongoose.Named "archive")
        Mongoose.NoInit st = (inr sub, st') /\
      Mongoose.collection sub = "archive".
Proof.
  intros model.
  let r := eval vm_compute in
    (model "Group" (Mongoose.ASchema (Mongoose.Given 1)) Mongoose.NoCollection
       Mongoose.NoInit Mongoose.fresh) in
  match r with
  | (inr ?m, ?st) =>
      pose (m1 := m); pose (st1 := st);
      assert (Hr : model "Group" (Mongoose.ASchema (Mongoose.Given 1))
                     Mongoose.NoCollection Mongoose.NoInit Mongoose.fresh
                   = (inr m1, st1)) by (vm_compute; reflexivity)
  end.
  destruct (model_cached (fun _ => None) (fun n => n +:+ "s") (fun _ => None)
              (fun _ => "groups") (fun _ => true) (fun _ => Fixtures.group)
              "Group" st1 (Mongoose.Given 1) m1 Mongoose.NoInit)
    as (Hhit & _ & Hover & Hsub); [by vm_compute..|].
  exists m1, st1. split; [exact Hr|]. split; [exact Hhit|].
  split; [apply (Hover (Mongoose.Given 2) ""); by vm_compute|].
  destruct (Hsub "archive") as (sub & st' & Hcall & _ & _ & Hcoll & _);
    [discriminate|].
  exists sub, st'. split; [exact Hcall|exact Hcoll].
Defined.

(** X27: the first call of [model] for a name, with a Schema, the name not
    being that of a property every object inherits: the schema is
    registered and plugins are applied to it, a model is compiled over it
    on the default connection, on the collection the schema names or else
    the one derived from the model name, and [init] is run on it.  When
    [init] returns, the model is registered, and asking for the name again
    gives that model and changes nothing.  When [init] throws (the
    [ensureIndexes] of the schema throws), the call throws that: the
    schema stays registered and no model is; asking for the name again
    compiles a model over the registered schema and throws the same.
    Without a schema, and the name having no default schema, the call
    throws MissingSchemaError and changes nothing. *)
Theorem model_defines (collectionOf : Mongoose.schemaRef -> option string)
    (format : string -> string)
    (schemaDefaults : string -> option Mongoose.schemaRef)
    (toCollectionName : option string -> string)
    (autoIndexOf : Mongoose.schemaRef -> bool)
    (indexedOf : Mongoose.schemaRef -> Indexes.schema)
    (name : string) (s : Mongoose.schemaRef) (st : Mongoose.t) :
  name ∉ JsObject.inherited ->
  Mongoose.modelSchemas st !! name = None ->
  Mongoose.models st !! name = None ->
  let model := Mongoose.model collectionOf format schemaDefaults
                 toCollectionName autoIndexOf indexedOf name in
  let m :=
    {| Mongoose.modelId := Mongoose.compiledCount st;
       Mongoose.modelName := name;
       Mongoose.schema := s;
       Mongoose.collection :=
         if Indexes.truthy (collectionOf s) then default "" (collectionOf s)
         else format name;
       Mongoose.connection := Mongoose.defaultConnection st;
       Mongoose.base := None |} in
  (exists st1,
     Mongoose.modelSchemas st1 = <[name := s]> (Mongoose.modelSchemas st) /\
     Mongoose.log st1
     = Mongoose.log st
       ++ [Mongoose.ApplyPlugins s; Mongoose.Compile m;
           Mongoose.Init (Mongoose.modelId m)] /\
     match Mongoose.initOf toCollectionName autoIndexOf indexedOf name s with
     | None =>
         model (Mongoose.ASchema s) Mongoose.NoCollection Mongoose.NoInit st
         = (inr m, st1) /\
         Mongoose.models st1 = <[name := m]> (Mongoose.models st) /\
         model Mongoose.NoSchema Mongoose.NoCollection Mongoose.NoInit st1
         = (inr m, st1)
     | Some e =>
         model (Mongoose.ASchema s) Mongoose.NoCollection Mongoose.NoInit st
         = (inl (Mongoose.InitFailed e), st1) /\
         Mongoose.models st1 = Mongoose.models st /\
         exists st2,
           model Mongoose.NoSchema Mongoose.NoCollection Mongoose.NoInit st1
           = (inl (Mongoose.InitFailed e), st2) /\
           Mongoose.models st2 = Mongoose.models st /\
           Mongoose.modelSchemas st2 = Mongoose.modelSchemas st1
     end) /\
  (schemaDefaults name = None ->
   model Mongoose.NoSchema Mongoose.NoCollection Mongoose.NoInit st
   = (inl (Mongoose.MissingSchemaError name), st)).
Proof.
  intros _ Hs Hm model m. subst model. split.
  - pose proof (model_first collectionOf format schemaDefaults
                  toCollectionName autoIndexOf indexedOf name s st Hs Hm)
      as Hfirst.
    cbv zeta in Hfirst. fold m in Hfirst.
    set (tried := Mongoose.Mk _ _ _ _ _ _) in Hfirst.
    destruct (Mongoose.initOf toCollectionName autoIndexOf indexedOf name s)
      as [e|] eqn:Hinit.
    + exists tried. split; [done|]. split; [done|].
      split; [exact Hfirst|]. split; [done|].
      pose proof (model_again collectionOf format schemaDefaults
                    toCollectionName autoIndexOf indexedOf name s tried)
        as Hagain.
      cbv zeta in Hagain. rewrite Hinit in Hagain.
      eexists. split; [apply Hagain|].
      * subst tried. cbn. by rewrite lookup_insert_eq.
      * exact Hm.
      * done.
    + exists (Mongoose.set_models (<[name := m]> (Mongoose.models st)) tried).
      split; [done|]. split; [done|].
      split; [exact Hfirst|]. split; [done|].
      apply (model_lookup _ _ _ _ _ _ _ _ s); cbn;
        by rewrite lookup_insert_eq.
  - intros Hd. unfold Mongoose.model. cbn. rewrite Hs, Hd. done.
Qed.

(** [Group] defined on a fresh instance, and a schema with two default
    views, for which [ensureIndexes] throws. *)
Lemma model_defines_witness :
  let model :=
    Mongoose.model (fun _ => None) (fun n => n +:+ "s") (fun _ => None)
      (fun _ => "groups") (fun _ => true)
      (fun s => match s with
                | Mongoose.Given 1 => Fixtures.group
                | _ => Fixtures.twoDefaults
                end) in
  (exists m st,
     model "Group" (Mongoose.ASchema (Mongoose.Given 1)) Mongoose.NoCollection
       Mongoose.NoInit Mongoose.fresh = (inr m, st) /\
     Mongoose.collection m = "Groups" /\
     Mongoose.models st !! "Group" = Some m) /\
  (exists e st,
     model "Broken" (Mongoose.ASchema (Mongoose.Given 2))
       Mongoose.NoCollection Mongoose.NoInit Mongoose.fresh
     = (inl (Mongoose.InitFailed e), st) /\
     Mongoose.modelSchemas st !! "Broken" = Some (Mongoose.Given 2) /\
     Mongoose.models st !! "Broken" = None).
Proof.
  intros model.
  assert (Hfree : forall n : string,
            n ∉ JsObject.inherited ->
            (n ∉ JsObject.inherited) /\
            Mongoose.modelSchemas Mongoose.fresh !! n = None /\
            Mongoose.models Mongoose.fresh !! n = None) by done.
  split.
  - destruct (Hfree "Group") as (Hn & Hs & Hm);
      [by apply (bool_decide_unpack _)|].
    destruct (model_defines (fun _ => None) (fun n => n +:+ "s")
                (fun _ => None) (fun _ => "groups") (fun _ => true)
                (fun s => match s with
                          | Mongoose.Given 1 => Fixtures.group
                          | _ => Fixtures.twoDefaults
                          end)
                "Group" (Mongoose.Given 1) Mongoose.fresh Hn Hs Hm)
      as ((st1 & _ & _ & Hcase) & _).
    change (Mongoose.initOf _ _ _ "Group" (Mongoose.Given 1))
      with (@None Indexes.exn) in Hcase.
    destruct Hcase as (Hr & Hmodels & _).
    eexists _, st1. split; [exact Hr|]. split; [reflexivity|].
    rewrite Hmodels. by rewrite lookup_insert_eq.
  - destruct (Hfree "Broken") as (Hn & Hs & Hm);
      [by apply (bool_decide_unpack _)|].
    destruct (model_defines (fun _ => None) (fun n => n +:+ "s")
                (fun _ => None) (fun _ => "groups") (fun _ => true)
                (fun s => match s with
                          | Mongoose.Given 1 => Fixtures.group
                          | _ => Fixtures.twoDefaults
                          end)
                "Broken" (Mongoose.Given 2) Mongoose.fresh Hn Hs Hm)
      as ((st1 & Hschemas & _ & Hcase) & _).
    let r := eval vm_compute in
      (Mongoose.initOf (fun _ => "groups") (fun _ => true)
         (fun s => match s with
                   | Mongoose.Given 1 => Fixtures.group
                   | _ => Fixtures.twoDefaults
                   end) "Broken" (Mongoose.Given 2)) in
    match r with
    | Some ?e =>
        change (Mongoose.initOf _ _ _ "Broken" (Mongoose.Given 2))
          with (Some e) in Hcase;
        destruct Hcase as (Hr & Hmodels & _);
        exists e, st1
    end.
    split; [exact Hr|]. split.
    + rewrite Hschemas. by rewrite lookup_insert_eq.
    + by rewrite Hmodels.
Defined.

(** X28: with the cache switched off by the options, [model] compiles a
    model over the Schema it is given even when the name has another
    schema or a model: no plugin is applied to that Schema, the model is
    not initialised and not registered, and what is registered stays. *)
Theorem model_uncached (collectionOf : Mongoose.schemaRef -> option string)
    (format : string -> string)
    (schemaDefaults : string -> option Mongoose.schemaRef)
    (toCollectionName : option string -> string)
    (autoIndexOf : Mongoose.schemaRef -> bool)
    (indexedOf : Mongoose.schemaRef -> Indexes.schema)
    (name : string) (s s0 : Mongoose.schemaRef) (conn : option nat)
    (st : Mongoose.t) :
  Mongoose.modelSchemas st !! name = Some s0 ->
  exists m st',
    Mongoose.model collectionOf format schemaDefaults toCollectionName
      autoIndexOf indexedOf name
      (Mongoose.ASchema s) Mongoose.NoCollection
      (Mongoose.Options (Some false) conn) st = (inr m, st') /\
    Mongoose.schema m = s /\
    Mongoose.connection m = default (Mongoose.defaultConnection st) conn /\
    Mongoose.log st' = Mongoose.log st ++ [Mongoose.Compile m] /\
    Mongoose.models st' = Mongoose.models st /\
    Mongoose.modelSchemas st' = Mongoose.modelSchemas st.
Proof.
  intros Hs. unfold Mongoose.model. cbn -[Indexes.truthy]. rewrite Hs.
  cbn -[Indexes.truthy].
  destruct (Mongoose.models st !! name); cbn -[Indexes.truthy];
    do 2 eexists; (split; [reflexivity|]); done.
Qed.

(** A second schema for [Group], through the options of a connection. *)
Lemma model_uncached_witness :
  let model :=
    Mongoose.model (fun _ => None) (fun n => n +:+ "s") (fun _ => None)
      (fun _ => "groups") (fun _ => true) (fun _ => Fixtures.group) in
  exists m0 st m st',
    model "Group" (Mongoose.ASchema (Mongoose.Given 1)) Mongoose.NoCollection
      Mongoose.NoInit Mongoose.fresh = (inr m0, st) /\
    model "Group" (Mongoose.ASchema (Mongoose.Given 2)) Mongoose.NoCollection
      (Mongoose.Options (Some false) (Some 3)) st = (inr m, st') /\
    Mongoose.schema m = Mongoose.Given 2 /\
    Mongoose.connection m = 3 /\
    Mongoose.models st' !! "Group" = Some m0.
Proof.
  intros model.
  let r := eval vm_compute in
    (model "Group" (Mongoose.ASchema (Mongoose.Given 1)) Mongoose.NoCollection
       Mongoose.NoInit Mongoose.fresh) in
  match r with
  | (inr ?m, ?st) =>
      pose (m1 := m); pose (st1 := st);
      assert (Hr : model "Group" (Mongoose.ASchema (Mongoose.Given 1))
                     Mongoose.NoCollection Mongoose.NoInit Mongoose.fresh
                   = (inr m1, st1)) by (vm_compute; reflexivity)
  end.
  destruct (model_uncached (fun _ => None) (fun n => n +:+ "s")
              (fun _ => None) (fun _ => "groups") (fun _ => true)
              (fun _ => Fixtures.group) "Group" (Mongoose.Given 2)
              (Mongoose.Given 1) (Some 3) st1)
    as (m & st' & Hm & Hsch & Hconn & _ & Hmodels & _); [by vm_compute|].
  exists m1, st1, m, st'. split; [exact Hr|]. split; [exact Hm|].
  split; [exact Hsch|]. split; [exact Hconn|].
  rewrite Hmodels. by vm_compute.
Defined.
